(** * FastNoiseLite.py and perlin_noise_generator.py: a shallow embedding

    The Python sources are embedded with

    - Python [int] as [Z] (unbounded, bit operations in two's complement,
      which is what [Z.land] implements);
    - Python [float] as the primitive binary64 [float], whose operations
      round to nearest even exactly as CPython's do;
    - an object of class [FastNoiseLite] as the record [Engine], methods as
      computations in a state-and-exception monad over it;
    - [random.Random(seed).shuffle], which belongs to the Python standard
      library and not to this repository, as a parameter [shuffle] together
      with its contract (the result is a rearrangement of the argument). *)

From Stdlib Require Import ZArith List Lia Bool Permutation FinFun Floats.
From Stdlib Require Uint63.
Import ListNotations.

Set Warnings "-inexact-float".
Open Scope Z_scope.

(** ** Python values and exceptions *)

Inductive exn : Set :=
| ValueError
| OverflowError
| IndexError
| ZeroDivisionError.

Inductive outcome (A : Type) : Type :=
| Return (a : A)
| Raise (e : exn).
Arguments Return {A} a.
Arguments Raise {A} e.

(** A numeric argument of a dynamically typed call: an [int] or a [float]. *)
Inductive PyNum : Set :=
| PyInt (z : Z)
| PyFloat (f : float).

(** ** Conversions between [int] and [float] *)

(** The nearest binary64 number of an integer (ties to even), infinite when
    the integer is out of range. *)
Definition Z2float (z : Z) : float :=
  SF2Prim (binary_normalize prec emax z 0 false).

(** [float(z)] for an [int]: CPython raises [OverflowError] when the integer
    is too large for a float. The same conversion is applied to the [int]
    operand of a mixed [int]/[float] arithmetic operation. *)
Definition float_of_int (z : Z) : outcome float :=
  let f := Z2float z in
  if is_infinity f then Raise OverflowError else Return f.

(** [float(v)] for a numeric argument. *)
Definition py_float (v : PyNum) : outcome float :=
  match v with
  | PyInt z => float_of_int z
  | PyFloat f => Return f
  end.

(** [math.floor(x)] for a [float]: an exact [int], [ValueError] on NaN and
    [OverflowError] on an infinity. A finite float is [(-1)^s * m * 2^e];
    a shift by a negative amount is an arithmetic right shift, which rounds
    towards minus infinity. *)
Definition math_floor (x : float) : outcome Z :=
  match Prim2SF x with
  | S754_nan => Raise ValueError
  | S754_infinity _ => Raise OverflowError
  | S754_zero _ => Return 0
  | S754_finite s m e => Return (Z.shiftl (cond_Zopp s (Zpos m)) e)
  end.

(** [int(x)] for a [float]: truncation towards zero, with the same errors. *)
Definition int_of_float (x : float) : outcome Z :=
  match Prim2SF x with
  | S754_nan => Raise ValueError
  | S754_infinity _ => Raise OverflowError
  | S754_zero _ => Return 0
  | S754_finite s m e => Return (cond_Zopp s (Z.shiftl (Zpos m) e))
  end.

(** [int(v)] for a numeric argument. *)
Definition py_int (v : PyNum) : outcome Z :=
  match v with
  | PyInt z => Return z
  | PyFloat f => int_of_float f
  end.

(** [v >= 1] for a numeric argument ([False] on NaN). *)
Definition py_ge_1 (v : PyNum) : bool :=
  match v with
  | PyInt z => 1 <=? z
  | PyFloat f => (1 <=? f)%float
  end.

(** [l[i]] for a list: a negative index counts from the end, an index out of
    range raises [IndexError]. *)
Definition py_getitem {A : Type} (l : list A) (i : Z) : outcome A :=
  let j := if i <? 0 then Z.of_nat (length l) + i else i in
  if j <? 0 then Raise IndexError
  else match nth_error l (Z.to_nat j) with
       | Some a => Return a
       | None => Raise IndexError
       end.

(** [a / b] on floats: [ZeroDivisionError] when the divisor is a zero. *)
Definition py_div (a b : float) : outcome float :=
  if (b =? 0)%float then Raise ZeroDivisionError else Return (a / b)%float.

(** [list(range(n))]. *)
Definition py_range (n : nat) : list Z := map Z.of_nat (seq 0 n).

(** ** The class FastNoiseLite *)

Module FastNoiseLite.

Definition TYPE_OPEN_SIMPLEX_2 : Z := 0.
Definition TYPE_OPEN_SIMPLEX_2S : Z := 1.
Definition TYPE_CELLULAR : Z := 2.
Definition TYPE_PERLIN : Z := 3.
Definition TYPE_VALUE_CUBIC : Z := 4.
Definition TYPE_VALUE : Z := 5.

(** The attributes of an instance. *)
Record Engine : Type := mkEngine {
  seed : Z;
  noise_type : Z;
  frequency : float;
  octaves : Z;
  lacunarity : float;
  gain : float;
  perm : list Z;
  grad2 : list (Z * Z)
}.

(** A method: it may read and assign attributes of [self], and either
    returns or raises; the instance is handed on in both cases. *)
Definition Py (A : Type) : Type := Engine -> outcome A * Engine.

Definition ret {A : Type} (a : A) : Py A := fun self => (Return a, self).

Definition bind {A B : Type} (c : Py A) (k : A -> Py B) : Py B :=
  fun self =>
    match c self with
    | (Return a, self') => k a self'
    | (Raise e, self') => (Raise e, self')
    end.

Definition lift {A : Type} (o : outcome A) : Py A := fun self => (o, self).

Definition get {A : Type} (field : Engine -> A) : Py A :=
  fun self => (Return (field self), self).

Definition put (update : Engine -> Engine) : Py unit :=
  fun self => (Return tt, update self).

Declare Scope py_scope.
Delimit Scope py_scope with py.
Notation "x <- c ;; k" := (bind c (fun x => k))
  (at level 61, c at next level, right associativity) : py_scope.
Notation "c ;;; k" := (bind c (fun _ => k))
  (at level 61, right associativity) : py_scope.
Open Scope py_scope.

Definition set_perm (p : list Z) (e : Engine) : Engine :=
  mkEngine (seed e) (noise_type e) (frequency e) (octaves e) (lacunarity e)
           (gain e) p (grad2 e).
Definition set_grad2 (g : list (Z * Z)) (e : Engine) : Engine :=
  mkEngine (seed e) (noise_type e) (frequency e) (octaves e) (lacunarity e)
           (gain e) (perm e) g.
Definition set_frequency_attr (f : float) (e : Engine) : Engine :=
  mkEngine (seed e) (noise_type e) f (octaves e) (lacunarity e)
           (gain e) (perm e) (grad2 e).
Definition set_octaves_attr (n : Z) (e : Engine) : Engine :=
  mkEngine (seed e) (noise_type e) (frequency e) n (lacunarity e)
           (gain e) (perm e) (grad2 e).
Definition set_lacunarity_attr (f : float) (e : Engine) : Engine :=
  mkEngine (seed e) (noise_type e) (frequency e) (octaves e) f
           (gain e) (perm e) (grad2 e).
Definition set_gain_attr (f : float) (e : Engine) : Engine :=
  mkEngine (seed e) (noise_type e) (frequency e) (octaves e) (lacunarity e)
           f (perm e) (grad2 e).
Definition set_noise_type_attr (t : Z) (e : Engine) : Engine :=
  mkEngine (seed e) t (frequency e) (octaves e) (lacunarity e)
           (gain e) (perm e) (grad2 e).

(** The eight gradient directions assigned in [_build_perm_table]. *)
Definition GRAD2 : list (Z * Z) :=
  [ (1, 0); (-1, 0); (0, 1); (0, -1);
    (1, 1); (-1, 1); (1, -1); (-1, -1) ].

Section Construction.

(** [shuffle s l] is the list that [random.Random(s).shuffle] leaves in place
    of [l]. *)
Variable shuffle : Z -> list Z -> list Z.

(** [_build_perm_table(self, seed)] *)
Definition _build_perm_table (seed0 : Z) : Py unit :=
  let perm0 := shuffle seed0 (py_range 256) in
  put (set_perm (perm0 ++ perm0)) ;;;
  put (set_grad2 GRAD2).

(** [__init__(self, seed=1337)], run on a fresh instance. *)
Definition __init__ (seed_arg : Z) : Engine :=
  let seed0 := Z.land seed_arg 0xFFFFFFFF in
  let fresh := mkEngine seed0 TYPE_PERLIN 0.01%float 3 2.0%float 0.5%float [] [] in
  snd (_build_perm_table seed0 fresh).

End Construction.

(** [set_frequency(self, freq)] *)
Definition set_frequency (freq : PyNum) : Py unit :=
  f <- lift (py_float freq) ;;
  put (set_frequency_attr f).

(** [set_fractal_octaves(self, octaves)] *)
Definition set_fractal_octaves (octaves0 : PyNum) : Py unit :=
  n <- (if py_ge_1 octaves0 then lift (py_int octaves0) else ret 1) ;;
  put (set_octaves_attr n).

(** [set_fractal_lacunarity(self, lac)] *)
Definition set_fractal_lacunarity (lac : PyNum) : Py unit :=
  f <- lift (py_float lac) ;;
  put (set_lacunarity_attr f).

(** [set_fractal_gain(self, gain)] *)
Definition set_fractal_gain (gain0 : PyNum) : Py unit :=
  f <- lift (py_float gain0) ;;
  put (set_gain_attr f).

(** [_fade(t)]; the [int] literals are converted to [float] exactly. *)
Definition _fade (t : float) : float :=
  (t * t * t * (t * (t * 6 - 15) + 10))%float.

(** [_lerp(a, b, t)] *)
Definition _lerp (a b t : float) : float :=
  (a + t * (b - a))%float.

(** [_grad(self, hash_val, x, y)]: the components of a gradient are [int]s,
    converted when they meet a [float]. *)
Definition _grad (hash_val : Z) (x y : float) : Py float :=
  table <- get grad2 ;;
  g <- lift (py_getitem table (Z.land hash_val 7)) ;;
  g0 <- lift (float_of_int (fst g)) ;;
  g1 <- lift (float_of_int (snd g)) ;;
  ret (g0 * x + g1 * y)%float.

(** [_perm_hash(self, ix, iy)] *)
Definition _perm_hash (ix iy : Z) : Py Z :=
  p <- get perm ;;
  a <- lift (py_getitem p (Z.land ix 255)) ;;
  p' <- get perm ;;
  lift (py_getitem p' (Z.land (a + Z.land iy 255) 255)).

(** [_perlin2(self, x, y)] *)
Definition _perlin2 (x y : float) : Py float :=
  xi <- lift (math_floor x) ;;
  yi <- lift (math_floor y) ;;
  xif <- lift (float_of_int xi) ;;
  let xf := (x - xif)%float in
  yif <- lift (float_of_int yi) ;;
  let yf := (y - yif)%float in
  let u := _fade xf in
  let v := _fade yf in
  h00 <- _perm_hash xi yi ;;
  h10 <- _perm_hash (xi + 1) yi ;;
  h01 <- _perm_hash xi (yi + 1) ;;
  h11 <- _perm_hash (xi + 1) (yi + 1) ;;
  n00 <- _grad h00 xf yf ;;
  n10 <- _grad h10 (xf - 1.0)%float yf ;;
  n01 <- _grad h01 xf (yf - 1.0)%float ;;
  n11 <- _grad h11 (xf - 1.0)%float (yf - 1.0)%float ;;
  let nx0 := _lerp n00 n10 u in
  let nx1 := _lerp n01 n11 u in
  let nxy := _lerp nx0 nx1 v in
  ret nxy.

(** The local variables of the loop of [_perlin_fractal]. *)
Record Acc : Type := mkAcc {
  total : float;
  amplitude : float;
  freq_mult : float;
  max_ampl : float
}.

(** One iteration of [for _ in range(self.octaves)]. *)
Definition octave_step (x y : float) (a : Acc) : Py Acc :=
  let sample_x := (x * freq_mult a)%float in
  let sample_y := (y * freq_mult a)%float in
  val <- _perlin2 sample_x sample_y ;;
  let total' := (total a + val * amplitude a)%float in
  let max_ampl' := (max_ampl a + amplitude a)%float in
  g <- get gain ;;
  let amplitude' := (amplitude a * g)%float in
  l <- get lacunarity ;;
  let frequency' := (freq_mult a * l)%float in
  ret (mkAcc total' amplitude' frequency' max_ampl').

Fixpoint octave_loop (n : nat) (x y : float) (a : Acc) : Py Acc :=
  match n with
  | O => ret a
  | S n' => a' <- octave_step x y a ;; octave_loop n' x y a'
  end.

(** [_perlin_fractal(self, x, y)]; [range] of a number below 1 is empty. *)
Definition _perlin_fractal (x y : float) : Py float :=
  n <- get octaves ;;
  a <- octave_loop (Z.to_nat n) x y (mkAcc 0.0 1.0 1.0 0.0)%float ;;
  if negb (max_ampl a =? 0)%float
  then lift (py_div (total a) (max_ampl a))
  else ret 0.0%float.

(** The two assignments that clamp [v] in [get_noise]. *)
Definition clamp (v : float) : float :=
  let v1 := if (1.0 <? v)%float then 1.0%float else v in
  if (v1 <? -1.0)%float then (-1.0)%float else v1.

(** [get_noise(self, x, y)] *)
Definition get_noise (x y : PyNum) : Py float :=
  xfl <- lift (py_float x) ;;
  f <- get frequency ;;
  let fx := (xfl * f)%float in
  yfl <- lift (py_float y) ;;
  f' <- get frequency ;;
  let fy := (yfl * f')%float in
  t <- get noise_type ;;
  if t =? TYPE_PERLIN then
    v <- _perlin_fractal fx fy ;;
    ret (clamp v)
  else
    v <- _perlin_fractal fx fy ;;
    ret (clamp v).

(** [__call__(self, x, y)] *)
Definition __call__ (x y : PyNum) : Py float := get_noise x y.

End FastNoiseLite.

(** ** The script perlin_noise_generator.py *)

Module perlin_noise_generator.

Import FastNoiseLite.

Definition WIDTH : nat := 550.
Definition HEIGHT : nat := 500.
Definition FREQ : float := 0.008%float.
Definition OCTAVES : Z := 5.
Definition LACUNARITY : float := 2.0%float.
Definition GAIN : float := 0.5%float.

(** Storing a Python float in an array of [dtype=np.float32] rounds it to
    the nearest binary32 number (ties to even); that number is kept here as
    the binary64 float of the same value. *)
Definition to_float32 (f : float) : float :=
  match Prim2SF f with
  | S754_finite s m e => SF2Prim (binary_round 24 128 s m e)
  | _ => f
  end.

(** [np.zeros((height, width), dtype=np.float32)] *)
Definition np_zeros (height width : nat) : list (list float) :=
  repeat (repeat 0.0%float width) height.

Fixpoint list_set {A : Type} (l : list A) (i : nat) (a : A) : list A :=
  match l, i with
  | [], _ => []
  | _ :: t, O => a :: t
  | h :: t, S i' => h :: list_set t i' a
  end.

(** [data[y, x] = val] for indices inside the array. *)
Definition np_setitem (data : list (list float)) (y x : nat) (val : float)
  : list (list float) :=
  match nth_error data y with
  | Some row => list_set data y (list_set row x (to_float32 val))
  | None => data
  end.

(** The body of the inner loop, for one pixel. *)
Definition pixel (y x : nat) (data : list (list float)) : Py (list (list float)) :=
  v <- get_noise (PyInt (Z.of_nat x)) (PyInt (Z.of_nat y)) ;;
  ret (np_setitem data y x ((v + 1) * 0.5)%float).

(** [for x in range(width)], from column [x0] on. *)
Fixpoint row_loop (n : nat) (y x0 : nat) (data : list (list float))
  : Py (list (list float)) :=
  match n with
  | O => ret data
  | S n' => data' <- pixel y x0 data ;; row_loop n' y (S x0) data'
  end.

(** [for y in range(height)], from row [y0] on. *)
Fixpoint grid_loop (n : nat) (width y0 : nat) (data : list (list float))
  : Py (list (list float)) :=
  match n with
  | O => ret data
  | S n' => data' <- row_loop width y0 O data ;; grid_loop n' width (S y0) data'
  end.

(** Lines 23 to 28: the array and the two loops that fill it. *)
Definition sample_grid (width height : nat) : Py (list (list float)) :=
  grid_loop height width O (np_zeros height width).

(** Lines 17 to 21: the configuration of the engine. *)
Definition configure : Py unit :=
  put (set_noise_type_attr TYPE_PERLIN) ;;;
  set_frequency (PyFloat FREQ) ;;;
  set_fractal_octaves (PyInt OCTAVES) ;;;
  set_fractal_lacunarity (PyFloat LACUNARITY) ;;;
  set_fractal_gain (PyFloat GAIN).

(** The script up to the array [data], for the seed drawn on line 13. *)
Definition script (shuffle : Z -> list Z -> list Z) (seed0 : Z)
  : outcome (list (list float)) * Engine :=
  (configure ;;; sample_grid WIDTH HEIGHT) (__init__ shuffle seed0).

(** [data * 255] on one entry of an array of [dtype=np.float32]: the
    binary32 product. The binary64 product of a binary32 number and 255 is
    exact (24 + 8 bits), so rounding it to binary32 is the product that numpy
    computes. *)
Definition mul_255 (d : float) : float := to_float32 (d * 255)%float.

(** [.astype('uint8')] on one entry: the conversion of C from a float to an
    unsigned 8-bit integer truncates towards zero, and has a specified result
    only when the truncated value is in 0..255 ([None] otherwise, and for NaN
    and the infinities). *)
Definition astype_uint8 (f : float) : option Z :=
  match int_of_float f with
  | Return z => if (0 <=? z) && (z <=? 255) then Some z else None
  | Raise _ => None
  end.

(** Line 30, the argument of [Image.fromarray]:
    [(data * 255).astype('uint8')]. *)
Definition image_bytes (data : list (list float)) : list (list (option Z)) :=
  map (map (fun d => astype_uint8 (mul_255 d))) data.

End perlin_noise_generator.

(** ** Operations on an instance, and the instances a program can reach *)

Module Lifecycle.

Import FastNoiseLite.

(** What a client does with an instance after its construction: the four
    setters, the assignment [noise.noise_type = t] of the documented usage,
    and the evaluation methods. *)
Inductive operation : Set :=
| OpSetFrequency (v : PyNum)
| OpSetFractalOctaves (v : PyNum)
| OpSetFractalLacunarity (v : PyNum)
| OpSetFractalGain (v : PyNum)
| OpAssignNoiseType (t : Z)
| OpGetNoise (x y : PyNum)
| OpCall (x y : PyNum)
| OpPerlinFractal (x y : float)
| OpPerlin2 (x y : float)
| OpPermHash (ix iy : Z)
| OpGrad (hash_val : Z) (x y : float).

(** The instance after an operation (whether it returned or raised). *)
Definition perform (op : operation) (e : Engine) : Engine :=
  match op with
  | OpSetFrequency v => snd (set_frequency v e)
  | OpSetFractalOctaves v => snd (set_fractal_octaves v e)
  | OpSetFractalLacunarity v => snd (set_fractal_lacunarity v e)
  | OpSetFractalGain v => snd (set_fractal_gain v e)
  | OpAssignNoiseType t => set_noise_type_attr t e
  | OpGetNoise x y => snd (get_noise x y e)
  | OpCall x y => snd (__call__ x y e)
  | OpPerlinFractal x y => snd (_perlin_fractal x y e)
  | OpPerlin2 x y => snd (_perlin2 x y e)
  | OpPermHash ix iy => snd (_perm_hash ix iy e)
  | OpGrad h x y => snd (_grad h x y e)
  end.

Section Reachable.

Variable shuffle : Z -> list Z -> list Z.

(** Instances obtained by construction, by rebuilding the table for a seed,
    and by any sequence of operations. *)
Inductive reachable : Engine -> Prop :=
| reach_init (seed0 : Z) :
    reachable (__init__ shuffle seed0)
| reach_rebuild (e : Engine) (seed0 : Z) :
    reachable e -> reachable (snd (_build_perm_table shuffle seed0 e))
| reach_perform (e : Engine) (op : operation) :
    reachable e -> reachable (perform op e).

End Reachable.

Fixpoint list_eqb {A : Type} (eqb : A -> A -> bool) (l1 l2 : list A) : bool :=
  match l1, l2 with
  | [], [] => true
  | a :: t1, b :: t2 => eqb a b && list_eqb eqb t1 t2
  | _, _ => false
  end.

Definition pair_eqb (a b : Z * Z) : bool :=
  (fst a =? fst b) && (snd a =? snd b).

(** The invariant of the permutation table, as a check that runs: 512
    entries, each of 0..255 exactly once among the first 256, and the last
    256 entries equal to the first 256. *)
Definition table_okb (p : list Z) : bool :=
  (length p =? 512)%nat
  && forallb (fun v => (count_occ Z.eq_dec (firstn 256 p) v =? 1)%nat) (py_range 256)
  && list_eqb Z.eqb (skipn 256 p) (firstn 256 p).

(** The table and the gradients of an instance are those of a construction. *)
Definition engine_okb (e : Engine) : bool :=
  table_okb (perm e) && list_eqb pair_eqb (grad2 e) GRAD2.

(** A concrete shuffle, used where a table has to be computed: it draws
    without replacement with a linear congruential generator. *)
Fixpoint take_nth (n : nat) (l : list Z) : option (Z * list Z) :=
  match l, n with
  | [], _ => None
  | a :: t, O => Some (a, t)
  | a :: t, S n' =>
    match take_nth n' t with
    | Some (b, r) => Some (b, a :: r)
    | None => None
    end
  end.

Fixpoint draw (fuel : nat) (state : Z) (pool : list Z) : list Z :=
  match fuel with
  | O => pool
  | S fuel' =>
    let state' := (state * 1103515245 + 12345) mod 2147483648 in
    match take_nth (Z.to_nat ((state' / 65536) mod Z.of_nat (length pool))) pool with
    | Some (a, rest) => a :: draw fuel' state' rest
    | None => pool
    end
  end.

Definition lcg_shuffle (seed0 : Z) (l : list Z) : list Z :=
  draw (length l) seed0 l.

(** An instance with the default seed and that shuffle. *)
Definition example_engine : Engine := __init__ lcg_shuffle 1337.

(** The same instance after [set_fractal_gain(-1.0)] and
    [set_fractal_octaves(2)]. *)
Definition alternating_engine : Engine :=
  snd ((set_fractal_gain (PyFloat (-1.0)) ;;; set_fractal_octaves (PyInt 2))
         example_engine).

(** The same instance after [set_fractal_gain(1e200)]. *)
Definition huge_gain_engine : Engine :=
  snd (set_fractal_gain (PyFloat 1e200) example_engine).

(** The instance of the script for the seed 1337, after lines 17 to 21. *)
Definition script_engine : Engine :=
  snd (perlin_noise_generator.configure example_engine).

(** [data[y, x]] read back, [None] outside the array. *)
Definition sample_at (data : list (list float)) (y x : nat) : option float :=
  match nth_error data y with
  | Some row => nth_error row x
  | None => None
  end.

End Lifecycle.

(** ** The formulas of the specification *)

Module Spec.

Import FastNoiseLite.

(** [table[(table[ix mod 256] + iy) mod 256]], with the modulo of
    mathematics (never negative); [None] when the table is too short. *)
Definition hash_formula (table : list Z) (ix iy : Z) : option Z :=
  match nth_error table (Z.to_nat (ix mod 256)) with
  | Some a => nth_error table (Z.to_nat ((a + iy) mod 256))
  | None => None
  end.

Definition outcome_of_lookup {A : Type} (o : option A) : outcome A :=
  match o with
  | Some a => Return a
  | None => Raise IndexError
  end.

(** [b^i] as a float, by repeated multiplication. *)
Fixpoint fpow (b : float) (i : nat) : float :=
  match i with
  | O => 1.0%float
  | S i' => (fpow b i' * b)%float
  end.

(** The value of the single-octave noise on an instance. *)
Definition perlin2 (e : Engine) (x y : float) : outcome float :=
  fst (_perlin2 x y e).

(** The sum over [i] in [0, n) of [gain^i * perlin2(x * lacunarity^i,
    y * lacunarity^i)], added up from [i = 0]. *)
Fixpoint weighted_sum (e : Engine) (x y : float) (n : nat) : outcome float :=
  match n with
  | O => Return 0.0%float
  | S i =>
    match weighted_sum e x y i with
    | Return acc =>
      match perlin2 e (x * fpow (lacunarity e) i)%float
                      (y * fpow (lacunarity e) i)%float with
      | Return v => Return (acc + fpow (gain e) i * v)%float
      | Raise err => Raise err
      end
    | Raise err => Raise err
    end
  end.

(** The sum over [i] in [0, n) of [gain^i]. *)
Fixpoint amplitude_sum (g : float) (n : nat) : float :=
  match n with
  | O => 0.0%float
  | S i => (amplitude_sum g i + fpow g i)%float
  end.

(** The quotient of the two sums. *)
Definition fractal_quotient (e : Engine) (x y : float) (n : nat) : outcome float :=
  match weighted_sum e x y n with
  | Return t => Return (t / amplitude_sum (gain e) n)%float
  | Raise err => Raise err
  end.

(** The quotient, and [0.0] in its place when the sum of the amplitudes is
    zero. *)
Definition fractal_guarded (e : Engine) (x y : float) (n : nat) : outcome float :=
  match weighted_sum e x y n with
  | Return t =>
    if (amplitude_sum (gain e) n =? 0)%float then Return 0.0%float
    else Return (t / amplitude_sum (gain e) n)%float
  | Raise err => Raise err
  end.

(** Membership in the closed intervals [[-1, 1]] and [[0, 1]]. *)
Definition in_unit_range (v : float) : bool :=
  ((-1.0 <=? v) && (v <=? 1.0))%float.

Definition in_zero_one (v : float) : bool :=
  ((0.0 <=? v) && (v <=? 1.0))%float.

(** The coordinates the first [n] octaves sample are all finite. *)
Fixpoint samples_finite (l : float) (x y : float) (n : nat) : bool :=
  match n with
  | O => true
  | S i =>
    samples_finite l x y i
    && is_finite (x * fpow l i)%float && is_finite (y * fpow l i)%float
  end.

(** [x == math.floor(x)]: the float is a whole number. *)
Definition float_is_integer (x : float) : bool :=
  match math_floor x with
  | Return z =>
    match float_of_int z with
    | Return f => (f =? x)%float
    | Raise _ => false
    end
  | Raise _ => false
  end.

(** What [_perlin2] derives from one coordinate: the cell, here modulo the
    period of the table, and the offset in the cell. *)
Definition cell_offset (x : float) : outcome (Z * float) :=
  match math_floor x with
  | Return xi =>
    match float_of_int xi with
    | Return xif => Return (xi mod 256, (x - xif)%float)
    | Raise err => Raise err
    end
  | Raise err => Raise err
  end.

(** The coordinates the first [n] octaves sample are all whole numbers. *)
Fixpoint samples_integer (l : float) (x y : float) (n : nat) : bool :=
  match n with
  | O => true
  | S i =>
    samples_integer l x y i
    && float_is_integer (x * fpow l i)%float && float_is_integer (y * fpow l i)%float
  end.

End Spec.

(** * Verification *)

Import FastNoiseLite Lifecycle Spec.

(** ** Notions of the proofs *)

(** The attributes an evaluation may read. *)
Definition same_params (e1 e2 : Engine) : Prop :=
  frequency e1 = frequency e2 /\ octaves e1 = octaves e2
  /\ lacunarity e1 = lacunarity e2 /\ gain e1 = gain e2
  /\ perm e1 = perm e2 /\ grad2 e1 = grad2 e2.

(** A computation that assigns no attribute and whose outcome is a function
    of the attributes of [same_params]. *)
Definition reader {A : Type} (c : Py A) : Prop :=
  (forall e, snd (c e) = e)
  /\ (forall e1 e2, same_params e1 e2 -> fst (c e1) = fst (c e2)).

(** The errors of the methods of the evaluation: never [ZeroDivisionError]. *)
Definition never_zero_division {A : Type} (c : Py A) : Prop :=
  forall e, fst (c e) <> Raise ZeroDivisionError.

(** The accumulators after [i] octaves. *)
Definition acc_after (e : Engine) (t : float) (i : nat) : Acc :=
  mkAcc t (fpow (gain e) i) (fpow (lacunarity e) i) (amplitude_sum (gain e) i).

(** The instance after lines 17 to 21. *)
Definition configured (e : Engine) : Engine :=
  mkEngine (seed e) TYPE_PERLIN perlin_noise_generator.FREQ
           perlin_noise_generator.OCTAVES perlin_noise_generator.LACUNARITY
           perlin_noise_generator.GAIN (perm e) (grad2 e).

(** What the sampling loop stores at row [y], column [x], on the instance
    [e]. *)
Definition stored (e : Engine) (y x : nat) : float :=
  match fst (get_noise (PyInt (Z.of_nat x)) (PyInt (Z.of_nat y)) e) with
  | Return v => perlin_noise_generator.to_float32 ((v + 1) * 0.5)%float
  | Raise _ => 0.0%float
  end.

(** Row [y] once its first [x0] columns are stored. *)
Definition filled_row (e : Engine) (width : nat) (y x0 : nat) : list float :=
  map (stored e y) (seq 0 x0) ++ repeat 0.0%float (width - x0).

(** The array once its first [y0] rows are stored. *)
Definition filled_rows (e : Engine) (width height : nat) (y0 : nat)
  : list (list float) :=
  map (fun y => map (stored e y) (seq 0 width)) (seq 0 y0)
  ++ repeat (repeat 0.0%float width) (height - y0).

(** The array while row [y] is being stored. *)
Definition filling (e : Engine) (width height : nat) (y x0 : nat)
  : list (list float) :=
  map (fun y' => map (stored e y') (seq 0 width)) (seq 0 y)
  ++ filled_row e width y x0 :: repeat (repeat 0.0%float width) (height - S y).

(** A mantissa and exponent in canonical position, for a format of
    precision [prec] and largest exponent [emax]. *)
Definition canonical (prec emax : Z) (m : positive) (e : Z) : Prop :=
  SpecFloat.emin prec emax <= e
  /\ Zpos m < 2 ^ prec
  /\ (e = SpecFloat.emin prec emax \/ 2 ^ (prec - 1) <= Zpos m).

(** The record after shifting [X] right by [j] bits: the quotient, and two
    flags that are both clear when nothing was shifted out. *)
Definition shr_inv (X j : Z) (r : shr_record) : Prop :=
  shr_m r = X / 2 ^ j
  /\ (X mod 2 ^ j = 0 -> shr_r r = false /\ shr_s r = false).

(** [m * 2^e <= M * 2^E], without fractions: both sides are scaled by the
    smaller exponent. *)
Definition le_val (m : positive) (e : Z) (M : positive) (E : Z) : Prop :=
  Zpos m * 2 ^ (e - Z.min e E) <= Zpos M * 2 ^ (E - Z.min e E).

(** The same between canonical pairs: the exponents are ordered too. *)
Definition sf_le (m : positive) (e : Z) (M : positive) (E : Z) : Prop :=
  e <= E /\ Zpos m <= Zpos M * 2 ^ (E - e).

(** A rounding result of sign [sx] that is a zero or a canonical finite
    number of magnitude at most [M * 2^E]. *)
Definition rounded_below (prec emax : Z) (sx : bool) (M : positive) (E : Z)
  (R : spec_float) : Prop :=
  R = S754_zero sx
  \/ exists (m2 : positive) (e2 : Z),
       R = S754_finite sx m2 e2 /\ canonical prec emax m2 e2 /\ sf_le m2 e2 M E.

(** A finite binary64 number of magnitude at most [2^k]. *)
Definition mag (k : Z) (R : spec_float) : Prop :=
  exists sx, rounded_below prec emax sx 4503599627370496 (k - 52) R.

(** [2^k] as a float. *)
Definition pow2f (k : Z) : float :=
  SF2Prim (S754_finite false 4503599627370496 (k - 52)).

(** The test [abs f <= 2^k]. *)
Definition magb (k : Z) (f : float) : bool := (abs f <=? pow2f k)%float.

(** The check of one coordinate of [_perlin2]: its floor converts back, and
    the offset in the cell, the offset from the far corner and the fade are
    of magnitude at most 2, 2 and 1. *)
Definition axis_okb (x : float) : bool :=
  match math_floor x with
  | Return xi =>
    match float_of_int xi with
    | Return xif =>
      let xf := (x - xif)%float in
      magb 1 xf && magb 1 (xf - 1.0)%float && magb 0 (_fade xf)
    | Raise _ => false
    end
  | Raise _ => false
  end.

(** The check of one pixel index of the script, for the five octaves. *)
Definition index_axis_okb (n : nat) : bool :=
  match float_of_int (Z.of_nat n) with
  | Return f =>
    forallb (fun i => axis_okb ((f * perlin_noise_generator.FREQ)
                                * fpow perlin_noise_generator.LACUNARITY i)%float)
            (seq 0 5)
  | Raise _ => false
  end.

(** The dot product of [_grad] for the gradient [g]. *)
Definition grad_dot (g : Z * Z) (x y : float) : float :=
  (Z2float (fst g) * x + Z2float (snd g) * y)%float.

(** The interpolation of [_perlin2] for the gradients of the four corners
    and the offsets in the cell. *)
Definition corner_blend (g00 g10 g01 g11 : Z * Z) (xf yf : float) : float :=
  let u := _fade xf in
  let v := _fade yf in
  let n00 := grad_dot g00 xf yf in
  let n10 := grad_dot g10 (xf - 1.0)%float yf in
  let n01 := grad_dot g01 xf (yf - 1.0)%float in
  let n11 := grad_dot g11 (xf - 1.0)%float (yf - 1.0)%float in
  _lerp (_lerp n00 n10 u) (_lerp n01 n11 u) v.

(** A computation that does not read the frequency: on an instance whose
    frequency is replaced it has the same outcome, and assigns the same. *)
Definition frequency_free {A : Type} (c : Py A) : Prop :=
  forall e f,
    c (set_frequency_attr f e) = (fst (c e), set_frequency_attr f (snd (c e))).

(** ** The monad *)

Lemma bind_return {A B : Type} (c : Py A) (k : A -> Py B) (e e' : Engine) (a : A) :
  c e = (Return a, e') -> bind c k e = k a e'.
Proof. intros H. unfold bind. rewrite H. reflexivity. Qed.

Lemma reader_ret {A : Type} (a : A) : reader (ret a).
Proof. split; intros; reflexivity. Qed.

Lemma reader_lift {A : Type} (o : outcome A) : reader (lift o).
Proof. split; intros; reflexivity. Qed.

Lemma reader_bind {A B : Type} (c : Py A) (k : A -> Py B) :
  reader c -> (forall a, reader (k a)) -> reader (bind c k).
Proof.
  intros [Hs Hf] Hk. split.
  - intros e. unfold bind. specialize (Hs e).
    destruct (c e) as [[a | x] e'] eqn:Hc; simpl in Hs; subst e'.
    + apply (Hk a).
    + reflexivity.
  - intros e1 e2 Hp. unfold bind.
    pose proof (Hs e1) as H1. pose proof (Hs e2) as H2.
    specialize (Hf e1 e2 Hp).
    destruct (c e1) as [[a1 | x1] e1'], (c e2) as [[a2 | x2] e2'];
      simpl in *; subst; try discriminate.
    + injection Hf as ->. apply (Hk a2); assumption.
    + injection Hf as ->. reflexivity.
Qed.

Lemma reader_get_perm : reader (get perm).
Proof. split; intros; [reflexivity | unfold get; simpl; f_equal; apply H]. Qed.
Lemma reader_get_grad2 : reader (get grad2).
Proof. split; intros; [reflexivity | unfold get; simpl; f_equal; apply H]. Qed.
Lemma reader_get_gain : reader (get gain).
Proof. split; intros; [reflexivity | unfold get; simpl; f_equal; apply H]. Qed.
Lemma reader_get_lacunarity : reader (get lacunarity).
Proof. split; intros; [reflexivity | unfold get; simpl; f_equal; apply H]. Qed.
Lemma reader_get_octaves : reader (get octaves).
Proof. split; intros; [reflexivity | unfold get; simpl; f_equal; apply H]. Qed.
Lemma reader_get_frequency : reader (get frequency).
Proof. split; intros; [reflexivity | unfold get; simpl; f_equal; apply H]. Qed.

Create HintDb py_reader.
#[export] Hint Resolve reader_ret reader_lift reader_get_perm reader_get_grad2
  reader_get_gain reader_get_lacunarity reader_get_octaves reader_get_frequency
  : py_reader.

Ltac reader_steps :=
  repeat (first [ solve [ auto with py_reader ] | apply reader_bind; [ | intro ] ]).

Lemma reader_perm_hash (ix iy : Z) : reader (_perm_hash ix iy).
Proof. unfold _perm_hash. reader_steps. Qed.

Lemma reader_grad (h : Z) (x y : float) : reader (_grad h x y).
Proof. unfold _grad. reader_steps. Qed.

#[export] Hint Resolve reader_perm_hash reader_grad : py_reader.

Lemma reader_perlin2 (x y : float) : reader (_perlin2 x y).
Proof. unfold _perlin2. reader_steps. Qed.

#[export] Hint Resolve reader_perlin2 : py_reader.

Lemma reader_octave_step (x y : float) (a : Acc) : reader (octave_step x y a).
Proof. unfold octave_step. reader_steps. Qed.

#[export] Hint Resolve reader_octave_step : py_reader.

Lemma reader_octave_loop (n : nat) (x y : float) (a : Acc) :
  reader (octave_loop n x y a).
Proof.
  revert a. induction n as [| n IH]; intros a; simpl.
  - auto with py_reader.
  - apply reader_bind; auto with py_reader.
Qed.

#[export] Hint Resolve reader_octave_loop : py_reader.

Lemma reader_perlin_fractal (x y : float) : reader (_perlin_fractal x y).
Proof.
  unfold _perlin_fractal. reader_steps.
  destruct (negb _); auto with py_reader.
Qed.

#[export] Hint Resolve reader_perlin_fractal : py_reader.

(** [get_noise] also reads [noise_type], and does the same on both branches. *)
Lemma get_noise_unfold (x y : PyNum) (e : Engine) :
  get_noise x y e =
  (xfl <- lift (py_float x) ;;
   yfl <- lift (py_float y) ;;
   v <- _perlin_fractal (xfl * frequency e)%float (yfl * frequency e)%float ;;
   ret (clamp v)) e.
Proof.
  unfold get_noise, bind, lift, get, ret.
  destruct (py_float x) as [xfl | err]; [ | reflexivity ].
  destruct (py_float y) as [yfl | err]; [ | reflexivity ].
  destruct (noise_type e =? TYPE_PERLIN); reflexivity.
Qed.

Lemma get_noise_state (x y : PyNum) (e : Engine) : snd (get_noise x y e) = e.
Proof.
  rewrite get_noise_unfold.
  assert (R : reader (xfl <- lift (py_float x) ;;
                      yfl <- lift (py_float y) ;;
                      v <- _perlin_fractal (xfl * frequency e)%float
                                           (yfl * frequency e)%float ;;
                      ret (clamp v))) by reader_steps.
  apply R.
Qed.

Lemma get_noise_params (x y : PyNum) (e1 e2 : Engine) :
  same_params e1 e2 -> fst (get_noise x y e1) = fst (get_noise x y e2).
Proof.
  intros Hp. rewrite !get_noise_unfold.
  assert (Hf : frequency e1 = frequency e2) by apply Hp. rewrite Hf.
  assert (R : reader (xfl <- lift (py_float x) ;;
                      yfl <- lift (py_float y) ;;
                      v <- _perlin_fractal (xfl * frequency e2)%float
                                           (yfl * frequency e2)%float ;;
                      ret (clamp v))) by reader_steps.
  apply R. exact Hp.
Qed.

(** ** Lists, indices and the table *)

Lemma land_255 (x : Z) : Z.land x 255 = x mod 256.
Proof. change 255 with (Z.ones 8). rewrite Z.land_ones by lia. reflexivity. Qed.

Lemma land_7_bounds (x : Z) : 0 <= Z.land x 7 < 8.
Proof.
  change 7 with (Z.ones 3). rewrite Z.land_ones by lia.
  apply Z.mod_pos_bound. reflexivity.
Qed.

Lemma land_mask32 (x : Z) : Z.land x 0xFFFFFFFF = x mod 2 ^ 32.
Proof. change 0xFFFFFFFF with (Z.ones 32). apply Z.land_ones. lia. Qed.

Lemma py_getitem_nth {A : Type} (l : list A) (i : Z) :
  0 <= i -> py_getitem l i = outcome_of_lookup (nth_error l (Z.to_nat i)).
Proof.
  intros Hi. unfold py_getitem.
  destruct (i <? 0) eqn:Hlt; [ apply Z.ltb_lt in Hlt; lia | ].
  rewrite Hlt. destruct (nth_error l (Z.to_nat i)); reflexivity.
Qed.

Lemma nth_error_in_range {A : Type} (l : list A) (i : Z) :
  0 <= i < Z.of_nat (length l) -> exists a, nth_error l (Z.to_nat i) = Some a.
Proof.
  intros Hi. destruct (nth_error l (Z.to_nat i)) as [a |] eqn:Hn.
  - exists a. reflexivity.
  - apply nth_error_None in Hn. lia.
Qed.

Lemma list_eqb_Z_eq (l1 l2 : list Z) : list_eqb Z.eqb l1 l2 = true -> l1 = l2.
Proof.
  revert l2. induction l1 as [| a t IH]; intros [| b t2]; simpl; try discriminate.
  - reflexivity.
  - intros H. apply andb_true_iff in H as [Hab Ht].
    apply Z.eqb_eq in Hab. subst b. f_equal. apply IH. exact Ht.
Qed.

Lemma list_eqb_Z_refl (l : list Z) : list_eqb Z.eqb l l = true.
Proof. induction l as [| a t IH]; simpl; [ | rewrite Z.eqb_refl ]; auto. Qed.

Lemma list_eqb_pair_eq (l1 l2 : list (Z * Z)) :
  list_eqb pair_eqb l1 l2 = true -> l1 = l2.
Proof.
  revert l2. induction l1 as [| a t IH]; intros [| b t2]; simpl; try discriminate.
  - reflexivity.
  - intros H. apply andb_true_iff in H as [Hab Ht].
    unfold pair_eqb in Hab. apply andb_true_iff in Hab as [H1 H2].
    apply Z.eqb_eq in H1, H2. destruct a, b; simpl in *; subst.
    f_equal. apply IH. exact Ht.
Qed.

Lemma table_okb_length (p : list Z) : table_okb p = true -> length p = 512%nat.
Proof.
  unfold table_okb. intros H.
  apply andb_true_iff in H as [H _]. apply andb_true_iff in H as [H _].
  apply Nat.eqb_eq. exact H.
Qed.

Lemma engine_okb_table (e : Engine) : engine_okb e = true -> table_okb (perm e) = true.
Proof. unfold engine_okb. intros H. apply andb_true_iff in H. apply H. Qed.

Lemma engine_okb_grad2 (e : Engine) : engine_okb e = true -> grad2 e = GRAD2.
Proof.
  unfold engine_okb. intros H. apply andb_true_iff in H as [_ H].
  apply list_eqb_pair_eq. exact H.
Qed.

Lemma py_range_In (n : nat) (v : Z) : In v (py_range n) <-> 0 <= v < Z.of_nat n.
Proof.
  unfold py_range. rewrite in_map_iff. split.
  - intros [k [Hk Hin]]. apply in_seq in Hin. lia.
  - intros Hv. exists (Z.to_nat v). split; [ lia | apply in_seq; lia ].
Qed.

Lemma py_range_NoDup (n : nat) : NoDup (py_range n).
Proof.
  unfold py_range. apply Injective_map_NoDup.
  - intros a b Hab. lia.
  - apply seq_NoDup.
Qed.

Lemma py_range_length (n : nat) : length (py_range n) = n.
Proof. unfold py_range. rewrite length_map, length_seq. reflexivity. Qed.

Lemma py_range_count (n : nat) (v : Z) :
  0 <= v < Z.of_nat n -> count_occ Z.eq_dec (py_range n) v = 1%nat.
Proof.
  intros Hv. apply NoDup_count_occ'.
  - apply py_range_NoDup.
  - apply py_range_In. exact Hv.
Qed.

(** A table made of a rearrangement of 0..255 written twice passes the check. *)
Lemma doubled_table_okb (p : list Z) :
  Permutation (py_range 256) p -> table_okb (p ++ p) = true.
Proof.
  intros Hp.
  assert (Hlen : length p = 256%nat).
  { rewrite <- (Permutation_length Hp). apply py_range_length. }
  assert (Hfirst : firstn 256 (p ++ p) = p).
  { rewrite <- Hlen. rewrite firstn_app, Nat.sub_diag, firstn_all. simpl.
    apply app_nil_r. }
  assert (Hskip : skipn 256 (p ++ p) = p).
  { rewrite <- Hlen. rewrite skipn_app, Nat.sub_diag, skipn_all. reflexivity. }
  unfold table_okb. rewrite Hfirst, Hskip, list_eqb_Z_refl, andb_true_r.
  apply andb_true_iff. split.
  - apply Nat.eqb_eq. rewrite length_app. lia.
  - apply forallb_forall. intros v Hv. apply Nat.eqb_eq.
    rewrite <- (proj1 (Permutation_count_occ Z.eq_dec _ _) Hp v).
    apply py_range_count. apply py_range_In in Hv. exact Hv.
Qed.

(** What the check says, as propositions. *)
Lemma table_okb_spec (p : list Z) :
  table_okb p = true ->
  length p = 512%nat
  /\ (forall v, 0 <= v < 256 -> count_occ Z.eq_dec (firstn 256 p) v = 1%nat)
  /\ Permutation (py_range 256) (firstn 256 p)
  /\ skipn 256 p = firstn 256 p.
Proof.
  intros H. pose proof (table_okb_length p H) as Hlen.
  unfold table_okb in H. apply andb_true_iff in H as [H Heq].
  apply andb_true_iff in H as [_ Hall].
  assert (Hcount : forall v, 0 <= v < 256 ->
                     count_occ Z.eq_dec (firstn 256 p) v = 1%nat).
  { intros v Hv. apply Nat.eqb_eq.
    apply (proj1 (forallb_forall _ _) Hall). apply py_range_In. exact Hv. }
  repeat split; auto.
  - apply NoDup_Permutation_bis.
    + apply py_range_NoDup.
    + rewrite py_range_length, length_firstn. lia.
    + intros v Hv. apply py_range_In in Hv.
      apply (count_occ_In Z.eq_dec). rewrite Hcount; [ lia | exact Hv ].
  - apply list_eqb_Z_eq. exact Heq.
Qed.

(** ** The shuffle used for instances *)

Lemma take_nth_perm (n : nat) (l : list Z) (a : Z) (r : list Z) :
  take_nth n l = Some (a, r) -> Permutation l (a :: r).
Proof.
  revert n a r. induction l as [| b t IH]; intros n a r H.
  - destruct n; discriminate.
  - destruct n as [| n']; simpl in H.
    + injection H as -> ->. apply Permutation_refl.
    + destruct (take_nth n' t) as [[c r'] |] eqn:Ht; [ | discriminate ].
      injection H as Hc Hr. subst a r.
      apply Permutation_trans with (b :: c :: r').
      * apply perm_skip. apply (IH n'). exact Ht.
      * apply perm_swap.
Qed.

Lemma draw_perm (fuel : nat) (state : Z) (pool : list Z) :
  Permutation pool (draw fuel state pool).
Proof.
  revert state pool. induction fuel as [| fuel IH]; intros state pool; simpl.
  - apply Permutation_refl.
  - destruct (take_nth _ pool) as [[a rest] |] eqn:Ht.
    + apply Permutation_trans with (a :: rest).
      * apply (take_nth_perm _ _ _ _ Ht).
      * apply perm_skip. apply IH.
    + apply Permutation_refl.
Qed.

Lemma lcg_shuffle_perm (s : Z) (l : list Z) : Permutation l (lcg_shuffle s l).
Proof. apply draw_perm. Qed.

(** ** Setters and evaluations leave the table alone *)

Lemma perform_perm_grad2 (op : operation) (e : Engine) :
  perm (perform op e) = perm e /\ grad2 (perform op e) = grad2 e.
Proof.
  destruct op; simpl.
  - unfold set_frequency, bind, lift, put.
    destruct (py_float v); split; reflexivity.
  - unfold set_fractal_octaves, bind, lift, put, ret.
    destruct (py_ge_1 v); [ destruct (py_int v) | ]; split; reflexivity.
  - unfold set_fractal_lacunarity, bind, lift, put.
    destruct (py_float v); split; reflexivity.
  - unfold set_fractal_gain, bind, lift, put.
    destruct (py_float v); split; reflexivity.
  - split; reflexivity.
  - rewrite get_noise_state. split; reflexivity.
  - unfold __call__. rewrite get_noise_state. split; reflexivity.
  - rewrite (proj1 (reader_perlin_fractal x y)). split; reflexivity.
  - rewrite (proj1 (reader_perlin2 x y)). split; reflexivity.
  - rewrite (proj1 (reader_perm_hash ix iy)). split; reflexivity.
  - rewrite (proj1 (reader_grad hash_val x y)). split; reflexivity.
Qed.

Lemma perform_engine_okb (op : operation) (e : Engine) :
  engine_okb (perform op e) = engine_okb e.
Proof.
  unfold engine_okb. destruct (perform_perm_grad2 op e) as [-> ->]. reflexivity.
Qed.

Section Constructed.

Variable shuffle : Z -> list Z -> list Z.
Hypothesis shuffle_perm : forall s l, Permutation l (shuffle s l).

Lemma build_perm_table_okb (s : Z) (e : Engine) :
  engine_okb (snd (_build_perm_table shuffle s e)) = true.
Proof.
  unfold _build_perm_table, bind, put, engine_okb. simpl.
  rewrite doubled_table_okb by apply shuffle_perm. reflexivity.
Qed.

Lemma reachable_engine_okb (e : Engine) :
  reachable shuffle e -> engine_okb e = true.
Proof.
  induction 1 as [s | e s _ _ | e op _ IH].
  - unfold __init__. apply build_perm_table_okb.
  - apply build_perm_table_okb.
  - rewrite perform_engine_okb. exact IH.
Qed.

End Constructed.

(** ** The corner hash *)

Lemma perm_hash_eq (e : Engine) (ix iy : Z) :
  _perm_hash ix iy e = (outcome_of_lookup (hash_formula (perm e) ix iy), e).
Proof.
  unfold _perm_hash, hash_formula, bind, get, lift.
  rewrite py_getitem_nth by (rewrite land_255; apply Z.mod_pos_bound; lia).
  rewrite land_255.
  destruct (nth_error (perm e) (Z.to_nat (ix mod 256))) as [a |]; simpl;
    [ | reflexivity ].
  rewrite py_getitem_nth by (rewrite land_255; apply Z.mod_pos_bound; lia).
  rewrite !land_255, Zplus_mod_idemp_r. reflexivity.
Qed.

Lemma hash_formula_defined (p : list Z) (ix iy : Z) :
  table_okb p = true ->
  exists h, hash_formula p ix iy = Some h /\ 0 <= h < 256.
Proof.
  intros Hok. destruct (table_okb_spec p Hok) as (Hlen & _ & Hperm & _).
  unfold hash_formula.
  assert (Hm : forall z, 0 <= z mod 256 < 256)
    by (intro z; apply Z.mod_pos_bound; lia).
  destruct (nth_error_in_range p (ix mod 256)) as [a Ha];
    [ specialize (Hm ix); lia | ].
  rewrite Ha.
  destruct (nth_error_in_range p ((a + iy) mod 256)) as [h Hh];
    [ specialize (Hm (a + iy)); lia | ].
  exists h. split; [ exact Hh | ].
  assert (Hin : In h (firstn 256 p)).
  { apply nth_error_In with (n := Z.to_nat ((a + iy) mod 256)).
    rewrite nth_error_firstn.
    destruct (Nat.ltb_spec (Z.to_nat ((a + iy) mod 256)) 256) as [_ | Hge];
      [ exact Hh | specialize (Hm (a + iy)); lia ]. }
  apply (Permutation_in _ (Permutation_sym Hperm)) in Hin.
  apply py_range_In in Hin. exact Hin.
Qed.

(** C3: for all integers [ix], [iy], negative ones included, the code's
    [perm[(perm[ix & 255] + (iy & 255)) & 255]] is
    [table[(table[ix mod 256] + iy) mod 256]] with the never-negative modulo,
    it assigns nothing, and on a table that satisfies the invariant the
    lookups succeed and the hash lies in 0..255. *)
Theorem perm_hash_formula (e : Engine) (ix iy : Z) :
  _perm_hash ix iy e = (outcome_of_lookup (hash_formula (perm e) ix iy), e)
  /\ 0 <= ix mod 256 < 256
  /\ (table_okb (perm e) = true ->
      exists h, hash_formula (perm e) ix iy = Some h
                /\ _perm_hash ix iy e = (Return h, e)
                /\ 0 <= h < 256).
Proof.
  split; [ apply perm_hash_eq | ].
  split; [ apply Z.mod_pos_bound; lia | ].
  intros Hok. destruct (hash_formula_defined (perm e) ix iy Hok) as [h [Hh Hr]].
  exists h. repeat split; try apply Hr; try exact Hh.
  rewrite perm_hash_eq, Hh. reflexivity.
Qed.

Lemma perm_hash_formula_witness :
  exists h, hash_formula (perm example_engine) (-3) (-7) = Some h
            /\ _perm_hash (-3) (-7) example_engine = (Return h, example_engine)
            /\ 0 <= h < 256.
Proof.
  destruct (perm_hash_formula example_engine (-3) (-7)) as (_ & _ & H).
  apply H. vm_compute. reflexivity.
Defined.

(** ** The permutation table *)

Section TableInvariant.

Variable shuffle : Z -> list Z -> list Z.
Hypothesis shuffle_perm : forall s l, Permutation l (shuffle s l).

(** C4: on every instance a program can reach (constructed for any seed,
    table rebuilt for any seed, any setters and evaluations in between) the
    table has 512 entries, each of 0..255 occurs exactly once among the first
    256, which are a rearrangement of 0..255, the last 256 repeat the first
    256, and no setter or evaluation changes the table. *)
Theorem perm_table_invariant (e : Engine) :
  reachable shuffle e ->
  length (perm e) = 512%nat
  /\ (forall v, 0 <= v < 256 -> count_occ Z.eq_dec (firstn 256 (perm e)) v = 1%nat)
  /\ Permutation (py_range 256) (firstn 256 (perm e))
  /\ skipn 256 (perm e) = firstn 256 (perm e)
  /\ (forall op, perm (perform op e) = perm e).
Proof.
  intros Hr.
  pose proof (reachable_engine_okb shuffle shuffle_perm e Hr) as Hok.
  apply engine_okb_table in Hok.
  destruct (table_okb_spec _ Hok) as (H1 & H2 & H3 & H4).
  repeat split; auto.
  intros op. apply perform_perm_grad2.
Qed.

End TableInvariant.

Lemma perm_table_invariant_witness :
  let e := perform (OpGetNoise (PyInt 3) (PyInt 4))
             (perform (OpSetFractalGain (PyFloat 0.25)) example_engine) in
  length (perm e) = 512%nat
  /\ (forall v, 0 <= v < 256 -> count_occ Z.eq_dec (firstn 256 (perm e)) v = 1%nat)
  /\ Permutation (py_range 256) (firstn 256 (perm e))
  /\ skipn 256 (perm e) = firstn 256 (perm e)
  /\ (forall op, perm (perform op e) = perm e).
Proof.
  apply (perm_table_invariant lcg_shuffle lcg_shuffle_perm).
  apply reach_perform. apply reach_perform. apply reach_init.
Defined.

(** ** The seed *)

(** C10: the constructor keeps the seed modulo 2^32 and builds the table
    from that: for every integer [s], negative or beyond 2^32 included,
    constructing with [s] and with [s mod 2^32] gives the same instance
    (same stored seed, same table), hence the same [get_noise]. *)
Theorem init_seed_mod_2_32 (shuffle : Z -> list Z -> list Z) (s : Z) :
  seed (__init__ shuffle s) = s mod 2 ^ 32
  /\ perm (__init__ shuffle s) =
     shuffle (s mod 2 ^ 32) (py_range 256) ++ shuffle (s mod 2 ^ 32) (py_range 256)
  /\ __init__ shuffle s = __init__ shuffle (s mod 2 ^ 32)
  /\ (forall x y, get_noise x y (__init__ shuffle s)
                  = get_noise x y (__init__ shuffle (s mod 2 ^ 32))).
Proof.
  assert (Heq : __init__ shuffle s = __init__ shuffle (s mod 2 ^ 32)).
  { unfold __init__. rewrite !land_mask32, Z.mod_mod by lia. reflexivity. }
  repeat split.
  - unfold __init__. rewrite land_mask32. reflexivity.
  - unfold __init__. rewrite land_mask32. reflexivity.
  - exact Heq.
  - intros x y. rewrite Heq. reflexivity.
Qed.

(** ** The noise kind *)

(** C6: whatever value [noise_type] holds, one of the six constants or any
    other integer, [get_noise] returns (or raises) exactly what it does with
    [TYPE_PERLIN], for all coordinates and parameters. *)
Theorem get_noise_any_type (e : Engine) (t : Z) (x y : PyNum) :
  fst (get_noise x y (set_noise_type_attr t e))
  = fst (get_noise x y (set_noise_type_attr TYPE_PERLIN e)).
Proof.
  apply get_noise_params. unfold same_params. simpl. repeat split; reflexivity.
Qed.

(** ** Determinism *)

(** C5: [get_noise] assigns no attribute, so a second call on the same
    coordinates returns what the first did; and its outcome is a function
    of the table, the gradients and the four parameters alone: two
    instances that agree on those (in particular two instances constructed
    from the same seed and given the same parameters) return the same. *)
Theorem get_noise_deterministic (e1 e2 : Engine) (x y : PyNum) :
  perm e1 = perm e2 -> grad2 e1 = grad2 e2 ->
  frequency e1 = frequency e2 -> octaves e1 = octaves e2 ->
  lacunarity e1 = lacunarity e2 -> gain e1 = gain e2 ->
  snd (get_noise x y e1) = e1
  /\ fst (get_noise x y (snd (get_noise x y e1))) = fst (get_noise x y e1)
  /\ fst (get_noise x y e1) = fst (get_noise x y e2).
Proof.
  intros Hp Hg Hf Ho Hl Hgn. split; [ apply get_noise_state | ].
  split.
  - rewrite get_noise_state. reflexivity.
  - apply get_noise_params. unfold same_params. auto 10.
Qed.

Lemma get_noise_deterministic_witness :
  let e1 := perform (OpSetFractalOctaves (PyInt 4)) (__init__ lcg_shuffle 42) in
  let e2 := perform (OpAssignNoiseType TYPE_CELLULAR)
              (perform (OpSetFractalOctaves (PyInt 4)) (__init__ lcg_shuffle (42 + 2 ^ 32))) in
  snd (get_noise (PyInt 5) (PyFloat 2.5) e1) = e1
  /\ fst (get_noise (PyInt 5) (PyFloat 2.5) (snd (get_noise (PyInt 5) (PyFloat 2.5) e1)))
     = fst (get_noise (PyInt 5) (PyFloat 2.5) e1)
  /\ fst (get_noise (PyInt 5) (PyFloat 2.5) e1) = fst (get_noise (PyInt 5) (PyFloat 2.5) e2).
Proof.
  apply get_noise_deterministic; vm_compute; reflexivity.
Defined.

(** ** Binary floating point: digits and canonical representations *)

Lemma digits2_pos_bounds (p : positive) :
  2 ^ (Zpos (digits2_pos p) - 1) <= Zpos p < 2 ^ Zpos (digits2_pos p).
Proof.
  induction p as [p IH | p IH |]; simpl digits2_pos.
  - rewrite Pos2Z.inj_succ.
    replace (Z.succ (Zpos (digits2_pos p)) - 1) with (Z.succ (Zpos (digits2_pos p) - 1)) by lia.
    rewrite !Z.pow_succ_r by lia. change (Zpos p~1) with (2 * Zpos p + 1). revert IH.
    generalize (2 ^ (Zpos (digits2_pos p) - 1)) (2 ^ Zpos (digits2_pos p)). lia.
  - rewrite Pos2Z.inj_succ.
    replace (Z.succ (Zpos (digits2_pos p)) - 1) with (Z.succ (Zpos (digits2_pos p) - 1)) by lia.
    rewrite !Z.pow_succ_r by lia. change (Zpos p~0) with (2 * Zpos p). revert IH.
    generalize (2 ^ (Zpos (digits2_pos p) - 1)) (2 ^ Zpos (digits2_pos p)). lia.
  - simpl. lia.
Qed.

Lemma pow2_pos (n : Z) : 0 <= n -> 0 < 2 ^ n.
Proof. intros H. apply Z.pow_pos_nonneg; lia. Qed.

Lemma pow2_le (a b : Z) : 0 <= a <= b -> 2 ^ a <= 2 ^ b.
Proof. intros H. apply Z.pow_le_mono_r; lia. Qed.

(** Fewer digits than the power: the number is below it, and conversely. *)
Lemma digits2_pos_le (p : positive) (n : Z) :
  Zpos (digits2_pos p) <= n -> Zpos p < 2 ^ n.
Proof.
  intros H. pose proof (digits2_pos_bounds p) as [_ Hu].
  apply Z.lt_le_trans with (1 := Hu). apply pow2_le. lia.
Qed.

Lemma digits2_pos_gt (p : positive) (n : Z) :
  0 <= n -> Zpos p < 2 ^ n -> Zpos (digits2_pos p) <= n.
Proof.
  intros Hn H. pose proof (digits2_pos_bounds p) as [Hl _].
  destruct (Z_le_gt_dec (Zpos (digits2_pos p)) n) as [Hle | Hgt]; [ exact Hle | ].
  assert (2 ^ n <= 2 ^ (Zpos (digits2_pos p) - 1)) by (apply pow2_le; lia).
  lia.
Qed.

Section Formats.

Variables prec emax : Z.
Hypothesis prec_pos : 0 < prec.

Local Abbreviation emin := (SpecFloat.emin prec emax).
Local Abbreviation fexp := (SpecFloat.fexp prec emax).

Lemma canonical_mantissa_canonical (m : positive) (e : Z) :
  canonical_mantissa prec emax m e = true -> canonical prec emax m e.
Proof.
  unfold canonical_mantissa, canonical, SpecFloat.fexp. intros H.
  apply Z.eqb_eq in H.
  pose proof (digits2_pos_bounds m) as [Hl Hu].
  destruct (Z.max_spec (Zpos (digits2_pos m) + e - prec) emin) as [[Hlt Hmax] | [Hge Hmax]];
    rewrite Hmax in H.
  - subst e. split; [ lia | ]. split; [ | left; reflexivity ].
    apply digits2_pos_le. lia.
  - assert (Hd : Zpos (digits2_pos m) = prec) by lia.
    rewrite Hd in Hl, Hu. split; [ lia | ]. split; [ exact Hu | right; exact Hl ].
Qed.

Lemma canonical_canonical_mantissa (m : positive) (e : Z) :
  canonical prec emax m e -> canonical_mantissa prec emax m e = true.
Proof.
  unfold canonical_mantissa, canonical, SpecFloat.fexp. intros (He & Hu & Hc).
  apply Z.eqb_eq.
  assert (Hd : Zpos (digits2_pos m) <= prec) by (apply digits2_pos_gt; lia).
  destruct Hc as [-> | Hl].
  - lia.
  - pose proof (digits2_pos_bounds m) as [_ Hu'].
    assert (prec <= Zpos (digits2_pos m)).
    { destruct (Z_le_gt_dec prec (Zpos (digits2_pos m))) as [? | Hgt]; [ assumption | ].
      assert (2 ^ Zpos (digits2_pos m) <= 2 ^ (prec - 1)) by (apply pow2_le; lia).
      lia. }
    lia.
Qed.

Lemma valid_finite (s : bool) (m : positive) (e : Z) :
  SpecFloat.valid_binary prec emax (S754_finite s m e) = true ->
  canonical prec emax m e /\ e <= emax - prec.
Proof.
  simpl. unfold bounded. intros H. apply andb_true_iff in H as [Hc He].
  split; [ apply canonical_mantissa_canonical; exact Hc | apply Z.leb_le; exact He ].
Qed.

End Formats.

Lemma Prim2SF_finite (f : float) (s : bool) (m : positive) (e : Z) :
  Prim2SF f = S754_finite s m e ->
  -1074 <= e <= 971 /\ Zpos m < 2 ^ 53 /\ (e = -1074 \/ 2 ^ 52 <= Zpos m).
Proof.
  intros H. pose proof (Prim2SF_valid f) as Hv. rewrite H in Hv.
  apply (valid_finite prec emax) in Hv; [ | reflexivity ].
  destruct Hv as [(He & Hu & Hc) Hm]. unfold SpecFloat.emin, prec, emax in *.
  repeat split; try lia; assumption.
Qed.

Lemma Prim2SF_one : Prim2SF 1%float = S754_finite false 4503599627370496 (-52).
Proof. vm_compute. reflexivity. Qed.

Lemma Prim2SF_neg_one : Prim2SF (-1)%float = S754_finite true 4503599627370496 (-52).
Proof. vm_compute. reflexivity. Qed.

Lemma Prim2SF_zero : Prim2SF 0%float = S754_zero false.
Proof. vm_compute. reflexivity. Qed.

(** ** The octave count *)

(** [int] of a float that is at least one: an integer that is at least one,
    or the error of an infinity. *)
Lemma int_of_float_ge_1 (f : float) :
  (1 <=? f)%float = true ->
  (exists z, int_of_float f = Return z /\ 1 <= z)
  \/ (f = infinity /\ int_of_float f = Raise OverflowError).
Proof.
  intros H. rewrite leb_spec, Prim2SF_one in H. unfold int_of_float.
  destruct (Prim2SF f) as [s | s | | s m e] eqn:Hf; simpl in H; try discriminate.
  - destruct s; try discriminate. right. split; [ | reflexivity ].
    apply Prim2SF_inj. rewrite Hf. vm_compute. reflexivity.
  - left. destruct s; [ discriminate | ]. simpl.
    eexists. split; [ reflexivity | ].
    destruct (Prim2SF_finite f false m e Hf) as (He & Hu & Hc).
    unfold SFleb, SFcompare in H.
    destruct (Z.compare_spec (-52) e) as [Heq | Hlt | Hgt]; try discriminate.
    + subst e. change (Z.shiftl (Zpos m) (-52)) with (Z.shiftr (Zpos m) 52).
      rewrite Z.shiftr_div_pow2 by lia.
      change (Pos.compare_cont Eq 4503599627370496 m)
        with (4503599627370496 ?= m)%positive in H.
      apply Z.div_le_lower_bound; [ reflexivity | ].
      change (2 ^ 52) with 4503599627370496.
      destruct (Pos.compare_spec 4503599627370496 m) as [Hm | Hm | Hm];
        try discriminate; lia.
    + destruct Hc as [-> | Hl]; [ lia | ].
      destruct (Z_le_gt_dec 0 e) as [Hpos | Hneg].
      * rewrite Z.shiftl_mul_pow2 by lia. pose proof (pow2_pos e Hpos). nia.
      * replace e with (- (- e)) by lia.
        rewrite Z.shiftl_opp_r, Z.shiftr_div_pow2 by lia.
        apply Z.div_le_lower_bound; [ apply pow2_pos; lia | ].
        assert (2 ^ (- e) <= 2 ^ 52) by (apply pow2_le; lia). lia.
Qed.

(** Comparisons of floats, on their specification. *)
Lemma SFcompare_antisym (x y : spec_float) :
  SFcompare y x = option_map CompOpp (SFcompare x y).
Proof.
  destruct x as [sx | sx | | sx mx ex], y as [sy | sy | | sy my ey];
    try reflexivity;
    try (destruct sx; reflexivity);
    try (destruct sy; reflexivity);
    try (destruct sx, sy; reflexivity).
  unfold SFcompare, option_map. f_equal.
  pose proof (Pos.compare_cont_antisym mx my Eq) as A. simpl in A.
  rewrite (Z.compare_antisym ex ey), <- A.
  destruct sx, sy, (ex ?= ey); try reflexivity;
    destruct (Pos.compare_cont Eq mx my); reflexivity.
Qed.

Lemma SFltb_not_SFleb (x y : spec_float) : SFltb x y = true -> SFleb y x = false.
Proof.
  unfold SFltb, SFleb. rewrite (SFcompare_antisym x y).
  destruct (SFcompare x y) as [[ | | ] |]; simpl; congruence.
Qed.

(** Two numbers that are not NaN are comparable. *)
Lemma SFltb_false_SFleb (x y : spec_float) :
  x <> S754_nan -> y <> S754_nan -> SFltb x y = false -> SFleb y x = true.
Proof.
  intros Hx Hy. unfold SFltb, SFleb. rewrite (SFcompare_antisym x y).
  destruct x, y; try congruence; simpl;
    try (destruct s; simpl; congruence);
    try (destruct s0; simpl; congruence);
    try (destruct s, s0; simpl; congruence).
  destruct (match s with true => _ | false => _ end) ; simpl; congruence.
Qed.

(** A float below one fails the test [octaves >= 1]. *)
Lemma float_lt_1_not_ge (f : float) : (f <? 1)%float = true -> (1 <=? f)%float = false.
Proof. rewrite ltb_spec, leb_spec. apply SFltb_not_SFleb. Qed.

Lemma SFcompare_refl_finite (s : bool) (m : positive) (e : Z) :
  SFcompare (S754_finite s m e) (S754_finite s m e) = Some Eq.
Proof.
  unfold SFcompare. rewrite Z.compare_refl, Pos.compare_cont_refl.
  destruct s; reflexivity.
Qed.

Lemma is_nan_spec (f : float) : is_nan f = true <-> Prim2SF f = S754_nan.
Proof.
  unfold is_nan. rewrite eqb_spec. unfold SFeqb.
  destruct (Prim2SF f) as [s | s | | s m e].
  - split; discriminate.
  - destruct s; split; discriminate.
  - split; reflexivity.
  - rewrite SFcompare_refl_finite. split; discriminate.
Qed.

Lemma is_nan_not_ge_1 (f : float) : is_nan f = true -> (1 <=? f)%float = false.
Proof.
  intros H. apply is_nan_spec in H. rewrite leb_spec, H. reflexivity.
Qed.

(** What [set_fractal_octaves] does, argument by argument, on an instance
    whose stored count is at least 1. *)
Lemma set_fractal_octaves_cases (e : Engine) (v : PyNum) :
  1 <= octaves e ->
  1 <= octaves (snd (set_fractal_octaves v e))
  /\ (fst (set_fractal_octaves v e) = Return tt
      \/ (v = PyFloat infinity /\ set_fractal_octaves v e = (Raise OverflowError, e)))
  /\ (forall n, v = PyInt n ->
        set_fractal_octaves v e = (Return tt, set_octaves_attr (Z.max 1 n) e))
  /\ (forall n, v = PyInt n -> n <= 0 -> octaves (snd (set_fractal_octaves v e)) = 1)
  /\ (forall f, v = PyFloat f -> (f <? 1)%float = true \/ is_nan f = true ->
        set_fractal_octaves v e = (Return tt, set_octaves_attr 1 e)).
Proof.
  intros Hinv. destruct v as [n | f].
  - assert (Hint : set_fractal_octaves (PyInt n) e
                   = (Return tt, set_octaves_attr (Z.max 1 n) e)).
    { unfold set_fractal_octaves, bind, lift, put, ret, py_ge_1, py_int.
      destruct (Z.leb_spec 1 n); do 2 f_equal; lia. }
    rewrite Hint. cbn [fst snd octaves set_octaves_attr].
    split; [ lia | ]. split; [ left; reflexivity | ].
    split; [ intros n' Hn'; injection Hn' as <-; reflexivity | ].
    split; [ intros n' Hn' Hle; injection Hn' as <-; lia | ].
    intros f Hf. discriminate Hf.
  - assert (Hlow : (f <? 1)%float = true \/ is_nan f = true ->
              set_fractal_octaves (PyFloat f) e = (Return tt, set_octaves_attr 1 e)).
    { intros Hf. unfold set_fractal_octaves, bind, lift, put, ret, py_ge_1.
      assert (Hge : (1 <=? f)%float = false)
        by (destruct Hf; [ apply float_lt_1_not_ge | apply is_nan_not_ge_1 ]; assumption).
      rewrite Hge. reflexivity. }
    assert (Hcases :
      (exists z, 1 <= z /\ set_fractal_octaves (PyFloat f) e
                           = (Return tt, set_octaves_attr z e))
      \/ (f = infinity /\ set_fractal_octaves (PyFloat f) e = (Raise OverflowError, e))).
    { unfold set_fractal_octaves, bind, lift, put, ret, py_ge_1, py_int.
      destruct (1 <=? f)%float eqn:Hge.
      - destruct (int_of_float_ge_1 f Hge) as [[z [Hz Hz1]] | [Hinf Hr]].
        + left. exists z. rewrite Hz. split; [ exact Hz1 | reflexivity ].
        + right. rewrite Hr. split; [ exact Hinf | reflexivity ].
      - left. exists 1. split; [ lia | reflexivity ]. }
    split; [ | split; [ | split; [ | split ] ] ].
    + destruct Hcases as [[z [Hz ->]] | [_ ->]]; cbn [snd octaves set_octaves_attr]; lia.
    + destruct Hcases as [[z [Hz ->]] | [-> ->]]; [ left | right; split ]; reflexivity.
    + intros n Hn. discriminate Hn.
    + intros n Hn. discriminate Hn.
    + intros f' Hf' Hf. injection Hf' as <-. apply Hlow. exact Hf.
Qed.

Lemma perform_octaves (op : operation) (e : Engine) :
  1 <= octaves e -> 1 <= octaves (perform op e).
Proof.
  intros H. destruct op; simpl.
  - unfold set_frequency, bind, lift, put. destruct (py_float v); exact H.
  - apply (set_fractal_octaves_cases e v H).
  - unfold set_fractal_lacunarity, bind, lift, put. destruct (py_float v); exact H.
  - unfold set_fractal_gain, bind, lift, put. destruct (py_float v); exact H.
  - exact H.
  - rewrite get_noise_state. exact H.
  - unfold __call__. rewrite get_noise_state. exact H.
  - rewrite (proj1 (reader_perlin_fractal x y)). exact H.
  - rewrite (proj1 (reader_perlin2 x y)). exact H.
  - rewrite (proj1 (reader_perm_hash ix iy)). exact H.
  - rewrite (proj1 (reader_grad hash_val x y)). exact H.
Qed.

Lemma reachable_octaves (shuffle : Z -> list Z -> list Z) (e : Engine) :
  reachable shuffle e -> 1 <= octaves e.
Proof.
  induction 1 as [s | e s _ IH | e op _ IH].
  - simpl. lia.
  - simpl. exact IH.
  - apply perform_octaves. exact IH.
Qed.

(** C7: on every instance a program can reach, whatever the argument of
    [set_fractal_octaves], an [int] or a [float], the stored octave count is
    at least 1 afterwards: an [int] [n] stores [max 1 n]; zero, a negative
    number, a float below one and NaN store exactly 1; a float from one on
    stores its integer part; the one argument that makes the setter raise,
    the float [inf], leaves the stored count as it was. *)
Theorem set_fractal_octaves_at_least_1
  (shuffle : Z -> list Z -> list Z) (e : Engine) (v : PyNum) :
  reachable shuffle e ->
  1 <= octaves (snd (set_fractal_octaves v e))
  /\ (fst (set_fractal_octaves v e) = Return tt
      \/ (v = PyFloat infinity /\ set_fractal_octaves v e = (Raise OverflowError, e)))
  /\ (forall n, v = PyInt n ->
        set_fractal_octaves v e = (Return tt, set_octaves_attr (Z.max 1 n) e))
  /\ (forall n, v = PyInt n -> n <= 0 -> octaves (snd (set_fractal_octaves v e)) = 1)
  /\ (forall f, v = PyFloat f -> (f <? 1)%float = true \/ is_nan f = true ->
        set_fractal_octaves v e = (Return tt, set_octaves_attr 1 e)).
Proof.
  intros Hr. apply set_fractal_octaves_cases.
  apply (reachable_octaves shuffle). exact Hr.
Qed.

Lemma set_fractal_octaves_at_least_1_witness :
  1 <= octaves (snd (set_fractal_octaves (PyInt (-5)) example_engine))
  /\ (fst (set_fractal_octaves (PyInt (-5)) example_engine) = Return tt
      \/ (PyInt (-5) = PyFloat infinity
          /\ set_fractal_octaves (PyInt (-5)) example_engine
             = (Raise OverflowError, example_engine)))
  /\ (forall n, PyInt (-5) = PyInt n ->
        set_fractal_octaves (PyInt (-5)) example_engine
        = (Return tt, set_octaves_attr (Z.max 1 n) example_engine))
  /\ (forall n, PyInt (-5) = PyInt n -> n <= 0 ->
        octaves (snd (set_fractal_octaves (PyInt (-5)) example_engine)) = 1)
  /\ (forall f, PyInt (-5) = PyFloat f -> (f <? 1)%float = true \/ is_nan f = true ->
        set_fractal_octaves (PyInt (-5)) example_engine
        = (Return tt, set_octaves_attr 1 example_engine)).
Proof.
  apply (set_fractal_octaves_at_least_1 lcg_shuffle example_engine (PyInt (-5))).
  apply reach_init.
Defined.

(** ** Multiplication commutes *)

Lemma SFmul_comm (x y : spec_float) : SFmul prec emax x y = SFmul prec emax y x.
Proof.
  destruct x as [sx | sx | | sx mx ex], y as [sy | sy | | sy my ey];
    unfold SFmul; try reflexivity; try (rewrite (xorb_comm sx sy); reflexivity).
  rewrite (xorb_comm sx sy), (Pos.mul_comm mx my), (Z.add_comm ex ey). reflexivity.
Qed.

Lemma float_mul_comm (a b : float) : (a * b)%float = (b * a)%float.
Proof. apply Prim2SF_inj. rewrite !mul_spec. apply SFmul_comm. Qed.

(** ** The clamp *)

Lemma is_nan_false_spec (f : float) : is_nan f = false <-> Prim2SF f <> S754_nan.
Proof.
  rewrite <- is_nan_spec. destruct (is_nan f); split; congruence.
Qed.

Lemma ltb_nan_r (a v : float) : is_nan v = true -> (a <? v)%float = false.
Proof.
  intros H. apply is_nan_spec in H. rewrite ltb_spec, H.
  destruct (Prim2SF a); reflexivity.
Qed.

Lemma ltb_nan_l (a v : float) : is_nan v = true -> (v <? a)%float = false.
Proof.
  intros H. apply is_nan_spec in H. rewrite ltb_spec, H. reflexivity.
Qed.

Lemma clamp_nan (v : float) : is_nan v = true -> clamp v = v.
Proof.
  intros H. unfold clamp.
  rewrite (ltb_nan_r 1.0 v H), (ltb_nan_l (-1.0) v H). reflexivity.
Qed.

Lemma clamp_in_unit_range (v : float) :
  is_nan v = false -> in_unit_range (clamp v) = true.
Proof.
  intros Hn. apply is_nan_false_spec in Hn. unfold clamp.
  destruct (1.0 <? v)%float eqn:H1.
  - vm_compute. reflexivity.
  - destruct (v <? -1.0)%float eqn:H2.
    + vm_compute. reflexivity.
    + unfold in_unit_range. rewrite ltb_spec in H1, H2. rewrite !leb_spec.
      apply andb_true_iff. split.
      * apply SFltb_false_SFleb; [ exact Hn | | exact H2 ].
        rewrite Prim2SF_neg_one. discriminate.
      * apply SFltb_false_SFleb; [ | exact Hn | exact H1 ].
        rewrite Prim2SF_one. discriminate.
Qed.

(** ** The octave loop and the sums *)

Lemma perlin2_run (e : Engine) (x y : float) :
  _perlin2 x y e = (perlin2 e x y, e).
Proof.
  unfold perlin2. rewrite (surjective_pairing (_perlin2 x y e)) at 1.
  rewrite (proj1 (reader_perlin2 x y) e). reflexivity.
Qed.

Lemma weighted_sum_raise (e : Engine) (x y : float) (i n : nat) (err : exn) :
  weighted_sum e x y i = Raise err -> weighted_sum e x y (n + i) = Raise err.
Proof.
  intros H. induction n as [| n IH]; simpl; [ exact H | ].
  rewrite IH. reflexivity.
Qed.

Lemma octave_step_spec (e : Engine) (x y : float) (t : float) (i : nat) :
  weighted_sum e x y i = Return t ->
  octave_step x y (acc_after e t i) e =
  (match weighted_sum e x y (S i) with
   | Return t' => Return (acc_after e t' (S i))
   | Raise err => Raise err
   end, e).
Proof.
  intros Hw. unfold octave_step, bind, get, ret. simpl. rewrite Hw.
  rewrite perlin2_run.
  destruct (perlin2 e (x * fpow (lacunarity e) i) (y * fpow (lacunarity e) i))
    as [v | err]; [ | reflexivity ].
  unfold acc_after. rewrite (float_mul_comm v (fpow (gain e) i)). reflexivity.
Qed.

Lemma octave_loop_spec (e : Engine) (x y : float) (n : nat) :
  forall (i : nat) (t : float),
  weighted_sum e x y i = Return t ->
  octave_loop n x y (acc_after e t i) e =
  (match weighted_sum e x y (n + i) with
   | Return t' => Return (acc_after e t' (n + i))
   | Raise err => Raise err
   end, e).
Proof.
  induction n as [| n IH]; intros i t Hw.
  - simpl. rewrite Hw. reflexivity.
  - cbn [octave_loop]. unfold bind. rewrite (octave_step_spec e x y t i Hw).
    replace (S n + i)%nat with (n + S i)%nat by lia.
    destruct (weighted_sum e x y (S i)) as [t' | err] eqn:Hs.
    + apply IH. exact Hs.
    + rewrite (weighted_sum_raise e x y (S i) n err Hs). reflexivity.
Qed.

Lemma perlin_fractal_guarded (e : Engine) (x y : float) :
  _perlin_fractal x y e = (fractal_guarded e x y (Z.to_nat (octaves e)), e).
Proof.
  unfold _perlin_fractal, bind, get.
  change (mkAcc 0.0 1.0 1.0 0.0)%float with (acc_after e 0.0%float 0).
  rewrite (octave_loop_spec e x y (Z.to_nat (octaves e)) 0 0.0%float eq_refl).
  rewrite Nat.add_0_r. unfold fractal_guarded.
  destruct (weighted_sum e x y (Z.to_nat (octaves e))) as [t | err]; [ | reflexivity ].
  cbn [max_ampl total acc_after]. unfold py_div, lift, ret.
  destruct (amplitude_sum (gain e) (Z.to_nat (octaves e)) =? 0)%float; reflexivity.
Qed.

(** C2, as the code has it: the fractal evaluation is the quotient of the sum
    over [i] in [0, n) of [gain^i * perlin2(x * lacunarity^i, y * lacunarity^i)]
    by the sum of the [gain^i] when that sum of amplitudes is not zero, and
    [0.0] when it is zero; an error of an octave is the error of the
    evaluation; nothing is assigned. *)
Theorem perlin_fractal_formula (e : Engine) (x y : float) :
  let n := Z.to_nat (octaves e) in
  fst (_perlin_fractal x y e) = fractal_guarded e x y n
  /\ snd (_perlin_fractal x y e) = e
  /\ ((amplitude_sum (gain e) n =? 0)%float = false ->
      fst (_perlin_fractal x y e) = fractal_quotient e x y n)
  /\ ((amplitude_sum (gain e) n =? 0)%float = true ->
      forall t, weighted_sum e x y n = Return t ->
      fst (_perlin_fractal x y e) = Return 0.0%float).
Proof.
  intros n. rewrite perlin_fractal_guarded. fold n. cbn [fst snd].
  split; [ reflexivity | ]. split; [ reflexivity | ].
  unfold fractal_guarded, fractal_quotient. split.
  - intros H. rewrite H. reflexivity.
  - intros H t Ht. rewrite Ht, H. reflexivity.
Qed.

(** With gain -1 and two octaves the amplitudes add up to zero: the code
    returns [0.0] at the origin, the quotient of the two sums is [0.0 / 0.0]. *)
Lemma perlin_fractal_zero_denominator :
  octaves alternating_engine = 2
  /\ gain alternating_engine = (-1.0)%float
  /\ amplitude_sum (gain alternating_engine) 2 = 0.0%float
  /\ fst (_perlin_fractal 0.0 0.0 alternating_engine) = Return 0.0%float
  /\ fractal_quotient alternating_engine 0.0 0.0 2 = Return nan
  /\ PrimFloat.Leibniz.eqb 0.0 nan = false.
Proof. vm_compute. repeat split; reflexivity. Qed.

(** With gain 1e200 the amplitude of the third octave is infinite and the
    noise at the origin is zero: their product is NaN, which the clamp lets
    through. *)
Lemma get_noise_nan :
  gain huge_gain_engine = 1e200%float
  /\ octaves huge_gain_engine = 3
  /\ fst (get_noise (PyFloat 0.0) (PyFloat 0.0) huge_gain_engine) = Return nan
  /\ in_unit_range nan = false.
Proof. vm_compute. repeat split; reflexivity. Qed.

(** ** Rounding: the shifts of [SpecFloat] *)

Lemma shr_inv_start (X : Z) : shr_inv X 0 (Build_shr_record X false false).
Proof.
  split; simpl.
  - rewrite Z.div_1_r. reflexivity.
  - auto.
Qed.

Lemma shr_1_m (r : shr_record) : 0 <= shr_m r -> shr_m (shr_1 r) = shr_m r / 2.
Proof.
  destruct r as [m rr ss]. simpl. intros Hm.
  destruct m as [| [p | p |] | p]; try lia; simpl shr_m.
  - reflexivity.
  - change (Zpos p~1) with (2 * Zpos p + 1).
    apply Z.div_unique with (r := 1); lia.
  - change (Zpos p~0) with (2 * Zpos p).
    apply Z.div_unique with (r := 0); lia.
  - reflexivity.
Qed.

Lemma shr_1_flags (r : shr_record) :
  0 <= shr_m r -> shr_m r mod 2 = 0 -> shr_r r = false -> shr_s r = false ->
  shr_r (shr_1 r) = false /\ shr_s (shr_1 r) = false.
Proof.
  destruct r as [m rr ss]. simpl. intros Hm Hev -> ->.
  destruct m as [| [p | p |] | p]; try lia; simpl; auto.
  - change (Zpos p~1) with (2 * Zpos p + 1) in Hev.
    rewrite Z.add_comm, Z.mul_comm, Z.mod_add in Hev by lia. discriminate.
  - discriminate.
Qed.

Lemma shr_1_inv (X j : Z) (r : shr_record) :
  0 <= X -> 0 <= j -> shr_inv X j r -> shr_inv X (j + 1) (shr_1 r).
Proof.
  intros HX Hj [Hm Hf].
  assert (Hp : 0 < 2 ^ j) by (apply pow2_pos; exact Hj).
  assert (Hm0 : 0 <= shr_m r) by (rewrite Hm; apply Z.div_pos; lia).
  assert (Hpow : 2 ^ (j + 1) = 2 ^ j * 2) by (rewrite Z.pow_add_r by lia; reflexivity).
  split.
  - rewrite shr_1_m by exact Hm0. rewrite Hm, Hpow, Z.div_div by lia. reflexivity.
  - intros Hmod. rewrite Hpow in Hmod.
    apply Z.mod_divide in Hmod; [ | lia ]. destruct Hmod as [c Hc].
    assert (HXj : X mod 2 ^ j = 0).
    { apply Z.mod_divide; [ lia | ]. exists (c * 2). lia. }
    destruct (Hf HXj) as [Hr Hs].
    apply shr_1_flags; auto.
    rewrite Hm. replace X with ((c * 2) * 2 ^ j) by lia.
    rewrite Z.div_mul by lia. apply Z.mod_mul. lia.
Qed.

Lemma iter_pos_shr_inv (X : Z) (p : positive) :
  0 <= X -> forall (j : Z) (r : shr_record),
  0 <= j -> shr_inv X j r -> shr_inv X (j + Zpos p) (iter_pos shr_1 p r).
Proof.
  intros HX. induction p as [p IH | p IH |]; intros j r Hj Hr; simpl iter_pos.
  - replace (j + Zpos p~1) with (((j + 1) + Zpos p) + Zpos p) by lia.
    apply IH; [ lia | ]. apply IH; [ lia | ]. apply shr_1_inv; assumption.
  - replace (j + Zpos p~0) with ((j + Zpos p) + Zpos p) by lia.
    apply IH; [ lia | ]. apply IH; assumption.
  - apply shr_1_inv; assumption.
Qed.

(** [shr] by [n] bits from an exact record. *)
Lemma shr_exact_inv (X e n : Z) :
  0 <= X ->
  shr_inv X (Z.max 0 n) (fst (shr (Build_shr_record X false false) e n))
  /\ snd (shr (Build_shr_record X false false) e n) = e + Z.max 0 n.
Proof.
  intros HX. unfold shr. destruct n as [| p | p]; simpl fst; simpl snd.
  - split; [ apply shr_inv_start | simpl; lia ].
  - replace (Z.max 0 (Zpos p)) with (0 + Zpos p) by lia. split.
    + apply iter_pos_shr_inv; [ exact HX | lia | apply shr_inv_start ].
    + lia.
  - replace (Z.max 0 (Zneg p)) with 0 by lia.
    split; [ apply shr_inv_start | lia ].
Qed.

(** Rounding to nearest even adds one at most, and nothing to an exact
    record. *)
Lemma round_nearest_even_cases (r : shr_record) :
  round_nearest_even (shr_m r) (loc_of_shr_record r) = shr_m r
  \/ (round_nearest_even (shr_m r) (loc_of_shr_record r) = shr_m r + 1
      /\ (shr_r r = true \/ shr_s r = true)).
Proof.
  destruct r as [m [|] [|]]; simpl; auto.
  destruct (Z.even m); auto.
Qed.

Section Rounding.

Variables prec emax : Z.
Hypothesis prec_pos : 0 < prec.

Local Abbreviation emin := (SpecFloat.emin prec emax).
Local Abbreviation fexp := (SpecFloat.fexp prec emax).

Lemma fexp_ge_emin (z : Z) : emin <= fexp z.
Proof. unfold SpecFloat.fexp. lia. Qed.

Lemma fexp_small (z e : Z) : emin <= e -> z <= prec -> fexp (z + e) <= e.
Proof. unfold SpecFloat.fexp. lia. Qed.

(** What [binary_round_aux] returns on an exact positive mantissa whose
    exponent is not above its canonical one: a zero, or the canonical pair
    [(m2, e2)] (an infinity when [e2] is out of range), which stays below every
    canonical pair that the argument is below. *)
Lemma binary_round_aux_bound (sx : bool) (m : positive) (e : Z) :
  e <= fexp (Zpos (digits2_pos m) + e) ->
  binary_round_aux prec emax sx (Zpos m) e loc_Exact = S754_zero sx
  \/ exists (m2 : positive) (e2 : Z),
       binary_round_aux prec emax sx (Zpos m) e loc_Exact
       = (if e2 <=? emax - prec then S754_finite sx m2 e2 else S754_infinity sx)
       /\ canonical prec emax m2 e2
       /\ e <= e2
       /\ (forall (M : positive) (E : Z),
             canonical prec emax M E ->
             Zpos m <= Zpos M * 2 ^ (E - e) ->
             e2 <= E /\ Zpos m2 <= Zpos M * 2 ^ (E - e2)).
Proof.
  intros HP.
  pose proof (digits2_pos_bounds m) as [Hdl Hdu].
  set (d := Zpos (digits2_pos m)) in *.
  set (e1 := fexp (d + e)) in *.
  assert (He1min : emin <= e1) by apply fexp_ge_emin.
  assert (He1d : d + e - prec <= e1) by (unfold e1, SpecFloat.fexp; lia).
  assert (He1c : e1 = emin \/ e1 = d + e - prec) by (unfold e1, SpecFloat.fexp; lia).
  set (n1 := e1 - e).
  assert (Hn1 : 0 <= n1) by (unfold n1; lia).
  remember (binary_round_aux prec emax sx (Zpos m) e loc_Exact) as R eqn:HR.
  unfold binary_round_aux in HR.
  unfold shr_fexp at 1 in HR. simpl Zdigits2 in HR. simpl shr_record_of_loc in HR.
  fold d in HR. fold e1 in HR. fold n1 in HR.
  destruct (shr_exact_inv (Zpos m) e n1 ltac:(lia)) as [[Hm1 Hfl] He'].
  rewrite (Z.max_r 0 n1) in Hm1, Hfl, He' by lia.
  destruct (shr (Build_shr_record (Zpos m) false false) e n1) as [r1 e'] eqn:Hshr.
  simpl fst in Hm1, Hfl. simpl snd in He'. cbv iota beta in HR.
  assert (He'1 : e' = e1) by (unfold n1 in He'; lia). clear He'. subst e'.
  assert (Hp1 : 0 < 2 ^ n1) by (apply pow2_pos; lia).
  set (m1 := shr_m r1) in *.
  assert (Hm1pos : 0 <= m1) by (rewrite Hm1; apply Z.div_pos; lia).
  assert (Hm1up : m1 < 2 ^ prec).
  { rewrite Hm1. apply Z.div_lt_upper_bound; [ lia | ].
    rewrite <- Z.pow_add_r by lia.
    apply Z.lt_le_trans with (1 := Hdu). apply pow2_le. unfold n1. lia. }
  assert (Hm1low : e1 = emin \/ 2 ^ (prec - 1) <= m1).
  { destruct (Z.eq_dec e1 emin) as [Heq | Hne]; [ left; exact Heq | right ].
    rewrite Hm1. apply Z.div_le_lower_bound; [ lia | ].
    rewrite <- Z.pow_add_r by lia.
    replace (n1 + (prec - 1)) with (d - 1) by (unfold n1; lia). exact Hdl. }
  set (m1' := round_nearest_even m1 (loc_of_shr_record r1)) in *.
  assert (Hrne : m1' = m1 \/ (m1' = m1 + 1 /\ Zpos m mod 2 ^ n1 <> 0)).
  { destruct (round_nearest_even_cases r1) as [H | [H Hflag]]; [ left; exact H | right ].
    split; [ exact H | ]. intros Hmod. destruct (Hfl Hmod) as [Hr Hs].
    destruct Hflag; congruence. }
  assert (Hm1'up : m1' <= 2 ^ prec) by (destruct Hrne as [-> | [-> _]]; lia).
  assert (Hm1'low : m1 <= m1') by (destruct Hrne as [-> | [-> _]]; lia).
  (* the bound, at the exponent of the first shift *)
  assert (Hbound : forall (M : positive) (E : Z),
             canonical prec emax M E ->
             Zpos m <= Zpos M * 2 ^ (E - e) ->
             e1 <= E /\ m1' <= Zpos M * 2 ^ (E - e1)).
  { intros M E (HEmin & HMup & _) Hle.
    assert (HEe : e <= E).
    { destruct (Z_le_gt_dec e E) as [? | Hgt]; [ assumption | ].
      rewrite Z.pow_neg_r in Hle by lia. lia. }
    assert (Hpe : 0 < 2 ^ (E - e)) by (apply pow2_pos; lia).
    assert (He1E : e1 <= E).
    { destruct He1c as [-> | ->]; [ exact HEmin | ].
      destruct (Z_le_gt_dec (d + e - prec) E) as [? | Hgt]; [ assumption | ].
      assert (2 ^ (prec + (E - e)) <= 2 ^ (d - 1)) by (apply pow2_le; lia).
      rewrite Z.pow_add_r in H by lia. nia. }
    split; [ exact He1E | ].
    assert (Hsplit : 2 ^ (E - e) = 2 ^ (E - e1) * 2 ^ n1).
    { rewrite <- Z.pow_add_r by lia. f_equal. unfold n1. lia. }
    rewrite Hsplit, Z.mul_assoc in Hle.
    set (B := Zpos M * 2 ^ (E - e1)) in *.
    assert (Hm1B : m1 <= B).
    { rewrite Hm1. apply Z.div_le_upper_bound; [ lia | ]. lia. }
    destruct Hrne as [-> | [-> Hinex]]; [ exact Hm1B | ].
    assert (Hlt : Zpos m < B * 2 ^ n1).
    { destruct (Z.eq_dec (Zpos m) (B * 2 ^ n1)) as [Heq | Hne]; [ | lia ].
      exfalso. apply Hinex. rewrite Heq. apply Z.mod_mul. lia. }
    assert (m1 < B); [ | lia ].
    rewrite Hm1. apply Z.div_lt_upper_bound; lia. }
  (* the second shift *)
  destruct (Z.eq_dec m1' 0) as [Hz | Hnz].
  - left. rewrite HR, Hz. unfold shr_fexp. simpl Zdigits2. simpl shr_record_of_loc.
    assert (Hn2 : fexp (0 + e1) - e1 <= 0) by (unfold SpecFloat.fexp; lia).
    unfold shr. destruct (fexp (0 + e1) - e1); try lia; reflexivity.
  - right.
    destruct (Z.eq_dec m1' (2 ^ prec)) as [Hcarry | Hnc].
    + (* the mantissa overflowed to 2^prec: one more shift *)
      assert (Hpp : 2 ^ prec = 2 ^ (prec - 1) * 2).
      { replace (2 ^ prec) with (2 ^ (Z.succ (prec - 1))) by (f_equal; lia).
        rewrite Z.pow_succ_r by lia. lia. }
      assert (Hhalf : 0 < 2 ^ (prec - 1)) by (apply pow2_pos; lia).
      destruct (2 ^ (prec - 1)) as [| h | h] eqn:Hh; try lia.
      exists h, (e1 + 1).
      rewrite HR, Hcarry. unfold shr_fexp. simpl shr_record_of_loc.
      assert (Hdig : Zdigits2 (2 ^ prec) = prec + 1).
      { rewrite Hpp. change (Zpos h * 2) with (Zpos h * 2).
        rewrite Z.mul_comm. change (2 * Zpos h) with (Zpos h~0).
        simpl Zdigits2. rewrite Pos2Z.inj_succ.
        pose proof (digits2_pos_bounds h) as [Hl Hu].
        assert (Zpos (digits2_pos h) <= prec).
        { apply digits2_pos_gt; [ lia | ]. rewrite Hpp. lia. }
        assert (prec <= Zpos (digits2_pos h)).
        { destruct (Z_le_gt_dec prec (Zpos (digits2_pos h))) as [? | Hgt]; [ assumption | ].
          assert (2 ^ Zpos (digits2_pos h) <= 2 ^ (prec - 1)) by (apply pow2_le; lia).
          lia. }
        lia. }
      rewrite Hdig.
      assert (Hn2 : fexp (prec + 1 + e1) - e1 = 1) by (unfold SpecFloat.fexp; lia).
      rewrite Hn2. unfold shr. simpl iter_pos.
      rewrite Hpp. rewrite Z.mul_comm. change (2 * Zpos h) with (Zpos h~0).
      simpl shr_1. simpl shr_m.
      split; [ reflexivity | ].
      split; [ unfold canonical; rewrite Hh; repeat split; try lia | ].
      split; [ unfold n1 in Hn1; lia | ].
      intros M E HME Hle. destruct (Hbound M E HME Hle) as [He1E HmB].
      destruct HME as (HEmin & HMup & _).
      rewrite Hcarry in HmB.
      assert (HE : e1 + 1 <= E).
      { destruct (Z.eq_dec e1 E) as [Heq | Hne]; [ | lia ].
        subst E. rewrite Z.sub_diag in HmB. simpl in HmB. lia. }
      split; [ exact HE | ].
      replace (E - e1) with (Z.succ (E - (e1 + 1))) in HmB by lia.
      rewrite Z.pow_succ_r in HmB by lia. lia.
    + (* no further shift *)
      assert (Hm1'pos : 0 < m1') by lia.
      destruct m1' as [| q | q] eqn:Hq; try lia.
      exists q, e1. rewrite HR.
      assert (Hdq : Zpos (digits2_pos q) <= prec) by (apply digits2_pos_gt; lia).
      unfold shr_fexp. simpl Zdigits2. simpl shr_record_of_loc.
      assert (Hn2 : fexp (Zpos (digits2_pos q) + e1) - e1 <= 0)
        by (pose proof (fexp_small (Zpos (digits2_pos q)) e1 He1min Hdq); lia).
      assert (Hcan : canonical prec emax q e1).
      { unfold canonical. split; [ exact He1min | ]. split; [ lia | ].
        destruct Hm1low as [? | ?]; [ left; assumption | right; lia ]. }
      assert (Hshr2 : shr (Build_shr_record (Zpos q) false false) e1
                          (fexp (Zpos (digits2_pos q) + e1) - e1)
                      = (Build_shr_record (Zpos q) false false, e1)).
      { unfold shr.
        destruct (fexp (Zpos (digits2_pos q) + e1) - e1) as [| p | p]; try lia;
          reflexivity. }
      rewrite Hshr2. simpl shr_m.
      split; [ reflexivity | ]. split; [ exact Hcan | ].
      split; [ unfold n1 in Hn1; lia | ].
      intros M E HME Hle. apply (Hbound M E HME Hle).
Qed.

End Rounding.

(** ** Rounding: alignment, and the order of canonical pairs *)

Lemma pos_iter_xO (m p : positive) :
  Zpos (Pos.iter xO m p) = Zpos m * 2 ^ Zpos p
  /\ Zpos (digits2_pos (Pos.iter xO m p)) = Zpos (digits2_pos m) + Zpos p.
Proof.
  induction p as [| p [IH1 IH2]] using Pos.peano_ind.
  - simpl Pos.iter. split.
    + change (Zpos m~0) with (2 * Zpos m). change (2 ^ 1) with 2. lia.
    + simpl digits2_pos. lia.
  - rewrite Pos.iter_succ. split.
    + change (Zpos (Pos.iter xO m p)~0) with (2 * Zpos (Pos.iter xO m p)).
      rewrite IH1, Pos2Z.inj_succ, Z.pow_succ_r by lia. lia.
    + simpl digits2_pos. rewrite Pos2Z.inj_succ, IH2. lia.
Qed.

Lemma shl_align_spec (m : positive) (e e' : Z) :
  snd (shl_align m e e') = Z.min e e'
  /\ Zpos (fst (shl_align m e e')) = Zpos m * 2 ^ (e - Z.min e e')
  /\ Zpos (digits2_pos (fst (shl_align m e e')))
     = Zpos (digits2_pos m) + (e - Z.min e e').
Proof.
  unfold shl_align. destruct (e' - e) as [| p | p] eqn:Hd; simpl fst; simpl snd.
  - replace (Z.min e e') with e by lia. rewrite Z.sub_diag. simpl. lia.
  - replace (Z.min e e') with e by lia. rewrite Z.sub_diag. simpl. lia.
  - replace (Z.min e e') with e' by lia.
    replace (e - e') with (Zpos p) by lia.
    destruct (pos_iter_xO m p) as [H1 H2]. auto.
Qed.

Lemma pow2_split (a b : Z) : 0 <= a -> 0 <= b -> 2 ^ (a + b) = 2 ^ a * 2 ^ b.
Proof. intros. apply Z.pow_add_r; assumption. Qed.

(** A number below [M * 2^E] has at most as many digits, exponent included. *)
Lemma le_val_digits (prec : Z) (m : positive) (e : Z) (M : positive) (E : Z) :
  0 < prec -> Zpos M < 2 ^ prec -> le_val m e M E ->
  Zpos (digits2_pos m) + e - prec <= E.
Proof.
  intros Hprec HM Hle. unfold le_val in Hle.
  pose proof (digits2_pos_bounds m) as [Hdl _].
  set (d := Zpos (digits2_pos m)) in *.
  set (L := Z.min e E) in *.
  assert (HeL : 0 <= e - L) by (unfold L; lia).
  assert (HEL : 0 <= E - L) by (unfold L; lia).
  assert (Hd : 1 <= d) by (unfold d; lia).
  destruct (Z_le_gt_dec (d + e - prec) E) as [? | Hgt]; [ assumption | exfalso ].
  assert (H1 : 2 ^ (prec + (E - L)) <= 2 ^ ((d - 1) + (e - L))) by (apply pow2_le; lia).
  rewrite !pow2_split in H1 by lia.
  pose proof (pow2_pos (E - L) HEL). pose proof (pow2_pos (e - L) HeL).
  assert (Zpos M * 2 ^ (E - L) < 2 ^ prec * 2 ^ (E - L)) by nia.
  assert (2 ^ (d - 1) * 2 ^ (e - L) <= Zpos m * 2 ^ (e - L)) by nia.
  lia.
Qed.

Section RoundingAligned.

Variables prec emax : Z.
Hypothesis prec_pos : 0 < prec.

Local Abbreviation emin := (SpecFloat.emin prec emax).
Local Abbreviation fexp := (SpecFloat.fexp prec emax).

(** [binary_round] on any positive mantissa and exponent: a zero or a
    canonical pair (an infinity when out of range), below every canonical
    pair that the argument is below. *)
Lemma binary_round_bound (sx : bool) (m : positive) (e : Z) :
  binary_round prec emax sx m e = S754_zero sx
  \/ exists (m2 : positive) (e2 : Z),
       binary_round prec emax sx m e
       = (if e2 <=? emax - prec then S754_finite sx m2 e2 else S754_infinity sx)
       /\ canonical prec emax m2 e2
       /\ (forall (M : positive) (E : Z),
             canonical prec emax M E -> le_val m e M E -> sf_le m2 e2 M E).
Proof.
  unfold binary_round.
  set (f0 := fexp (Zpos (digits2_pos m) + e)).
  destruct (shl_align_spec m e f0) as (Hez & Hmz & Hdz).
  destruct (shl_align m e f0) as [mz ez]. simpl fst in *. simpl snd in *.
  assert (HP : ez <= fexp (Zpos (digits2_pos mz) + ez)).
  { rewrite Hdz.
    replace (Zpos (digits2_pos m) + (e - Z.min e f0) + ez)
      with (Zpos (digits2_pos m) + e) by lia.
    fold f0. lia. }
  destruct (binary_round_aux_bound prec emax prec_pos sx mz ez HP)
    as [Hzero | (m2 & e2 & Heq & Hcan & _ & Hb)]; [ left; exact Hzero | right ].
  exists m2, e2. split; [ exact Heq | ]. split; [ exact Hcan | ].
  intros M E HME Hle. unfold sf_le. apply Hb; [ exact HME | ].
  destruct HME as (HEmin & HMup & _).
  pose proof (le_val_digits prec m e M E prec_pos HMup Hle) as Hdig.
  assert (Hf0 : f0 <= E) by (unfold f0, SpecFloat.fexp; lia).
  unfold le_val in Hle.
  set (L := Z.min e E) in *.
  assert (HezL : ez <= L) by (unfold L; lia).
  rewrite Hmz, <- Hez.
  replace (e - ez) with ((e - L) + (L - ez)) by lia.
  replace (E - ez) with ((E - L) + (L - ez)) by lia.
  rewrite !pow2_split by (unfold L; lia).
  pose proof (pow2_pos (L - ez) ltac:(lia)).
  rewrite !Z.mul_assoc. apply Z.mul_le_mono_nonneg_r; lia.
Qed.

(** Between canonical pairs the order of [SFcompare] is the order of the
    values. *)
Lemma sf_le_SFleb (m : positive) (e : Z) (M : positive) (E : Z) :
  sf_le m e M E ->
  SFleb (S754_finite false m e) (S754_finite false M E) = true.
Proof.
  intros [He Hm]. unfold SFleb, SFcompare.
  destruct (Z.compare_spec e E) as [Heq | Hlt | Hgt]; [ | reflexivity | lia ].
  subst E. rewrite Z.sub_diag in Hm. simpl (2 ^ 0) in Hm.
  change (Pos.compare_cont Eq m M) with (Pos.compare m M).
  destruct (Pos.compare_spec m M) as [? | ? | Hgt]; try reflexivity. lia.
Qed.

Lemma SFleb_sf_le (m : positive) (e : Z) (M : positive) (E : Z) :
  canonical prec emax m e -> canonical prec emax M E ->
  SFleb (S754_finite false m e) (S754_finite false M E) = true ->
  sf_le m e M E.
Proof.
  intros (Hemin & Hmup & _) (HEmin & _ & HMlow). unfold SFleb, SFcompare, sf_le.
  destruct (Z.compare_spec e E) as [Heq | Hlt | Hgt]; try discriminate.
  - subst E. rewrite Z.sub_diag. simpl (2 ^ 0).
    change (Pos.compare_cont Eq m M) with (Pos.compare m M).
    destruct (Pos.compare_spec m M) as [? | ? | ?]; try discriminate; intros _.
    + subst M. lia.
    + lia.
  - intros _. split; [ lia | ].
    destruct HMlow as [-> | HMlow]; [ lia | ].
    assert (2 ^ 1 <= 2 ^ (E - e)) by (apply pow2_le; lia).
    change (2 ^ 1) with 2 in H.
    replace (2 ^ prec) with (2 ^ (Z.succ (prec - 1))) in Hmup by (f_equal; lia).
    rewrite Z.pow_succ_r in Hmup by lia. nia.
Qed.

(** The same for two negative numbers, the other way round. *)
Lemma SFleb_neg_sf_le (m : positive) (e : Z) (M : positive) (E : Z) :
  canonical prec emax m e -> canonical prec emax M E ->
  SFleb (S754_finite true M E) (S754_finite true m e) = true ->
  sf_le m e M E.
Proof.
  intros (Hemin & Hmup & _) (HEmin & _ & HMlow). unfold SFleb, SFcompare, sf_le.
  rewrite (Z.compare_antisym e E).
  destruct (Z.compare_spec e E) as [Heq | Hlt | Hgt]; simpl CompOpp; try discriminate.
  - subst E. rewrite Z.sub_diag. simpl (2 ^ 0).
    change (Pos.compare_cont Eq M m) with (Pos.compare M m).
    rewrite (Pos.compare_antisym m M).
    destruct (Pos.compare_spec m M) as [? | ? | ?]; simpl; try discriminate; intros _.
    + subst M. lia.
    + lia.
  - intros _. split; [ lia | ].
    destruct HMlow as [-> | HMlow]; [ lia | ].
    assert (2 ^ 1 <= 2 ^ (E - e)) by (apply pow2_le; lia).
    change (2 ^ 1) with 2 in H.
    replace (2 ^ prec) with (2 ^ (Z.succ (prec - 1))) in Hmup by (f_equal; lia).
    rewrite Z.pow_succ_r in Hmup by lia. nia.
Qed.

End RoundingAligned.

(** ** Rounding: results below a bound *)

Section RoundedBelow.

Variables prec emax : Z.
Hypothesis prec_pos : 0 < prec.

Lemma binary_round_below (sx : bool) (m : positive) (e : Z) (M : positive) (E : Z) :
  canonical prec emax M E -> E <= emax - prec -> le_val m e M E ->
  rounded_below prec emax sx M E (binary_round prec emax sx m e).
Proof.
  intros HME HE Hle.
  destruct (binary_round_bound prec emax prec_pos sx m e)
    as [Hz | (m2 & e2 & Heq & Hcan & Hb)]; [ left; exact Hz | right ].
  destruct (Hb M E HME Hle) as [He2 Hm2].
  exists m2, e2. rewrite Heq.
  destruct (Z.leb_spec e2 (emax - prec)); [ | lia ].
  split; [ reflexivity | ]. split; [ exact Hcan | ]. split; assumption.
Qed.

Lemma binary_round_aux_below (sx : bool) (m : positive) (e : Z) (M : positive) (E : Z) :
  e <= SpecFloat.fexp prec emax (Zpos (digits2_pos m) + e) ->
  canonical prec emax M E -> E <= emax - prec ->
  Zpos m <= Zpos M * 2 ^ (E - e) ->
  rounded_below prec emax sx M E (binary_round_aux prec emax sx (Zpos m) e loc_Exact).
Proof.
  intros HP HME HE Hle.
  destruct (binary_round_aux_bound prec emax prec_pos sx m e HP)
    as [Hz | (m2 & e2 & Heq & Hcan & _ & Hb)]; [ left; exact Hz | right ].
  destruct (Hb M E HME Hle) as [He2 Hm2].
  exists m2, e2. rewrite Heq.
  destruct (Z.leb_spec e2 (emax - prec)); [ | lia ].
  split; [ reflexivity | ]. split; [ exact Hcan | ]. split; assumption.
Qed.

Lemma rounded_below_valid (sx : bool) (M : positive) (E : Z) (R : spec_float) :
  E <= emax - prec -> rounded_below prec emax sx M E R ->
  SpecFloat.valid_binary prec emax R = true.
Proof.
  intros HE [-> | (m2 & e2 & -> & Hcan & He2 & _)]; [ reflexivity | ].
  simpl. unfold bounded. apply andb_true_iff. split.
  - apply canonical_canonical_mantissa; assumption.
  - apply Z.leb_le. lia.
Qed.

Lemma rounded_below_range (M : positive) (E : Z) (R : spec_float) :
  rounded_below prec emax false M E R ->
  SFleb (S754_zero false) R = true /\ SFleb R (S754_finite false M E) = true.
Proof.
  intros [-> | (m2 & e2 & -> & _ & Hle)].
  - split; reflexivity.
  - split; [ reflexivity | apply sf_le_SFleb; exact Hle ].
Qed.

End RoundedBelow.

(** ** Conversions that cannot overflow *)

Lemma Prim2SF_infinity : Prim2SF infinity = S754_infinity false.
Proof. vm_compute. reflexivity. Qed.

Lemma is_infinity_false (f : float) :
  (forall s, Prim2SF f <> S754_infinity s) -> is_infinity f = false.
Proof.
  intros H. unfold is_infinity. rewrite eqb_spec, abs_spec, Prim2SF_infinity.
  destruct (Prim2SF f) as [s | s | | s m e]; try reflexivity.
  exfalso. apply (H s). reflexivity.
Qed.

Lemma is_finite_spec (f : float) :
  is_finite f = true ->
  (exists s, Prim2SF f = S754_zero s) \/ (exists s m e, Prim2SF f = S754_finite s m e).
Proof.
  unfold is_finite. intros H. apply negb_true_iff, orb_false_iff in H as [Hn Hi].
  apply is_nan_false_spec in Hn.
  unfold is_infinity in Hi. rewrite eqb_spec, abs_spec, Prim2SF_infinity in Hi.
  destruct (Prim2SF f) as [s | s | | s m e]; try congruence; eauto.
  discriminate.
Qed.

(** The binary64 pair of [2^53]. *)
Lemma canonical_2_53 : canonical prec emax 4503599627370496 1.
Proof. unfold canonical. vm_compute. repeat split; try discriminate. right. discriminate. Qed.

(** An integer of magnitude at most [M * 2^E], a binary64 number, converts
    without overflow. *)
Lemma float_of_int_bounded (z : Z) (M : positive) (E : Z) :
  canonical prec emax M E -> E <= 971 ->
  Z.abs z <= Zpos M * 2 ^ E -> 0 <= E ->
  exists f, float_of_int z = Return f.
Proof.
  intros HME HE Hz HE0. unfold float_of_int, Z2float.
  set (R := binary_normalize prec emax z 0 false).
  assert (HR : exists sx, rounded_below prec emax sx M E R).
  { unfold R, binary_normalize. destruct z as [| p | p].
    - exists false. left. reflexivity.
    - exists false. apply binary_round_below; try assumption; try reflexivity.
      unfold le_val. rewrite Z.min_l by lia. rewrite !Z.sub_0_r. simpl (2 ^ 0).
      simpl Z.abs in Hz. lia.
    - exists true. apply binary_round_below; try assumption; try reflexivity.
      unfold le_val. rewrite Z.min_l by lia. rewrite !Z.sub_0_r. simpl (2 ^ 0).
      simpl Z.abs in Hz. lia. }
  destruct HR as [sx HR].
  assert (Hv : Prim2SF (SF2Prim R) = R).
  { apply Prim2SF_SF2Prim.
    apply (rounded_below_valid prec emax eq_refl sx M E); [ exact HE | exact HR ]. }
  rewrite is_infinity_false.
  - eexists. reflexivity.
  - intros s. rewrite Hv. destruct HR as [-> | (m2 & e2 & -> & _)]; discriminate.
Qed.

Lemma math_floor_finite (x : float) :
  is_finite x = true ->
  exists z f, math_floor x = Return z /\ float_of_int z = Return f.
Proof.
  intros Hx. unfold math_floor.
  destruct (is_finite_spec x Hx) as [[s Hs] | (s & m & e & Hs)]; rewrite Hs.
  - exists 0. eexists. split; [ reflexivity | vm_compute; reflexivity ].
  - destruct (Prim2SF_finite x s m e Hs) as (He & Hm & Hc).
    pose proof (Prim2SF_valid x) as Hv. rewrite Hs in Hv.
    apply (valid_finite prec emax) in Hv; [ | reflexivity ]. destruct Hv as [Hcan _].
    eexists. 
    destruct (Z_le_gt_dec 0 e) as [Hpos | Hneg].
    + destruct (float_of_int_bounded (Z.shiftl (cond_Zopp s (Zpos m)) e) m e)
        as [f Hf]; try assumption; try lia.
      * rewrite Z.shiftl_mul_pow2 by lia. pose proof (pow2_pos e Hpos).
        destruct s; simpl cond_Zopp; rewrite Z.abs_mul; rewrite (Z.abs_eq (2 ^ e)) by lia;
          simpl Z.abs; lia.
      * exists f. split; [ reflexivity | exact Hf ].
    + destruct (float_of_int_bounded (Z.shiftl (cond_Zopp s (Zpos m)) e)
                  4503599627370496 1 canonical_2_53) as [f Hf]; try lia.
      * replace e with (- (- e)) by lia.
        rewrite Z.shiftl_opp_r, Z.shiftr_div_pow2 by lia.
        pose proof (pow2_pos (- e) ltac:(lia)) as Hp.
        assert (Hp2 : 2 <= 2 ^ (- e)).
        { change 2 with (2 ^ 1) at 1. apply pow2_le. lia. }
        change (Zpos 4503599627370496 * 2 ^ 1) with (2 ^ 53).
        pose proof (Z.div_mod (cond_Zopp s (Zpos m)) (2 ^ (- e)) ltac:(lia)) as Hdm.
        pose proof (Z.mod_pos_bound (cond_Zopp s (Zpos m)) (2 ^ (- e)) Hp) as Hmb.
        destruct s; simpl cond_Zopp in *; nia.
      * exists f. split; [ reflexivity | exact Hf ].
Qed.

(** ** The evaluation completes on finite coordinates *)

Lemma grad_entries (i : Z) :
  0 <= i < 8 ->
  exists g g0 g1, py_getitem GRAD2 i = Return g
                  /\ float_of_int (fst g) = Return g0
                  /\ float_of_int (snd g) = Return g1.
Proof.
  intros Hi.
  assert (Hc : i = 0 \/ i = 1 \/ i = 2 \/ i = 3 \/ i = 4 \/ i = 5 \/ i = 6 \/ i = 7) by lia.
  destruct Hc as [-> | [-> | [-> | [-> | [-> | [-> | [-> | ->]]]]]]];
    do 3 eexists; repeat split; vm_compute; reflexivity.
Qed.

Lemma grad_total (e : Engine) (h : Z) (x y : float) :
  engine_okb e = true -> exists v, _grad h x y e = (Return v, e).
Proof.
  intros Hok. unfold _grad, bind, get, lift, ret.
  rewrite (engine_okb_grad2 e Hok).
  destruct (grad_entries (Z.land h 7) (land_7_bounds h)) as (g & g0 & g1 & Hg & H0 & H1).
  rewrite Hg, H0, H1. eexists. reflexivity.
Qed.

Lemma perm_hash_total (e : Engine) (ix iy : Z) :
  engine_okb e = true -> exists h, _perm_hash ix iy e = (Return h, e).
Proof.
  intros Hok. apply engine_okb_table in Hok.
  destruct (hash_formula_defined (perm e) ix iy Hok) as [h [Hh _]].
  exists h. rewrite perm_hash_eq, Hh. reflexivity.
Qed.

Lemma perlin2_total (e : Engine) (x y : float) :
  engine_okb e = true -> is_finite x = true -> is_finite y = true ->
  exists v, _perlin2 x y e = (Return v, e).
Proof.
  intros Hok Hx Hy. unfold _perlin2.
  destruct (math_floor_finite x Hx) as (xi & xif & Hxi & Hxif).
  destruct (math_floor_finite y Hy) as (yi & yif & Hyi & Hyif).
  unfold bind at 1. unfold lift at 1. rewrite Hxi.
  unfold bind at 1. unfold lift at 1. rewrite Hyi.
  unfold bind at 1. unfold lift at 1. rewrite Hxif.
  unfold bind at 1. unfold lift at 1. rewrite Hyif.
  destruct (perm_hash_total e xi yi Hok) as [h00 H00].
  destruct (perm_hash_total e (xi + 1) yi Hok) as [h10 H10].
  destruct (perm_hash_total e xi (yi + 1) Hok) as [h01 H01].
  destruct (perm_hash_total e (xi + 1) (yi + 1) Hok) as [h11 H11].
  rewrite (bind_return _ _ _ _ _ H00), (bind_return _ _ _ _ _ H10),
    (bind_return _ _ _ _ _ H01), (bind_return _ _ _ _ _ H11).
  set (xf := (x - xif)%float). set (yf := (y - yif)%float).
  destruct (grad_total e h00 xf yf Hok) as [n00 G00].
  destruct (grad_total e h10 (xf - 1.0)%float yf Hok) as [n10 G10].
  destruct (grad_total e h01 xf (yf - 1.0)%float Hok) as [n01 G01].
  destruct (grad_total e h11 (xf - 1.0)%float (yf - 1.0)%float Hok) as [n11 G11].
  rewrite (bind_return _ _ _ _ _ G00), (bind_return _ _ _ _ _ G10),
    (bind_return _ _ _ _ _ G01), (bind_return _ _ _ _ _ G11).
  eexists. reflexivity.
Qed.

Lemma weighted_sum_total (e : Engine) (x y : float) (n : nat) :
  engine_okb e = true -> samples_finite (lacunarity e) x y n = true ->
  exists t, weighted_sum e x y n = Return t.
Proof.
  intros Hok. induction n as [| n IH]; intros Hfin; simpl.
  - eexists. reflexivity.
  - simpl in Hfin. apply andb_true_iff in Hfin as [Hfin Hy].
    apply andb_true_iff in Hfin as [Hfin Hx].
    destruct (IH Hfin) as [t Ht]. rewrite Ht.
    destruct (perlin2_total e _ _ Hok Hx Hy) as [v Hv].
    unfold perlin2. rewrite Hv. simpl. eexists. reflexivity.
Qed.

(** ** No division by zero *)

Lemma nzd_ret {A : Type} (a : A) : never_zero_division (ret a).
Proof. intros e. discriminate. Qed.

Lemma nzd_get {A : Type} (field : Engine -> A) : never_zero_division (get field).
Proof. intros e. discriminate. Qed.

Lemma nzd_bind {A B : Type} (c : Py A) (k : A -> Py B) :
  never_zero_division c -> (forall a, never_zero_division (k a)) ->
  never_zero_division (bind c k).
Proof.
  intros Hc Hk e. unfold bind. specialize (Hc e).
  destruct (c e) as [[a | err] e']; simpl in *.
  - apply Hk.
  - intros H. apply Hc. injection H as ->. reflexivity.
Qed.

Lemma nzd_floor (x : float) : never_zero_division (lift (math_floor x)).
Proof.
  intros e. unfold lift, math_floor. simpl.
  destruct (Prim2SF x); discriminate.
Qed.

Lemma nzd_float_of_int (z : Z) : never_zero_division (lift (float_of_int z)).
Proof.
  intros e. unfold lift, float_of_int. simpl.
  destruct (is_infinity (Z2float z)); discriminate.
Qed.

Lemma nzd_getitem {A : Type} (l : list A) (i : Z) :
  never_zero_division (lift (py_getitem l i)).
Proof.
  intros e. unfold lift, py_getitem. simpl.
  destruct (_ <? 0); [ discriminate | ].
  destruct (nth_error l _); discriminate.
Qed.

Create HintDb py_errors.
#[export] Hint Resolve nzd_ret nzd_get nzd_floor nzd_float_of_int nzd_getitem
  : py_errors.

Ltac nzd_steps :=
  repeat (first [ solve [ auto with py_errors ] | apply nzd_bind; [ | intro ] ]).

Lemma nzd_perm_hash (ix iy : Z) : never_zero_division (_perm_hash ix iy).
Proof. unfold _perm_hash. nzd_steps. Qed.

Lemma nzd_grad (h : Z) (x y : float) : never_zero_division (_grad h x y).
Proof. unfold _grad. nzd_steps. Qed.

#[export] Hint Resolve nzd_perm_hash nzd_grad : py_errors.

Lemma nzd_perlin2 (x y : float) : never_zero_division (_perlin2 x y).
Proof. unfold _perlin2. nzd_steps. Qed.

Lemma weighted_sum_nzd (e : Engine) (x y : float) (n : nat) :
  weighted_sum e x y n <> Raise ZeroDivisionError.
Proof.
  induction n as [| n IH]; simpl; [ discriminate | ].
  destruct (weighted_sum e x y n) as [t | err]; [ | exact IH ].
  pose proof (nzd_perlin2 (x * fpow (lacunarity e) n)%float
                          (y * fpow (lacunarity e) n)%float e) as H.
  fold (perlin2 e (x * fpow (lacunarity e) n)%float (y * fpow (lacunarity e) n)%float) in H.
  destruct (perlin2 e _ _); [ discriminate | exact H ].
Qed.

(** C8, as the code has it: the fractal evaluation never divides by zero and
    never raises [ZeroDivisionError]: when the sum of the amplitudes is zero,
    as with an octave count of 0, it returns [0.0]; and on an instance with
    its table and gradients it completes without an error for all
    coordinates that every octave scales to a finite number. *)
Theorem perlin_fractal_no_zero_division (e : Engine) (x y : float) :
  fst (_perlin_fractal x y e) <> Raise ZeroDivisionError
  /\ (octaves e <= 0 -> _perlin_fractal x y e = (Return 0.0%float, e))
  /\ (forall t, weighted_sum e x y (Z.to_nat (octaves e)) = Return t ->
        (amplitude_sum (gain e) (Z.to_nat (octaves e)) =? 0)%float = true ->
        _perlin_fractal x y e = (Return 0.0%float, e))
  /\ (engine_okb e = true ->
      samples_finite (lacunarity e) x y (Z.to_nat (octaves e)) = true ->
      exists v, _perlin_fractal x y e = (Return v, e)).
Proof.
  rewrite perlin_fractal_guarded. cbn [fst]. unfold fractal_guarded.
  split; [ | split; [ | split ] ].
  - pose proof (weighted_sum_nzd e x y (Z.to_nat (octaves e))) as H.
    destruct (weighted_sum e x y (Z.to_nat (octaves e))) as [t | err]; [ | exact H ].
    destruct (_ =? 0)%float; discriminate.
  - intros Hn. replace (Z.to_nat (octaves e)) with 0%nat by lia. reflexivity.
  - intros t Ht Hz. rewrite Ht, Hz. reflexivity.
  - intros Hok Hfin.
    destruct (weighted_sum_total e x y _ Hok Hfin) as [t Ht]. rewrite Ht.
    destruct (_ =? 0)%float; eexists; reflexivity.
Qed.

Lemma perlin_fractal_no_zero_division_witness :
  exists v, _perlin_fractal 0.25 (-3.5) example_engine = (Return v, example_engine).
Proof.
  destruct (perlin_fractal_no_zero_division example_engine 0.25 (-3.5))
    as (_ & _ & _ & H).
  apply H; vm_compute; reflexivity.
Defined.

(** The coordinate 1e308 is finite, its double for the second octave is not:
    [math.floor] raises [OverflowError]. *)
Lemma perlin_fractal_overflow :
  is_finite 1e308 = true
  /\ lacunarity example_engine = 2.0%float
  /\ octaves example_engine = 3
  /\ (1e308 * 2.0)%float = infinity
  /\ fst (_perlin_fractal 1e308 0.0 example_engine) = Raise OverflowError.
Proof. vm_compute. repeat split; reflexivity. Qed.

(** ** The public entry point *)

Lemma perlin_fractal_total (e : Engine) (x y : float) :
  engine_okb e = true ->
  samples_finite (lacunarity e) x y (Z.to_nat (octaves e)) = true ->
  exists v, _perlin_fractal x y e = (Return v, e).
Proof.
  intros Hok Hfin. rewrite perlin_fractal_guarded. unfold fractal_guarded.
  destruct (weighted_sum_total e x y _ Hok Hfin) as [t Ht]. rewrite Ht.
  destruct (_ =? 0)%float; eexists; reflexivity.
Qed.

(** C1, as the code has it: [get_noise] multiplies the coordinates by the
    frequency, runs the fractal evaluation and clamps its result; the clamp
    sends every number into [[-1, 1]] and leaves NaN as it is, so a value
    that [get_noise] returns lies in [[-1, 1]] unless it is NaN; and
    [get_noise] does return when every octave scales the coordinates to
    finite numbers. *)
Theorem get_noise_clamped (e : Engine) (x y : PyNum) :
  (forall xf yf, py_float x = Return xf -> py_float y = Return yf ->
     fst (get_noise x y e) =
     match fst (_perlin_fractal (xf * frequency e) (yf * frequency e) e) with
     | Return v => Return (clamp v)
     | Raise err => Raise err
     end)
  /\ (forall r, fst (get_noise x y e) = Return r ->
        is_nan r = false -> in_unit_range r = true)
  /\ (forall v, is_nan v = false -> in_unit_range (clamp v) = true)
  /\ (forall v, is_nan v = true -> clamp v = v)
  /\ (forall xf yf, py_float x = Return xf -> py_float y = Return yf ->
        engine_okb e = true ->
        samples_finite (lacunarity e) (xf * frequency e) (yf * frequency e)
                       (Z.to_nat (octaves e)) = true ->
        exists r, get_noise x y e = (Return r, e)
                  /\ (is_nan r = true \/ in_unit_range r = true)).
Proof.
  assert (Hs : forall xf yf, py_float x = Return xf -> py_float y = Return yf ->
     fst (get_noise x y e) =
     match fst (_perlin_fractal (xf * frequency e) (yf * frequency e) e) with
     | Return v => Return (clamp v)
     | Raise err => Raise err
     end).
  { intros xf yf Hx Hy. rewrite get_noise_unfold. unfold bind, lift, ret.
    rewrite Hx, Hy.
    destruct (_perlin_fractal (xf * frequency e) (yf * frequency e) e) as [[v | err] e'];
      reflexivity. }
  assert (Hr : forall r, fst (get_noise x y e) = Return r ->
                 is_nan r = false -> in_unit_range r = true).
  { intros r Hr Hn.
    destruct (py_float x) as [xf | ex] eqn:Hx.
    - destruct (py_float y) as [yf | ey] eqn:Hy.
      + rewrite (Hs xf yf eq_refl eq_refl) in Hr.
        destruct (fst (_perlin_fractal (xf * frequency e) (yf * frequency e) e))
          as [v | err]; [ | discriminate ].
        injection Hr as <-.
        destruct (is_nan v) eqn:Hv.
        * rewrite (clamp_nan v Hv) in Hn. congruence.
        * apply clamp_in_unit_range. exact Hv.
      + rewrite get_noise_unfold in Hr. unfold bind, lift in Hr.
        rewrite Hx, Hy in Hr. discriminate.
    - rewrite get_noise_unfold in Hr. unfold bind, lift in Hr.
      rewrite Hx in Hr. discriminate. }
  split; [ exact Hs | ]. split; [ exact Hr | ].
  split; [ apply clamp_in_unit_range | ]. split; [ apply clamp_nan | ].
  intros xf yf Hx Hy Hok Hfin.
  destruct (perlin_fractal_total e (xf * frequency e) (yf * frequency e) Hok Hfin)
    as [v Hv].
  assert (Hg : get_noise x y e = (Return (clamp v), e)).
  { rewrite get_noise_unfold. unfold bind, lift, ret. rewrite Hx, Hy, Hv. reflexivity. }
  exists (clamp v). split; [ exact Hg | ].
  destruct (is_nan (clamp v)) eqn:Hn; [ left; reflexivity | right ].
  apply Hr; [ rewrite Hg; reflexivity | exact Hn ].
Qed.

Lemma get_noise_clamped_witness :
  exists r, get_noise (PyInt 1) (PyInt 1) example_engine = (Return r, example_engine)
            /\ (is_nan r = true \/ in_unit_range r = true).
Proof.
  destruct (get_noise_clamped example_engine (PyInt 1) (PyInt 1)) as (_ & _ & _ & _ & H).
  apply (H 1.0%float 1.0%float); vm_compute; reflexivity.
Defined.

(** ** From [[-1, 1]] to [[0, 1]] *)

Lemma digits2_pos_unique (p : positive) (n : Z) :
  2 ^ (n - 1) <= Zpos p < 2 ^ n -> Zpos (digits2_pos p) = n.
Proof.
  intros [Hl Hu]. pose proof (digits2_pos_bounds p) as [Hdl Hdu].
  assert (Hn : 0 < n).
  { destruct (Z_lt_le_dec 0 n) as [? | Hle]; [ assumption | ].
    assert (n = 0 \/ n < 0) as [-> | Hneg] by lia.
    - simpl in Hu. lia.
    - rewrite Z.pow_neg_r in Hu by lia. lia. }
  destruct (Z.lt_trichotomy (Zpos (digits2_pos p)) n) as [Hlt | [Heq | Hgt]];
    [ exfalso | exact Heq | exfalso ].
  - assert (2 ^ Zpos (digits2_pos p) <= 2 ^ (n - 1)) by (apply pow2_le; lia). lia.
  - assert (2 ^ n <= 2 ^ (Zpos (digits2_pos p) - 1)) by (apply pow2_le; lia). lia.
Qed.

Lemma Prim2SF_half : Prim2SF 0.5%float = S754_finite false 4503599627370496 (-53).
Proof. vm_compute. reflexivity. Qed.

Lemma canonical_pow2 (k : Z) :
  -1022 <= k -> canonical prec emax 4503599627370496 (k - 52).
Proof.
  intros Hk. unfold canonical, SpecFloat.emin, prec, emax.
  split; [ lia | ]. split; [ reflexivity | right; discriminate ].
Qed.

(** [v + 1] for [v] in [[-1, 1]]: a number in [[0, 2]]. *)
Lemma add_one_below (v : float) :
  in_unit_range v = true ->
  rounded_below prec emax false 4503599627370496 (-51) (Prim2SF (v + 1)%float).
Proof.
  unfold in_unit_range. intros H. apply andb_true_iff in H as [Hlo Hhi].
  rewrite leb_spec in Hlo, Hhi. rewrite Prim2SF_neg_one in Hlo. rewrite Prim2SF_one in Hhi.
  rewrite add_spec, Prim2SF_one. unfold SF64add.
  pose proof (Prim2SF_valid v) as Hv.
  destruct (Prim2SF v) as [s | s | | s m e] eqn:HV.
  - (* zero *)
    right. exists 4503599627370496%positive, (-52). simpl SFadd.
    split; [ reflexivity | ]. split; [ apply (canonical_pow2 0); lia | ].
    split; [ lia | vm_compute; discriminate ].
  - destruct s; discriminate.
  - discriminate.
  - apply (valid_finite prec emax) in Hv; [ | reflexivity ]. destruct Hv as [Hcan _].
    pose proof (canonical_pow2 0 ltac:(lia)) as Hone. simpl (0 - 52) in Hone.
    unfold SFadd.
    destruct (shl_align_spec m e (Z.min e (-52))) as (_ & Ha & _).
    destruct (shl_align_spec 4503599627370496 (-52) (Z.min e (-52))) as (_ & Hb & _).
    set (a := fst (shl_align m e (Z.min e (-52)))) in *.
    set (b := fst (shl_align 4503599627370496 (-52) (Z.min e (-52)))) in *.
    destruct s.
    + (* a negative number, at least -1 *)
      apply (SFleb_neg_sf_le prec emax eq_refl m e _ _ Hcan Hone) in Hlo.
      destruct Hlo as [He Hm].
      rewrite (Z.min_l e (-52)) in * by lia.
      rewrite (Z.min_l e e) in Ha by lia. rewrite Z.sub_diag in Ha. simpl (2 ^ 0) in Ha.
      rewrite (Z.min_r (-52) e) in Hb by lia.
      simpl cond_Zopp.
      assert (Hab : Zpos a <= Zpos b) by lia.
      unfold binary_normalize.
      destruct (Z.neg a + Zpos b) as [| p | p] eqn:Hs; try lia.
      * left. reflexivity.
      * apply binary_round_below; [ reflexivity | | unfold emax, prec; lia | ].
        -- apply (canonical_pow2 1). lia.
        -- unfold le_val. rewrite (Z.min_l e (-51)) by lia.
           rewrite Z.sub_diag. simpl (2 ^ 0).
           replace (-51 - e) with (Z.succ (-52 - e)) by lia.
           rewrite Z.pow_succ_r by lia. lia.
    + (* a positive number, at most 1 *)
      apply (SFleb_sf_le prec emax eq_refl m e _ _ Hcan Hone) in Hhi.
      destruct Hhi as [He Hm].
      rewrite (Z.min_l e (-52)) in * by lia.
      rewrite (Z.min_l e e) in Ha by lia. rewrite Z.sub_diag in Ha. simpl (2 ^ 0) in Ha.
      rewrite (Z.min_r (-52) e) in Hb by lia.
      simpl cond_Zopp. unfold binary_normalize.
      change (Zpos a + Zpos b) with (Zpos (a + b)).
      apply binary_round_below; [ reflexivity | | unfold emax, prec; lia | ].
      * apply (canonical_pow2 1). lia.
      * unfold le_val. rewrite (Z.min_l e (-51)) by lia.
        rewrite Z.sub_diag. simpl (2 ^ 0).
        replace (-51 - e) with (Z.succ (-52 - e)) by lia.
        rewrite Z.pow_succ_r by lia. rewrite Pos2Z.inj_add. lia.
Qed.

(** Half of a number in [[0, 2]]: a number in [[0, 1]]. *)
Lemma mul_half_below (w : float) :
  rounded_below prec emax false 4503599627370496 (-51) (Prim2SF w) ->
  rounded_below prec emax false 4503599627370496 (-52) (Prim2SF (w * 0.5)%float).
Proof.
  intros Hw. rewrite mul_spec, Prim2SF_half. unfold SF64mul.
  destruct Hw as [-> | (m & e & -> & Hcan & He & Hm)].
  - left. reflexivity.
  - unfold SFmul. simpl xorb.
    assert (Hprod : Zpos (m * 4503599627370496) = Zpos m * 2 ^ 52) by reflexivity.
    pose proof (digits2_pos_bounds m) as [Hdl Hdu].
    assert (Hd1 : 1 <= Zpos (digits2_pos m)) by lia.
    assert (Hdig : Zpos (digits2_pos (m * 4503599627370496))
                   = Zpos (digits2_pos m) + 52).
    { apply digits2_pos_unique. rewrite Hprod.
      replace (Zpos (digits2_pos m) + 52 - 1) with ((Zpos (digits2_pos m) - 1) + 52) by lia.
      rewrite !pow2_split by lia. pose proof (pow2_pos 52 ltac:(lia)). nia. }
    apply binary_round_aux_below; [ reflexivity | | | unfold emax, prec; lia | ].
    + rewrite Hdig. unfold SpecFloat.fexp, prec. lia.
    + apply (canonical_pow2 0). lia.
    + rewrite Hprod.
      replace (-52 - (e + -53)) with ((-51 - e) + 52) by lia.
      rewrite pow2_split by lia. pose proof (pow2_pos 52 ltac:(lia)). nia.
Qed.

Lemma pow2_52_split (n : Z) : 0 <= n -> 2 ^ 52 * 2 ^ n = 2 ^ 23 * 2 ^ (29 + n).
Proof.
  intros Hn. rewrite (pow2_split 29 n) by lia.
  change (2 ^ 52) with (2 ^ 23 * 2 ^ 29). lia.
Qed.

Lemma canonical32_one : canonical 24 128 8388608 (-23).
Proof.
  unfold canonical, SpecFloat.emin.
  split; [ lia | ]. split; [ reflexivity | right; discriminate ].
Qed.

(** A binary32 number of magnitude at most one, read as a binary64 float. *)
Lemma SF2Prim_single_below (m2 : positive) (e2 : Z) :
  canonical 24 128 m2 e2 -> sf_le m2 e2 8388608 (-23) ->
  rounded_below prec emax false 4503599627370496 (-52)
                (Prim2SF (SF2Prim (S754_finite false m2 e2))).
Proof.
  intros (Hemin & Hup & _) [He2 Hm2]. unfold SpecFloat.emin in Hemin.
  change (SF2Prim (S754_finite false m2 e2))
    with (Z.ldexp (of_uint63 (Uint63.of_Z (Zpos m2))) e2).
  rewrite Z_ldexp_spec, of_uint63_spec, Uint63.of_Z_spec.
  rewrite Z.mod_small by (split; [ lia | ];
    apply Z.lt_trans with (1 := Hup); reflexivity).
  unfold binary_normalize.
  set (k := - e2).
  assert (Hm2k : Zpos m2 <= 2 ^ 23 * 2 ^ (k - 23)).
  { replace (k - 23) with (-23 - e2) by (unfold k; lia). exact Hm2. }
  assert (HA : rounded_below prec emax false 4503599627370496 (k - 52)
                 (binary_round prec emax false m2 0)).
  { apply binary_round_below; [ reflexivity | | unfold emax, prec, k; lia | ].
    - apply canonical_pow2. unfold k. lia.
    - unfold le_val. destruct (Z_le_gt_dec 52 k) as [Hk | Hk].
      + rewrite Z.min_l by lia. rewrite !Z.sub_0_r. simpl (2 ^ 0).
        change (Zpos 4503599627370496) with (2 ^ 52).
        rewrite pow2_52_split by lia.
        replace (29 + (k - 52)) with (k - 23) by lia. lia.
      + rewrite Z.min_r by lia. rewrite Z.sub_diag. simpl (2 ^ 0).
        replace (0 - (k - 52)) with (52 - k) by lia.
        change (Zpos 4503599627370496 * 1) with (2 ^ 23 * 2 ^ 29).
        assert (H29 : 2 ^ 29 = 2 ^ (k - 23) * 2 ^ (52 - k)).
        { rewrite <- pow2_split by (unfold k; lia). f_equal. lia. }
        rewrite H29. pose proof (pow2_pos (52 - k) ltac:(lia)).
        pose proof (pow2_pos (k - 23) ltac:(unfold k; lia)). nia. }
  destruct HA as [-> | (m3 & e3 & -> & Hcan3 & He3 & Hm3)].
  - left. reflexivity.
  - unfold SFldexp.
    apply binary_round_below; [ reflexivity | | unfold emax, prec; lia | ].
    + apply (canonical_pow2 0). lia.
    + unfold le_val. rewrite Z.min_l by (unfold k in He3; lia).
      rewrite Z.sub_diag. simpl (2 ^ 0).
      replace (-52 - (e3 + e2)) with (k - 52 - e3) by (unfold k; lia). lia.
Qed.

(** Rounding a number of [[0, 1]] to single precision leaves it in
    [[0, 1]]. *)
Lemma to_float32_below (h : float) :
  rounded_below prec emax false 4503599627370496 (-52) (Prim2SF h) ->
  in_zero_one (perlin_noise_generator.to_float32 h) = true.
Proof.
  intros Hh.
  assert (Hrange : forall g,
            rounded_below prec emax false 4503599627370496 (-52) (Prim2SF g) ->
            in_zero_one g = true).
  { intros g Hg. unfold in_zero_one. rewrite !leb_spec, Prim2SF_zero, Prim2SF_one.
    destruct (rounded_below_range prec emax _ _ _ Hg) as [H0 H1]. rewrite H0, H1. reflexivity. }
  unfold perlin_noise_generator.to_float32.
  destruct Hh as [Hz | (m & e & Hf & Hcan & He & Hm)].
  - rewrite Hz. apply Hrange. rewrite Hz. left. reflexivity.
  - rewrite Hf.
    assert (H32 : rounded_below 24 128 false 8388608 (-23) (binary_round 24 128 false m e)).
    { apply binary_round_below; [ reflexivity | apply canonical32_one | lia | ].
      unfold le_val. rewrite Z.min_l by lia. rewrite Z.sub_diag. simpl (2 ^ 0).
      change (Zpos 4503599627370496) with (2 ^ 52) in Hm.
      rewrite pow2_52_split in Hm by lia.
      replace (29 + (-52 - e)) with (-23 - e) in Hm by lia.
      change (Zpos 8388608) with (2 ^ 23). lia. }
    destruct H32 as [-> | (m2 & e2 & -> & Hcan2 & Hle2)].
    + vm_compute. reflexivity.
    + apply Hrange. apply SF2Prim_single_below; assumption.
Qed.

(** What the sampling loop stores for a value of [get_noise] in
    [[-1, 1]] lies in [[0, 1]]. *)
Lemma stored_sample_range (v : float) :
  in_unit_range v = true ->
  in_zero_one (perlin_noise_generator.to_float32 ((v + 1) * 0.5)%float) = true.
Proof.
  intros Hv. apply to_float32_below, mul_half_below, add_one_below. exact Hv.
Qed.

(** ** The sampling loops *)

Section Grid.

Import perlin_noise_generator.

Variable e : Engine.
Variables width height : nat.

Lemma list_set_middle {A : Type} (l1 l2 : list A) (a b : A) (n : nat) :
  n = length l1 -> list_set (l1 ++ a :: l2) n b = l1 ++ b :: l2.
Proof.
  intros ->. induction l1 as [| c l1 IH]; simpl; [ reflexivity | rewrite IH; reflexivity ].
Qed.

Lemma nth_error_middle {A : Type} (l1 l2 : list A) (a : A) (n : nat) :
  n = length l1 -> nth_error (l1 ++ a :: l2) n = Some a.
Proof. intros ->. induction l1 as [| c l1 IH]; simpl; [ reflexivity | exact IH ]. Qed.

Lemma filled_row_step (y x0 : nat) :
  (x0 < width)%nat ->
  list_set (filled_row e width y x0) x0 (stored e y x0) = filled_row e width y (S x0).
Proof.
  intros Hx. unfold filled_row.
  replace (width - x0)%nat with (S (width - S x0)) by lia. simpl repeat.
  rewrite seq_S, map_app. simpl. rewrite <- app_assoc. simpl.
  apply list_set_middle. rewrite length_map, length_seq. reflexivity.
Qed.

Lemma filling_length_prefix (y : nat) :
  length (map (fun y' => map (stored e y') (seq 0 width)) (seq 0 y)) = y.
Proof. rewrite length_map, length_seq. reflexivity. Qed.

Lemma pixel_step (y x0 : nat) (v : float) :
  (x0 < width)%nat ->
  get_noise (PyInt (Z.of_nat x0)) (PyInt (Z.of_nat y)) e = (Return v, e) ->
  pixel y x0 (filling e width height y x0) e = (Return (filling e width height y (S x0)), e).
Proof.
  intros Hx Hv. unfold pixel, bind, ret. rewrite Hv. f_equal. f_equal.
  unfold np_setitem, filling.
  rewrite nth_error_middle by (symmetry; apply filling_length_prefix).
  rewrite list_set_middle by (symmetry; apply filling_length_prefix).
  f_equal. f_equal.
  rewrite <- (filled_row_step y x0 Hx). unfold stored. rewrite Hv. reflexivity.
Qed.

Hypothesis pixels_return : forall y x, (y < height)%nat -> (x < width)%nat ->
  exists v, get_noise (PyInt (Z.of_nat x)) (PyInt (Z.of_nat y)) e = (Return v, e).

Lemma row_loop_spec (y : nat) (n x0 : nat) :
  (y < height)%nat -> (x0 + n = width)%nat ->
  row_loop n y x0 (filling e width height y x0) e = (Return (filling e width height y width), e).
Proof.
  intros Hy. revert x0. induction n as [| n IH]; intros x0 Hn; simpl.
  - replace x0 with width by lia. reflexivity.
  - destruct (pixels_return y x0 Hy ltac:(lia)) as [v Hv].
    unfold bind. rewrite (pixel_step y x0 v ltac:(lia) Hv). apply IH. lia.
Qed.

Lemma filling_start (y : nat) : (y < height)%nat -> filling e width height y 0 = filled_rows e width height y.
Proof.
  intros Hy. unfold filling, filled_rows, filled_row. simpl. rewrite Nat.sub_0_r.
  replace (height - y)%nat with (S (height - S y)) by lia. reflexivity.
Qed.

Lemma filling_end (y : nat) : filling e width height y width = filled_rows e width height (S y).
Proof.
  unfold filling, filled_rows, filled_row.
  rewrite Nat.sub_diag. simpl repeat. rewrite app_nil_r.
  rewrite seq_S, map_app. simpl. rewrite <- app_assoc. reflexivity.
Qed.

Lemma grid_loop_spec (n y0 : nat) :
  (y0 + n = height)%nat ->
  grid_loop n width y0 (filled_rows e width height y0) e = (Return (filled_rows e width height height), e).
Proof.
  revert y0. induction n as [| n IH]; intros y0 Hn; simpl.
  - replace y0 with height by lia. reflexivity.
  - unfold bind. rewrite <- (filling_start y0) by lia.
    rewrite (row_loop_spec y0 width 0) by lia.
    rewrite filling_end. apply IH. lia.
Qed.

(** The array that the two loops leave: row [y], column [x] holds the
    single-precision rounding of [(get_noise(x, y) + 1) * 0.5]. *)
Lemma sample_grid_spec :
  sample_grid width height e
  = (Return (map (fun y => map (stored e y) (seq 0 width)) (seq 0 height)), e).
Proof.
  unfold sample_grid.
  change (np_zeros height width) with (repeat (repeat 0.0%float width) height).
  replace (repeat (repeat 0.0%float width) height) with (filled_rows e width height 0)
    by (unfold filled_rows; simpl; rewrite Nat.sub_0_r; reflexivity).
  rewrite (grid_loop_spec height 0) by lia.
  unfold filled_rows. rewrite Nat.sub_diag. simpl repeat. rewrite app_nil_r.
  reflexivity.
Qed.

End Grid.

Lemma grid_lookup {A : Type} (f : nat -> nat -> A) (w h y x : nat) :
  (y < h)%nat -> (x < w)%nat ->
  exists row, nth_error (map (fun y' => map (f y') (seq 0 w)) (seq 0 h)) y = Some row
              /\ length row = w /\ nth_error row x = Some (f y x).
Proof.
  intros Hy Hx. exists (map (f y) (seq 0 w)). split; [ | split ].
  - rewrite nth_error_map, nth_error_seq.
    destruct (Nat.ltb_spec y h); [ reflexivity | lia ].
  - rewrite length_map, length_seq. reflexivity.
  - rewrite nth_error_map, nth_error_seq.
    destruct (Nat.ltb_spec x w); [ reflexivity | lia ].
Qed.

(** ** The script *)

Lemma configure_spec (e : Engine) :
  perlin_noise_generator.configure e = (Return tt, configured e).
Proof. reflexivity. Qed.

(** ** Magnitudes: numbers of absolute value at most a power of two *)

Lemma Prim2SF_pow2f (k : Z) :
  -1022 <= k <= 1023 ->
  Prim2SF (pow2f k) = S754_finite false 4503599627370496 (k - 52).
Proof.
  intros Hk. unfold pow2f. apply Prim2SF_SF2Prim.
  simpl. unfold bounded. apply andb_true_iff. split.
  - apply canonical_canonical_mantissa; [ reflexivity | apply canonical_pow2; lia ].
  - apply Z.leb_le. unfold emax, prec. lia.
Qed.

Lemma magb_mag (k : Z) (f : float) :
  -1022 <= k <= 1023 -> magb k f = true -> mag k (Prim2SF f).
Proof.
  intros Hk H. unfold magb in H. rewrite leb_spec, abs_spec, Prim2SF_pow2f in H by exact Hk.
  pose proof (Prim2SF_valid f) as Hv.
  destruct (Prim2SF f) as [s | s | | s m e]; try discriminate.
  - exists s. left. reflexivity.
  - apply (valid_finite prec emax) in Hv; [ | reflexivity ]. destruct Hv as [Hcan _].
    simpl SFabs in H.
    apply (SFleb_sf_le prec emax eq_refl m e _ _ Hcan (canonical_pow2 k ltac:(lia))) in H.
    exists s. right. exists m, e. split; [ reflexivity | ]. split; assumption.
Qed.

Lemma mag_magb (k : Z) (f : float) :
  -1022 <= k <= 1023 -> mag k (Prim2SF f) -> magb k f = true.
Proof.
  intros Hk [sx H]. unfold magb. rewrite leb_spec, abs_spec, Prim2SF_pow2f by exact Hk.
  destruct H as [-> | (m & e & -> & _ & Hle)].
  - reflexivity.
  - simpl SFabs. apply sf_le_SFleb. exact Hle.
Qed.

Lemma sf_le_weaken (m : positive) (e i k : Z) :
  i <= k -> sf_le m e 4503599627370496 (i - 52) -> sf_le m e 4503599627370496 (k - 52).
Proof.
  intros Hik [He Hm]. split; [ lia | ].
  apply Z.le_trans with (1 := Hm).
  apply Z.mul_le_mono_nonneg_l; [ lia | ]. apply pow2_le. lia.
Qed.

Lemma mag_weaken (i k : Z) (R : spec_float) : i <= k -> mag i R -> mag k R.
Proof.
  intros Hik [sx [-> | (m & e & -> & Hcan & Hle)]]; exists sx.
  - left. reflexivity.
  - right. exists m, e. split; [ reflexivity | ]. split; [ exact Hcan | ].
    apply (sf_le_weaken m e i k Hik Hle).
Qed.

(** An aligned mantissa of a number of magnitude at most [2^k]. *)
Lemma aligned_le (m : positive) (e ez k : Z) :
  ez <= e -> sf_le m e 4503599627370496 (k - 52) ->
  Zpos m * 2 ^ (e - ez) <= 2 ^ 52 * 2 ^ (k - 52 - ez).
Proof.
  intros Hez [He Hm].
  replace (k - 52 - ez) with ((k - 52 - e) + (e - ez)) by lia.
  rewrite pow2_split by lia. pose proof (pow2_pos (e - ez) ltac:(lia)).
  change (Zpos 4503599627370496) with (2 ^ 52) in Hm.
  rewrite Z.mul_assoc. apply Z.mul_le_mono_nonneg_r; lia.
Qed.

(** The sum or difference [S] of two aligned mantissas, normalized. *)
Lemma binary_normalize_mag (S ez k : Z) :
  -1022 <= k + 1 <= 1023 -> ez <= k - 52 ->
  Z.abs S <= 2 * (2 ^ 52 * 2 ^ (k - 52 - ez)) ->
  mag (k + 1) (binary_normalize prec emax S ez false).
Proof.
  intros Hk Hez HS.
  assert (Hle : forall p, Zpos p = Z.abs S ->
                  le_val p ez 4503599627370496 (k + 1 - 52)).
  { intros p Hp. unfold le_val. rewrite Z.min_l by lia. rewrite Z.sub_diag. simpl (2 ^ 0).
    replace (k + 1 - 52 - ez) with (Z.succ (k - 52 - ez)) by lia.
    rewrite Z.pow_succ_r by lia. change (Zpos 4503599627370496) with (2 ^ 52). lia. }
  unfold binary_normalize. destruct S as [| p | p].
  - exists false. left. reflexivity.
  - exists false. apply binary_round_below;
      [ reflexivity | apply canonical_pow2; lia | unfold emax, prec; lia | ].
    apply Hle. reflexivity.
  - exists true. apply binary_round_below;
      [ reflexivity | apply canonical_pow2; lia | unfold emax, prec; lia | ].
    apply Hle. reflexivity.
Qed.

Lemma cond_Zopp_abs (s : bool) (z : Z) : Z.abs (cond_Zopp s z) = Z.abs z.
Proof. destruct s; simpl; [ apply Z.abs_opp | reflexivity ]. Qed.

Lemma SFadd_mag (i j k : Z) (x y : spec_float) :
  i <= k -> j <= k -> -1022 <= k + 1 <= 1023 ->
  mag i x -> mag j y -> mag (k + 1) (SFadd prec emax x y).
Proof.
  intros Hi Hj Hk Hx Hy.
  assert (Hx' : mag (k + 1) x) by (apply (mag_weaken i); [ lia | exact Hx ]).
  assert (Hy' : mag (k + 1) y) by (apply (mag_weaken j); [ lia | exact Hy ]).
  destruct Hx as [sx [-> | (mx & ex & -> & Hcx & Hlx)]];
    destruct Hy as [sy [-> | (my & ey & -> & Hcy & Hly)]].
  - simpl. destruct sx, sy;
      first [ exists false; left; reflexivity | exists true; left; reflexivity ].
  - exact Hy'.
  - exact Hx'.
  - unfold SFadd. set (ez := Z.min ex ey).
    destruct (shl_align_spec mx ex ez) as (_ & Ha & _).
    destruct (shl_align_spec my ey ez) as (_ & Hb & _).
    rewrite (Z.min_r ex ez) in Ha by (unfold ez; lia).
    rewrite (Z.min_r ey ez) in Hb by (unfold ez; lia).
    pose proof (aligned_le mx ex ez k ltac:(unfold ez; lia)
                  (sf_le_weaken mx ex i k Hi Hlx)) as HA.
    pose proof (aligned_le my ey ez k ltac:(unfold ez; lia)
                  (sf_le_weaken my ey j k Hj Hly)) as HB.
    rewrite <- Ha in HA. rewrite <- Hb in HB.
    apply binary_normalize_mag; [ exact Hk | destruct Hlx, Hly; unfold ez; lia | ].
    apply Z.le_trans with (1 := Z.abs_triangle _ _).
    rewrite !cond_Zopp_abs. simpl Z.abs. lia.
Qed.

Lemma SFsub_mag (i j k : Z) (x y : spec_float) :
  i <= k -> j <= k -> -1022 <= k + 1 <= 1023 ->
  mag i x -> mag j y -> mag (k + 1) (SFsub prec emax x y).
Proof.
  intros Hi Hj Hk Hx Hy.
  assert (Hx' : mag (k + 1) x) by (apply (mag_weaken i); [ lia | exact Hx ]).
  assert (Hy' : mag (k + 1) y) by (apply (mag_weaken j); [ lia | exact Hy ]).
  destruct Hx as [sx [-> | (mx & ex & -> & Hcx & Hlx)]];
    destruct Hy as [sy [-> | (my & ey & -> & Hcy & Hly)]].
  - simpl. destruct sx, sy;
      first [ exists false; left; reflexivity | exists true; left; reflexivity ].
  - simpl. destruct Hy' as [sy' [Hz | (m & e & Heq & Hc & Hl)]]; [ discriminate | ].
    injection Heq as <- <- <-. exists (negb sy). right. exists my, ey.
    split; [ reflexivity | split; assumption ].
  - exact Hx'.
  - unfold SFsub. set (ez := Z.min ex ey).
    destruct (shl_align_spec mx ex ez) as (_ & Ha & _).
    destruct (shl_align_spec my ey ez) as (_ & Hb & _).
    rewrite (Z.min_r ex ez) in Ha by (unfold ez; lia).
    rewrite (Z.min_r ey ez) in Hb by (unfold ez; lia).
    pose proof (aligned_le mx ex ez k ltac:(unfold ez; lia)
                  (sf_le_weaken mx ex i k Hi Hlx)) as HA.
    pose proof (aligned_le my ey ez k ltac:(unfold ez; lia)
                  (sf_le_weaken my ey j k Hj Hly)) as HB.
    rewrite <- Ha in HA. rewrite <- Hb in HB.
    apply binary_normalize_mag; [ exact Hk | destruct Hlx, Hly; unfold ez; lia | ].
    rewrite <- Z.add_opp_r.
    apply Z.le_trans with (1 := Z.abs_triangle _ _).
    rewrite Z.abs_opp, !cond_Zopp_abs. simpl Z.abs. lia.
Qed.

Lemma digits2_pos_mul (mx my : positive) :
  Zpos (digits2_pos mx) + Zpos (digits2_pos my) - 1 <= Zpos (digits2_pos (mx * my)).
Proof.
  pose proof (digits2_pos_bounds mx) as [Hxl _].
  pose proof (digits2_pos_bounds my) as [Hyl _].
  pose proof (digits2_pos_bounds (mx * my)) as [_ Hpu].
  set (dx := Zpos (digits2_pos mx)) in *. set (dy := Zpos (digits2_pos my)) in *.
  set (D := Zpos (digits2_pos (mx * my))) in *.
  assert (Hdx : 1 <= dx) by (unfold dx; lia). assert (Hdy : 1 <= dy) by (unfold dy; lia).
  destruct (Z_le_gt_dec (dx + dy - 1) D) as [? | Hgt]; [ assumption | exfalso ].
  assert (H : 2 ^ D <= 2 ^ ((dx - 1) + (dy - 1))) by (apply pow2_le; unfold D; lia).
  rewrite pow2_split in H by lia. rewrite Pos2Z.inj_mul in Hpu.
  pose proof (pow2_pos (dx - 1) ltac:(lia)). pose proof (pow2_pos (dy - 1) ltac:(lia)).
  nia.
Qed.

(** A canonical mantissa that is not at the least exponent has all its
    digits. *)
Lemma canonical_digits (m : positive) (e : Z) :
  canonical prec emax m e ->
  Zpos (digits2_pos m) <= 53 /\ (e = -1074 \/ Zpos (digits2_pos m) = 53).
Proof.
  intros (He & Hu & Hc). unfold SpecFloat.emin, prec, emax in *.
  assert (Hd : Zpos (digits2_pos m) <= 53) by (apply digits2_pos_gt; lia).
  split; [ exact Hd | ].
  destruct Hc as [-> | Hl]; [ left; reflexivity | right ].
  pose proof (digits2_pos_bounds m) as [_ Hdu].
  destruct (Z_le_gt_dec 53 (Zpos (digits2_pos m))) as [? | Hgt]; [ lia | ].
  assert (2 ^ Zpos (digits2_pos m) <= 2 ^ 52) by (apply pow2_le; lia). lia.
Qed.

Lemma SFmul_mag (i j : Z) (x y : spec_float) :
  -1022 <= i + j <= 1023 ->
  mag i x -> mag j y -> mag (i + j) (SFmul prec emax x y).
Proof.
  intros Hk [sx [-> | (mx & ex & -> & Hcx & Hex & Hmx)]]
         [sy [-> | (my & ey & -> & Hcy & Hey & Hmy)]].
  - exists (xorb sx sy). left. reflexivity.
  - exists (xorb sx sy). left. reflexivity.
  - exists (xorb sx sy). left. reflexivity.
  - exists (xorb sx sy). unfold SFmul.
    destruct (canonical_digits mx ex Hcx) as [Hdx Hnx].
    destruct (canonical_digits my ey Hcy) as [Hdy Hny].
    pose proof (digits2_pos_mul mx my) as HD.
    assert (Hd1 : 1 <= Zpos (digits2_pos mx)) by lia.
    assert (Hd2 : 1 <= Zpos (digits2_pos my)) by lia.
    destruct Hcx as (Hexmin & _ & _). destruct Hcy as (Heymin & _ & _).
    unfold SpecFloat.emin, prec, emax in Hexmin, Heymin.
    apply binary_round_aux_below;
      [ reflexivity | | apply canonical_pow2; lia | unfold emax, prec; lia | ].
    + unfold SpecFloat.fexp, SpecFloat.emin, prec, emax.
      destruct Hnx as [-> | Hnx], Hny as [-> | Hny]; lia.
    + rewrite Pos2Z.inj_mul.
      change (Zpos 4503599627370496) with (2 ^ 52) in *.
      replace (i + j - 52 - (ex + ey)) with ((i - 52 - ex) + ((j - 52 - ey) + 52)) by lia.
      rewrite !pow2_split by lia.
      pose proof (pow2_pos (i - 52 - ex) ltac:(lia)).
      pose proof (pow2_pos (j - 52 - ey) ltac:(lia)).
      pose proof (pow2_pos 52 ltac:(lia)).
      nia.
Qed.

(** ** A quotient by a finite number other than zero is not NaN *)

Lemma iter_pos_shr_nonneg (p : positive) (r : shr_record) :
  0 <= shr_m r -> 0 <= shr_m (iter_pos shr_1 p r).
Proof.
  revert r. induction p as [p IH | p IH |]; intros r Hr; simpl iter_pos.
  - apply IH, IH. rewrite shr_1_m by exact Hr. apply Z.div_pos; lia.
  - apply IH, IH. exact Hr.
  - rewrite shr_1_m by exact Hr. apply Z.div_pos; lia.
Qed.

Lemma shr_nonneg (r : shr_record) (e n : Z) :
  0 <= shr_m r -> 0 <= shr_m (fst (shr r e n)).
Proof.
  intros Hr. unfold shr. destruct n; simpl fst; try exact Hr.
  apply iter_pos_shr_nonneg. exact Hr.
Qed.

Lemma shr_record_of_loc_m (m : Z) (l : location) : shr_m (shr_record_of_loc m l) = m.
Proof. destruct l as [| [ | | ]]; reflexivity. Qed.

Lemma round_nearest_even_nonneg (m : Z) (l : location) :
  0 <= m -> 0 <= round_nearest_even m l.
Proof.
  intros Hm. destruct l as [| [ | | ]]; simpl; try lia.
  destruct (Z.even m); lia.
Qed.

Lemma binary_round_aux_not_nan (pr em : Z) (sx : bool) (mx ex : Z) (lx : location) :
  0 <= mx -> binary_round_aux pr em sx mx ex lx <> S754_nan.
Proof.
  intros Hm. unfold binary_round_aux, shr_fexp.
  pose proof (shr_nonneg (shr_record_of_loc mx lx) ex
                (SpecFloat.fexp pr em (Zdigits2 mx + ex) - ex)) as H1.
  rewrite shr_record_of_loc_m in H1. specialize (H1 Hm).
  destruct (shr (shr_record_of_loc mx lx) ex _) as [r1 e1]. simpl fst in H1.
  set (m1 := round_nearest_even (shr_m r1) (loc_of_shr_record r1)).
  assert (Hm1 : 0 <= m1) by (apply round_nearest_even_nonneg; exact H1).
  pose proof (shr_nonneg (shr_record_of_loc m1 loc_Exact) e1
                (SpecFloat.fexp pr em (Zdigits2 m1 + e1) - e1)) as H2.
  rewrite shr_record_of_loc_m in H2. specialize (H2 Hm1).
  destruct (shr (shr_record_of_loc m1 loc_Exact) e1 _) as [r2 e2]. simpl fst in H2.
  destruct (shr_m r2) as [| p | p]; try lia; try discriminate.
  destruct (e2 <=? em - pr); discriminate.
Qed.

Lemma SFdiv_not_nan (k : Z) (x : spec_float) (s : bool) (m : positive) (e : Z) :
  mag k x -> SFdiv prec emax x (S754_finite s m e) <> S754_nan.
Proof.
  intros [sx [-> | (mx & ex & -> & _)]]; [ discriminate | ].
  unfold SFdiv, SFdiv_core_binary.
  set (m' := match _ - _ - _ with Z0 => Zpos mx | Zpos _ => Z.shiftl (Zpos mx) _
                                  | Zneg _ => 0 end).
  assert (Hm' : 0 <= m').
  { unfold m'. destruct (_ - _ - _); try lia. apply Z.shiftl_nonneg. lia. }
  pose proof (Z_div_mod m' (Zpos m) ltac:(lia)) as Hdiv.
  destruct (Z.div_eucl m' (Zpos m)) as [q r]. 
  apply binary_round_aux_not_nan. destruct Hdiv as [Heq Hr]. nia.
Qed.

(** ** Magnitudes of float operations *)

Lemma magb_add (i j k : Z) (a b : float) :
  i <= k -> j <= k -> -1022 <= i -> -1022 <= j -> k + 1 <= 1023 ->
  magb i a = true -> magb j b = true -> magb (k + 1) (a + b)%float = true.
Proof.
  intros Hi Hj Hi0 Hj0 Hk Ha Hb.
  apply mag_magb; [ lia | ]. rewrite add_spec. unfold SF64add.
  apply (SFadd_mag i j k); try lia; apply magb_mag; try lia; assumption.
Qed.

Lemma magb_sub (i j k : Z) (a b : float) :
  i <= k -> j <= k -> -1022 <= i -> -1022 <= j -> k + 1 <= 1023 ->
  magb i a = true -> magb j b = true -> magb (k + 1) (a - b)%float = true.
Proof.
  intros Hi Hj Hi0 Hj0 Hk Ha Hb.
  apply mag_magb; [ lia | ]. rewrite sub_spec. unfold SF64sub.
  apply (SFsub_mag i j k); try lia; apply magb_mag; try lia; assumption.
Qed.

Lemma magb_mul (i j : Z) (a b : float) :
  -1022 <= i <= 1023 -> -1022 <= j <= 1023 -> -1022 <= i + j <= 1023 ->
  magb i a = true -> magb j b = true -> magb (i + j) (a * b)%float = true.
Proof.
  intros Hi Hj Hk Ha Hb.
  apply mag_magb; [ lia | ]. rewrite mul_spec. unfold SF64mul.
  apply (SFmul_mag i j); try lia; apply magb_mag; try lia; assumption.
Qed.

Lemma magb_div_not_nan (k : Z) (a c : float) (s : bool) (m : positive) (e : Z) :
  -1022 <= k <= 1023 -> magb k a = true -> Prim2SF c = S754_finite s m e ->
  is_nan (a / c)%float = false.
Proof.
  intros Hk Ha Hc. apply is_nan_false_spec. rewrite div_spec, Hc. unfold SF64div.
  apply (SFdiv_not_nan k). apply magb_mag; assumption.
Qed.

(** ** The noise of the script is a number *)

Lemma magb_zero (k : Z) : -1022 <= k <= 1023 -> magb k 0.0%float = true.
Proof.
  intros Hk. apply mag_magb; [ exact Hk | ]. rewrite Prim2SF_zero.
  exists false. left. reflexivity.
Qed.

Lemma grad_entries_mag (i : Z) :
  0 <= i < 8 ->
  exists g g0 g1, py_getitem GRAD2 i = Return g
                  /\ float_of_int (fst g) = Return g0
                  /\ float_of_int (snd g) = Return g1
                  /\ magb 0 g0 = true /\ magb 0 g1 = true.
Proof.
  intros Hi.
  assert (Hc : i = 0 \/ i = 1 \/ i = 2 \/ i = 3 \/ i = 4 \/ i = 5 \/ i = 6 \/ i = 7) by lia.
  destruct Hc as [-> | [-> | [-> | [-> | [-> | [-> | [-> | ->]]]]]]];
    do 3 eexists; repeat split; vm_compute; reflexivity.
Qed.

Lemma grad_bounded (e : Engine) (h : Z) (a b : float) :
  engine_okb e = true -> magb 1 a = true -> magb 1 b = true ->
  exists v, _grad h a b e = (Return v, e) /\ magb 2 v = true.
Proof.
  intros Hok Ha Hb. unfold _grad, bind, get, lift, ret.
  rewrite (engine_okb_grad2 e Hok).
  destruct (grad_entries_mag (Z.land h 7) (land_7_bounds h))
    as (g & g0 & g1 & Hg & H0 & H1 & M0 & M1).
  rewrite Hg, H0, H1. eexists. split; [ reflexivity | ].
  apply (magb_add 1 1 1); try lia.
  - apply (magb_mul 0 1); try lia; assumption.
  - apply (magb_mul 0 1); try lia; assumption.
Qed.

Lemma lerp_bounded (i : Z) (a b t : float) :
  0 <= i -> i + 2 <= 1023 ->
  magb i a = true -> magb i b = true -> magb 0 t = true ->
  magb (i + 2) (_lerp a b t) = true.
Proof.
  intros Hi0 Hi Ha Hb Ht. unfold _lerp.
  replace (i + 2) with ((i + 1) + 1) by lia.
  apply (magb_add i (i + 1) (i + 1)); try lia; [ exact Ha | ].
  replace (i + 1) with (0 + (i + 1)) at 1 by lia.
  apply (magb_mul 0 (i + 1)); try lia; [ exact Ht | ].
  apply (magb_sub i i i); try lia; assumption.
Qed.

Lemma perlin2_bounded (e : Engine) (x y : float) :
  engine_okb e = true -> axis_okb x = true -> axis_okb y = true ->
  exists v, _perlin2 x y e = (Return v, e) /\ magb 6 v = true.
Proof.
  intros Hok Hx Hy. unfold axis_okb in Hx, Hy.
  destruct (math_floor x) as [xi |] eqn:Hxi; [ | discriminate ].
  destruct (float_of_int xi) as [xif |] eqn:Hxif; [ | discriminate ].
  destruct (math_floor y) as [yi |] eqn:Hyi; [ | discriminate ].
  destruct (float_of_int yi) as [yif |] eqn:Hyif; [ | discriminate ].
  cbv zeta in Hx, Hy.
  apply andb_true_iff in Hx as [Hx Hu]. apply andb_true_iff in Hx as [Hxf Hxf1].
  apply andb_true_iff in Hy as [Hy Hv]. apply andb_true_iff in Hy as [Hyf Hyf1].
  unfold _perlin2.
  unfold bind at 1. unfold lift at 1. rewrite Hxi.
  unfold bind at 1. unfold lift at 1. rewrite Hyi.
  unfold bind at 1. unfold lift at 1. rewrite Hxif.
  unfold bind at 1. unfold lift at 1. rewrite Hyif.
  destruct (perm_hash_total e xi yi Hok) as [h00 H00].
  destruct (perm_hash_total e (xi + 1) yi Hok) as [h10 H10].
  destruct (perm_hash_total e xi (yi + 1) Hok) as [h01 H01].
  destruct (perm_hash_total e (xi + 1) (yi + 1) Hok) as [h11 H11].
  rewrite (bind_return _ _ _ _ _ H00), (bind_return _ _ _ _ _ H10),
    (bind_return _ _ _ _ _ H01), (bind_return _ _ _ _ _ H11).
  set (xf := (x - xif)%float) in *. set (yf := (y - yif)%float) in *.
  destruct (grad_bounded e h00 xf yf Hok Hxf Hyf) as [n00 [G00 M00]].
  destruct (grad_bounded e h10 (xf - 1.0)%float yf Hok Hxf1 Hyf) as [n10 [G10 M10]].
  destruct (grad_bounded e h01 xf (yf - 1.0)%float Hok Hxf Hyf1) as [n01 [G01 M01]].
  destruct (grad_bounded e h11 (xf - 1.0)%float (yf - 1.0)%float Hok Hxf1 Hyf1)
    as [n11 [G11 M11]].
  rewrite (bind_return _ _ _ _ _ G00), (bind_return _ _ _ _ _ G10),
    (bind_return _ _ _ _ _ G01), (bind_return _ _ _ _ _ G11).
  eexists. split; [ reflexivity | ].
  apply (lerp_bounded 4); try lia; try assumption.
  - apply (lerp_bounded 2); try lia; assumption.
  - apply (lerp_bounded 2); try lia; assumption.
Qed.

Lemma weighted_sum_bounded (e : Engine) (x y : float) (K : Z) (n : nat) :
  0 <= K -> K + Z.of_nat n <= 1023 ->
  (forall i, (i < n)%nat ->
     exists v, perlin2 e (x * fpow (lacunarity e) i)%float
                         (y * fpow (lacunarity e) i)%float = Return v
               /\ magb K v = true) ->
  (forall i, (i < n)%nat -> magb 0 (fpow (gain e) i) = true) ->
  exists t, weighted_sum e x y n = Return t /\ magb (K + Z.of_nat n) t = true.
Proof.
  intros HK. induction n as [| n IH]; intros Hn Hv Hg.
  - exists 0.0%float. split; [ reflexivity | ]. apply magb_zero. lia.
  - destruct IH as [acc [Hacc Macc]]; try lia.
    + intros i Hi. apply Hv. lia.
    + intros i Hi. apply Hg. lia.
    + destruct (Hv n ltac:(lia)) as [v [Hpv Mv]].
      simpl weighted_sum. rewrite Hacc, Hpv.
      eexists. split; [ reflexivity | ].
      replace (K + Z.of_nat (S n)) with ((K + Z.of_nat n) + 1) by lia.
      apply (magb_add (K + Z.of_nat n) K (K + Z.of_nat n)); try lia; [ exact Macc | ].
      replace K with (0 + K) at 1 by lia.
      apply (magb_mul 0 K); try lia; [ apply Hg; lia | exact Mv ].
Qed.

Lemma indices_axis_ok : forallb index_axis_okb (seq 0 550) = true.
Proof. vm_compute. reflexivity. Qed.

Lemma script_gains_ok :
  forallb (fun i => magb 0 (fpow perlin_noise_generator.GAIN i)) (seq 0 5) = true.
Proof. vm_compute. reflexivity. Qed.

Lemma script_amplitude_sum :
  (amplitude_sum perlin_noise_generator.GAIN 5 =? 0)%float = false
  /\ exists s m e, Prim2SF (amplitude_sum perlin_noise_generator.GAIN 5)
                   = S754_finite s m e.
Proof. split; [ vm_compute; reflexivity | ]. vm_compute. do 3 eexists. reflexivity. Qed.

Lemma index_axis_ok (n i : nat) :
  (n < 550)%nat -> (i < 5)%nat ->
  exists f, float_of_int (Z.of_nat n) = Return f
            /\ axis_okb ((f * perlin_noise_generator.FREQ)
                         * fpow perlin_noise_generator.LACUNARITY i)%float = true.
Proof.
  intros Hn Hi.
  pose proof (proj1 (forallb_forall _ _) indices_axis_ok n) as H.
  assert (Hin : In n (seq 0 550)) by (apply in_seq; lia).
  specialize (H Hin). unfold index_axis_okb in H.
  destruct (float_of_int (Z.of_nat n)) as [f | err]; [ | discriminate ].
  exists f. split; [ reflexivity | ].
  apply (proj1 (forallb_forall _ _) H i). apply in_seq. lia.
Qed.

(** On the instance of the script every pixel has a noise value, and it lies
    in [[-1, 1]]. *)
Lemma script_pixel_range (e : Engine) (y x : nat) :
  engine_okb e = true -> (y < 500)%nat -> (x < 550)%nat ->
  exists v, get_noise (PyInt (Z.of_nat x)) (PyInt (Z.of_nat y)) (configured e)
            = (Return v, configured e)
            /\ in_unit_range v = true.
Proof.
  intros Hok Hy Hx.
  assert (Hokc : engine_okb (configured e) = true) by exact Hok.
  destruct (index_axis_ok x 0 Hx ltac:(lia)) as [xf [Hxf _]].
  destruct (index_axis_ok y 0 ltac:(lia) ltac:(lia)) as [yf [Hyf _]].
  destruct (weighted_sum_bounded (configured e)
              (xf * perlin_noise_generator.FREQ)%float
              (yf * perlin_noise_generator.FREQ)%float 6 5) as [t [Ht Mt]]; try lia.
  - intros i Hi.
    destruct (index_axis_ok x i Hx Hi) as [xf' [Hxf' Hax]].
    destruct (index_axis_ok y i ltac:(lia) Hi) as [yf' [Hyf' Hay]].
    rewrite Hxf in Hxf'. injection Hxf' as <-.
    rewrite Hyf in Hyf'. injection Hyf' as <-.
    destruct (perlin2_bounded (configured e) _ _ Hokc Hax Hay) as [v [Hv Mv]].
    exists v. split; [ | exact Mv ]. unfold perlin2.
    change (lacunarity (configured e)) with perlin_noise_generator.LACUNARITY.
    rewrite Hv. reflexivity.
  - intros i Hi. apply (proj1 (forallb_forall _ _) script_gains_ok i).
    apply in_seq. lia.
  - destruct script_amplitude_sum as [Hnz (s & m & e' & HA)].
    set (A := amplitude_sum perlin_noise_generator.GAIN 5) in *.
    assert (Hg : get_noise (PyInt (Z.of_nat x)) (PyInt (Z.of_nat y)) (configured e)
                 = (Return (clamp (t / A)%float), configured e)).
    { rewrite get_noise_unfold. unfold bind, lift, ret.
      change (py_float (PyInt (Z.of_nat x))) with (float_of_int (Z.of_nat x)).
      change (py_float (PyInt (Z.of_nat y))) with (float_of_int (Z.of_nat y)).
      rewrite Hxf, Hyf, perlin_fractal_guarded. unfold fractal_guarded.
      change (frequency (configured e)) with perlin_noise_generator.FREQ.
      change (Z.to_nat (octaves (configured e))) with 5%nat.
      change (gain (configured e)) with perlin_noise_generator.GAIN.
      rewrite Ht. fold A. rewrite Hnz. reflexivity. }
    eexists. split; [ exact Hg | ].
    apply clamp_in_unit_range.
    apply (magb_div_not_nan 11 t A s m e'); [ lia | exact Mt | exact HA ].
Qed.

(** ** The samples of the script *)

Section Script.

Import perlin_noise_generator.

Variable shuffle : Z -> list Z -> list Z.
Hypothesis shuffle_perm : forall s l, Permutation l (shuffle s l).

(** C9, as the code has it: for every seed the two loops complete, and for
    every row [y] below the height and column [x] below the width the array
    holds at row [y], column [x] the single-precision rounding (the array is
    of [dtype=np.float32]) of [(get_noise(x, y) + 1) * 0.5], where
    [get_noise] receives the pixel indices themselves and applies the
    frequency once; [get_noise] returns a value in [[-1, 1]] there, and every
    stored sample lies in [[0, 1]]. *)
Theorem sampling_driver_samples (seed0 : Z) :
  let e := snd (configure (__init__ shuffle seed0)) in
  exists data,
    script shuffle seed0 = (Return data, e)
    /\ length data = HEIGHT
    /\ forall y x, (y < HEIGHT)%nat -> (x < WIDTH)%nat ->
       exists v row,
         get_noise (PyInt (Z.of_nat x)) (PyInt (Z.of_nat y)) e = (Return v, e)
         /\ nth_error data y = Some row
         /\ length row = WIDTH
         /\ nth_error row x = Some (to_float32 ((v + 1) * 0.5)%float)
         /\ in_unit_range v = true
         /\ in_zero_one (to_float32 ((v + 1) * 0.5)%float) = true.
Proof.
  intros e.
  set (e0 := __init__ shuffle seed0) in *.
  assert (He : e = configured e0) by reflexivity.
  assert (Hok : engine_okb e0 = true)
    by (apply (build_perm_table_okb shuffle shuffle_perm)).
  assert (Hpix : forall y x, (y < HEIGHT)%nat -> (x < WIDTH)%nat ->
            exists v, get_noise (PyInt (Z.of_nat x)) (PyInt (Z.of_nat y)) e = (Return v, e)).
  { intros y x Hy Hx. rewrite He.
    destruct (script_pixel_range e0 y x Hok Hy Hx) as [v [Hv _]]. exists v. exact Hv. }
  exists (map (fun y => map (stored e y) (seq 0 WIDTH)) (seq 0 HEIGHT)).
  split; [ | split ].
  - unfold script. fold e0. unfold bind. rewrite configure_spec. rewrite <- He.
    apply sample_grid_spec. exact Hpix.
  - rewrite length_map, length_seq. reflexivity.
  - intros y x Hy Hx.
    destruct (grid_lookup (stored e) WIDTH HEIGHT y x Hy Hx) as (row & Hrow & Hlen & Hnth).
    assert (Hv : exists v, get_noise (PyInt (Z.of_nat x)) (PyInt (Z.of_nat y)) e = (Return v, e)
                           /\ in_unit_range v = true).
    { rewrite He. apply (script_pixel_range e0 y x Hok Hy Hx). }
    destruct Hv as (v & Hv & Hrange).
    exists v, row. split; [ exact Hv | ]. split; [ exact Hrow | ].
    split; [ exact Hlen | ]. split.
    + rewrite Hnth. unfold stored. rewrite Hv. reflexivity.
    + split; [ exact Hrange | apply stored_sample_range; exact Hrange ].
Qed.

End Script.

Lemma sampling_driver_samples_witness :
  let e := snd (perlin_noise_generator.configure (__init__ lcg_shuffle 1337)) in
  exists data,
    perlin_noise_generator.script lcg_shuffle 1337 = (Return data, e)
    /\ length data = perlin_noise_generator.HEIGHT
    /\ forall y x, (y < perlin_noise_generator.HEIGHT)%nat ->
                   (x < perlin_noise_generator.WIDTH)%nat ->
       exists v row,
         get_noise (PyInt (Z.of_nat x)) (PyInt (Z.of_nat y)) e = (Return v, e)
         /\ nth_error data y = Some row
         /\ length row = perlin_noise_generator.WIDTH
         /\ nth_error row x
            = Some (perlin_noise_generator.to_float32 ((v + 1) * 0.5)%float)
         /\ in_unit_range v = true
         /\ in_zero_one (perlin_noise_generator.to_float32 ((v + 1) * 0.5)%float) = true.
Proof. exact (sampling_driver_samples lcg_shuffle lcg_shuffle_perm 1337). Defined.

(** For the seed 1337 the value of [get_noise(1, 1)] is
    8.9493734650093951e-05; [(v + 1) * 0.5] is 0.50004474686732503, and the
    array holds 0.50004476308822632, the nearest single-precision number. *)
Lemma script_sample_rounded :
  exists data,
    perlin_noise_generator.script lcg_shuffle 1337 = (Return data, script_engine)
    /\ fst (get_noise (PyInt 1) (PyInt 1) script_engine)
       = Return 8.9493734650093951e-05%float
    /\ ((8.9493734650093951e-05 + 1) * 0.5)%float = 0.50004474686732503%float
    /\ sample_at data 1 1 = Some 0.50004476308822632%float
    /\ PrimFloat.Leibniz.eqb 0.50004476308822632 0.50004474686732503 = false.
Proof.
  assert (Hok : engine_okb example_engine = true) by (vm_compute; reflexivity).
  assert (He : script_engine = configured example_engine) by reflexivity.
  exists (map (fun y => map (stored script_engine y) (seq 0 perlin_noise_generator.WIDTH))
              (seq 0 perlin_noise_generator.HEIGHT)).
  split; [ | split; [ | split; [ | split ] ] ].
  - unfold perlin_noise_generator.script. fold example_engine.
    unfold bind. rewrite configure_spec. rewrite <- He.
    apply sample_grid_spec. intros y x Hy Hx. rewrite He.
    destruct (script_pixel_range example_engine y x Hok Hy Hx) as [v [Hv _]].
    exists v. exact Hv.
  - vm_compute. reflexivity.
  - vm_compute. reflexivity.
  - unfold sample_at.
    destruct (grid_lookup (stored script_engine) perlin_noise_generator.WIDTH
                perlin_noise_generator.HEIGHT 1 1)
      as (row & Hrow & _ & Hnth);
      [ unfold perlin_noise_generator.HEIGHT; lia
      | unfold perlin_noise_generator.WIDTH; lia | ].
    rewrite Hrow, Hnth. vm_compute. reflexivity.
  - vm_compute. reflexivity.
Qed.

(** * Further properties of the code *)

(** ** The corner hash and the gradients *)

Lemma land_255_period (x j : Z) : Z.land (x + 256 * j) 255 = Z.land x 255.
Proof.
  rewrite !land_255. rewrite (Z.mul_comm 256 j). apply Z.mod_add. lia.
Qed.

Lemma land_7 (x : Z) : Z.land x 7 = x mod 8.
Proof. change 7 with (Z.ones 3). rewrite Z.land_ones by lia. reflexivity. Qed.

(** X1: [_perm_hash] repeats with period 256 in each of its two arguments,
    on every instance: shifting [ix] or [iy] by a multiple of 256 (negative
    multiples included) leaves the outcome unchanged, and the outcome is that
    for the arguments reduced modulo 256. *)
Theorem perm_hash_period (e : Engine) (ix iy j k : Z) :
  _perm_hash (ix + 256 * j) (iy + 256 * k) e = _perm_hash ix iy e
  /\ _perm_hash ix iy e = _perm_hash (ix mod 256) (iy mod 256) e.
Proof.
  split.
  - unfold _perm_hash. rewrite !land_255_period. reflexivity.
  - unfold _perm_hash. rewrite !land_255. rewrite !Z.mod_mod by lia. reflexivity.
Qed.

Lemma grad_value (e : Engine) (h : Z) (x y : float) :
  grad2 e = GRAD2 ->
  exists g, nth_error GRAD2 (Z.to_nat (h mod 8)) = Some g
            /\ _grad h x y e = (Return (grad_dot g x y), e).
Proof.
  intros Hg. unfold _grad, bind, get, lift, ret. rewrite Hg, land_7.
  assert (Hb : 0 <= h mod 8 < 8) by (apply Z.mod_pos_bound; lia).
  assert (Hc : h mod 8 = 0 \/ h mod 8 = 1 \/ h mod 8 = 2 \/ h mod 8 = 3
               \/ h mod 8 = 4 \/ h mod 8 = 5 \/ h mod 8 = 6 \/ h mod 8 = 7) by lia.
  destruct Hc as [Hc|[Hc|[Hc|[Hc|[Hc|[Hc|[Hc|Hc]]]]]]]; rewrite Hc;
    eexists; (split; [ reflexivity | reflexivity ]).
Qed.

(** X2: [_grad] reads its hash through the three low bits only: hashes that
    differ by a multiple of 8 give the same outcome, a negative hash included,
    and with the gradients of the construction the outcome is the dot product
    with the gradient numbered [hash_val mod 8], never an [IndexError]. *)
Theorem grad_low_bits (e : Engine) (h k : Z) (x y : float) :
  _grad (h + 8 * k) x y e = _grad h x y e
  /\ _grad h x y e = _grad (h mod 8) x y e
  /\ (grad2 e = GRAD2 ->
      exists g, nth_error GRAD2 (Z.to_nat (h mod 8)) = Some g
                /\ _grad h x y e = (Return (grad_dot g x y), e)).
Proof.
  split; [ | split ].
  - unfold _grad. rewrite !land_7. rewrite (Z.mul_comm 8 k), Z.mod_add by lia. reflexivity.
  - unfold _grad. rewrite !land_7. rewrite Z.mod_mod by lia. reflexivity.
  - apply grad_value.
Qed.

Lemma grad_low_bits_witness :
  exists g, nth_error GRAD2 (Z.to_nat (-3 mod 8)) = Some g
            /\ _grad (-3) 0.5 0.25 example_engine
               = (Return (grad_dot g 0.5 0.25), example_engine).
Proof.
  destruct (grad_low_bits example_engine (-3) 0 0.5 0.25) as (_ & _ & H).
  apply H. vm_compute. reflexivity.
Defined.

(** ** Coordinates that are not finite *)

Lemma is_infinity_spec (f : float) :
  is_infinity f = true -> exists s, Prim2SF f = S754_infinity s.
Proof.
  unfold is_infinity. rewrite eqb_spec, abs_spec, Prim2SF_infinity.
  destruct (Prim2SF f) as [s | s | | s m e]; simpl; try discriminate.
  intros _. exists s. reflexivity.
Qed.

Lemma not_finite_cases (f : float) :
  is_finite f = false -> is_nan f = true \/ is_infinity f = true.
Proof.
  unfold is_finite. intros H. apply negb_false_iff, orb_true_iff in H. exact H.
Qed.

Lemma math_floor_nan (x : float) : is_nan x = true -> math_floor x = Raise ValueError.
Proof. intros H. apply is_nan_spec in H. unfold math_floor. rewrite H. reflexivity. Qed.

Lemma math_floor_infinity (x : float) :
  is_infinity x = true -> math_floor x = Raise OverflowError.
Proof.
  intros H. apply is_infinity_spec in H as [s H]. unfold math_floor. rewrite H. reflexivity.
Qed.

Lemma perlin2_raise_x (e : Engine) (x y : float) (err : exn) :
  math_floor x = Raise err -> _perlin2 x y e = (Raise err, e).
Proof. intros H. unfold _perlin2, bind, lift. rewrite H. reflexivity. Qed.

Lemma perlin2_raise_y (e : Engine) (x y : float) (err : exn) :
  is_finite x = true -> math_floor y = Raise err -> _perlin2 x y e = (Raise err, e).
Proof.
  intros Hx H. destruct (math_floor_finite x Hx) as (xi & xif & Hxi & Hxif).
  unfold _perlin2, bind, lift. rewrite Hxi, H. reflexivity.
Qed.

(** X3: on an instance with a valid table [_perlin2] returns exactly when
    both coordinates are finite. Otherwise it raises what [math.floor]
    raises, [ValueError] on a NaN and [OverflowError] on an infinity, the [x]
    coordinate being floored first, and leaves the instance unchanged. *)
Theorem perlin2_returns_iff_finite (e : Engine) (x y : float) :
  engine_okb e = true ->
  ((exists v, _perlin2 x y e = (Return v, e))
   <-> is_finite x && is_finite y = true)
  /\ (is_nan x = true -> _perlin2 x y e = (Raise ValueError, e))
  /\ (is_infinity x = true -> _perlin2 x y e = (Raise OverflowError, e))
  /\ (is_finite x = true -> is_nan y = true ->
      _perlin2 x y e = (Raise ValueError, e))
  /\ (is_finite x = true -> is_infinity y = true ->
      _perlin2 x y e = (Raise OverflowError, e)).
Proof.
  intros Hok.
  assert (Hnx : is_nan x = true -> _perlin2 x y e = (Raise ValueError, e)).
  { intros H. apply perlin2_raise_x, math_floor_nan, H. }
  assert (Hix : is_infinity x = true -> _perlin2 x y e = (Raise OverflowError, e)).
  { intros H. apply perlin2_raise_x, math_floor_infinity, H. }
  assert (Hny : is_finite x = true -> is_nan y = true ->
                _perlin2 x y e = (Raise ValueError, e)).
  { intros Hx H. apply perlin2_raise_y; [ exact Hx | apply math_floor_nan, H ]. }
  assert (Hiy : is_finite x = true -> is_infinity y = true ->
                _perlin2 x y e = (Raise OverflowError, e)).
  { intros Hx H. apply perlin2_raise_y; [ exact Hx | apply math_floor_infinity, H ]. }
  split; [ | tauto ].
  split.
  - intros [v Hv].
    destruct (is_finite x) eqn:Hx.
    + destruct (is_finite y) eqn:Hy; [ reflexivity | ].
      destruct (not_finite_cases y Hy) as [H | H];
        [ rewrite (Hny eq_refl H) in Hv | rewrite (Hiy eq_refl H) in Hv ]; discriminate.
    + destruct (not_finite_cases x Hx) as [H | H];
        [ rewrite (Hnx H) in Hv | rewrite (Hix H) in Hv ]; discriminate.
  - intros H. apply andb_true_iff in H as [Hx Hy]. apply perlin2_total; assumption.
Qed.

Lemma perlin2_returns_iff_finite_witness :
  exists v, _perlin2 2.5 (-0.75) example_engine = (Return v, example_engine).
Proof.
  assert (H : engine_okb example_engine = true) by (vm_compute; reflexivity).
  apply (proj2 (proj1 (perlin2_returns_iff_finite example_engine 2.5 (-0.75) H))).
  vm_compute. reflexivity.
Defined.

Lemma is_infinity_of_spec (f : float) (s : bool) :
  Prim2SF f = S754_infinity s -> is_infinity f = true.
Proof.
  intros H. unfold is_infinity. rewrite eqb_spec, abs_spec, Prim2SF_infinity, H.
  reflexivity.
Qed.

Lemma is_finite_false_spec (f : float) :
  is_finite f = false <->
  Prim2SF f = S754_nan \/ exists s, Prim2SF f = S754_infinity s.
Proof.
  split.
  - intros H. destruct (not_finite_cases f H) as [Hn | Hi].
    + left. apply is_nan_spec, Hn.
    + right. apply is_infinity_spec, Hi.
  - intros [Hn | [s Hi]]; unfold is_finite; apply negb_false_iff, orb_true_iff.
    + left. apply is_nan_spec, Hn.
    + right. apply (is_infinity_of_spec f s Hi).
Qed.



Lemma math_floor_not_finite (x : float) :
  is_finite x = false ->
  exists err, math_floor x = Raise err /\ (err = ValueError \/ err = OverflowError).
Proof.
  intros H. destruct (not_finite_cases x H) as [Hn | Hi].
  - exists ValueError. split; [ apply math_floor_nan, Hn | left; reflexivity ].
  - exists OverflowError. split; [ apply math_floor_infinity, Hi | right; reflexivity ].
Qed.





(** ** The corners of the cells *)

Lemma perlin2_value (e : Engine) (x y : float) (xi yi : Z) (xif yif : float) :
  engine_okb e = true ->
  math_floor x = Return xi -> math_floor y = Return yi ->
  float_of_int xi = Return xif -> float_of_int yi = Return yif ->
  exists g00 g10 g01 g11,
    In g00 GRAD2 /\ In g10 GRAD2 /\ In g01 GRAD2 /\ In g11 GRAD2
    /\ _perlin2 x y e
       = (Return (corner_blend g00 g10 g01 g11 (x - xif) (y - yif)), e).
Proof.
  intros Hok Hxi Hyi Hxif Hyif. unfold _perlin2.
  unfold bind at 1. unfold lift at 1. rewrite Hxi.
  unfold bind at 1. unfold lift at 1. rewrite Hyi.
  unfold bind at 1. unfold lift at 1. rewrite Hxif.
  unfold bind at 1. unfold lift at 1. rewrite Hyif.
  destruct (perm_hash_total e xi yi Hok) as [h00 H00].
  destruct (perm_hash_total e (xi + 1) yi Hok) as [h10 H10].
  destruct (perm_hash_total e xi (yi + 1) Hok) as [h01 H01].
  destruct (perm_hash_total e (xi + 1) (yi + 1) Hok) as [h11 H11].
  rewrite (bind_return _ _ _ _ _ H00), (bind_return _ _ _ _ _ H10),
    (bind_return _ _ _ _ _ H01), (bind_return _ _ _ _ _ H11).
  set (xf := (x - xif)%float). set (yf := (y - yif)%float).
  pose proof (engine_okb_grad2 e Hok) as Hg.
  destruct (grad_value e h00 xf yf Hg) as (g00 & N00 & G00).
  destruct (grad_value e h10 (xf - 1.0)%float yf Hg) as (g10 & N10 & G10).
  destruct (grad_value e h01 xf (yf - 1.0)%float Hg) as (g01 & N01 & G01).
  destruct (grad_value e h11 (xf - 1.0)%float (yf - 1.0)%float Hg) as (g11 & N11 & G11).
  rewrite (bind_return _ _ _ _ _ G00), (bind_return _ _ _ _ _ G10),
    (bind_return _ _ _ _ _ G01), (bind_return _ _ _ _ _ G11).
  exists g00, g10, g01, g11.
  repeat (split; [ eapply nth_error_In; eassumption | ]).
  reflexivity.
Qed.

(** At a corner of a cell the interpolation is a zero, whatever the four
    gradients and the signs of the zero offsets. *)
Lemma corner_zero_all :
  forallb (fun g00 => forallb (fun g10 => forallb (fun g01 => forallb (fun g11 =>
    forallb (fun xf => forallb (fun yf =>
      (corner_blend g00 g10 g01 g11 xf yf =? 0)%float)
      [0.0%float; (-0.0)%float]) [0.0%float; (-0.0)%float])
    GRAD2) GRAD2) GRAD2) GRAD2 = true.
Proof. vm_compute. reflexivity. Qed.

Lemma corner_zero (g00 g10 g01 g11 : Z * Z) (xf yf : float) :
  In g00 GRAD2 -> In g10 GRAD2 -> In g01 GRAD2 -> In g11 GRAD2 ->
  In xf [0.0%float; (-0.0)%float] -> In yf [0.0%float; (-0.0)%float] ->
  (corner_blend g00 g10 g01 g11 xf yf =? 0)%float = true.
Proof.
  intros H00 H10 H01 H11 Hx Hy.
  pose proof corner_zero_all as H.
  rewrite forallb_forall in H. specialize (H g00 H00). cbv beta in H.
  rewrite forallb_forall in H. specialize (H g10 H10). cbv beta in H.
  rewrite forallb_forall in H. specialize (H g01 H01). cbv beta in H.
  rewrite forallb_forall in H. specialize (H g11 H11). cbv beta in H.
  rewrite forallb_forall in H. specialize (H xf Hx). cbv beta in H.
  rewrite forallb_forall in H. exact (H yf Hy).
Qed.

Lemma SFeqb_finite (s1 s2 : bool) (m1 m2 : positive) (e1 e2 : Z) :
  SFeqb (S754_finite s1 m1 e1) (S754_finite s2 m2 e2) = true ->
  s1 = s2 /\ m1 = m2 /\ e1 = e2.
Proof.
  unfold SFeqb, SFcompare.
  destruct s1, s2; try discriminate.
  - destruct (Z.compare e1 e2) eqn:He; try discriminate.
    apply Z.compare_eq in He. subst e2.
    destruct (Pos.compare_cont Eq m1 m2) eqn:Hm; try discriminate.
    apply Pos.compare_eq in Hm. intros _. auto.
  - destruct (Z.compare e1 e2) eqn:He; try discriminate.
    apply Z.compare_eq in He. subst e2.
    destruct (Pos.compare_cont Eq m1 m2) eqn:Hm; try discriminate.
    apply Pos.compare_eq in Hm. intros _. auto.
Qed.

Lemma SFsub_same_finite (s : bool) (m : positive) (e : Z) :
  SFsub prec emax (S754_finite s m e) (S754_finite s m e) = S754_zero false.
Proof.
  unfold SFsub. rewrite Z.min_id.
  destruct s; simpl cond_Zopp.
  - rewrite Z.sub_diag. reflexivity.
  - rewrite Z.sub_diag. reflexivity.
Qed.

Lemma float_zero_cases (f : float) (s : bool) :
  Prim2SF f = S754_zero s -> In f [0.0%float; (-0.0)%float].
Proof.
  intros H. rewrite <- (SF2Prim_Prim2SF f), H.
  destruct s; simpl; [ right; left | left ]; reflexivity.
Qed.

(** The offset of a whole number from its floor is a zero. *)
Lemma integer_offset (x : float) :
  float_is_integer x = true ->
  exists xi xif, math_floor x = Return xi /\ float_of_int xi = Return xif
                 /\ In (x - xif)%float [0.0%float; (-0.0)%float].
Proof.
  unfold float_is_integer. intros H.
  destruct (math_floor x) as [xi | ] eqn:Hxi; [ | discriminate ].
  destruct (float_of_int xi) as [xif | ] eqn:Hxif; [ | discriminate ].
  exists xi, xif. split; [ reflexivity | ]. split; [ exact Hxif | ].
  rewrite eqb_spec in H.
  assert (Hz : exists s, Prim2SF (x - xif)%float = S754_zero s).
  { rewrite sub_spec. unfold SF64sub. unfold math_floor in Hxi.
    destruct (Prim2SF x) as [s | s | | s m e] eqn:Hx; try discriminate.
    - destruct (Prim2SF xif) as [s' | s' | | s' m' e'] eqn:Hf;
        try discriminate; try (destruct s'; discriminate).
      simpl. destruct s, s'; eexists; reflexivity.
    - destruct (Prim2SF xif) as [s' | s' | | s' m' e'] eqn:Hf;
        try discriminate; try (destruct s; discriminate);
        try (destruct s, s'; discriminate).
      apply SFeqb_finite in H as (-> & -> & ->).
      exists false. apply SFsub_same_finite. }
  destruct Hz as [s Hz]. apply (float_zero_cases _ s Hz).
Qed.

(** The single-octave noise at a corner of a cell. *)
Lemma perlin2_corner (e : Engine) (x y : float) :
  engine_okb e = true ->
  float_is_integer x = true -> float_is_integer y = true ->
  exists v, _perlin2 x y e = (Return v, e) /\ (v =? 0)%float = true.
Proof.
  intros Hok Hx Hy.
  destruct (integer_offset x Hx) as (xi & xif & Hxi & Hxif & Hxz).
  destruct (integer_offset y Hy) as (yi & yif & Hyi & Hyif & Hyz).
  destruct (perlin2_value e x y xi yi xif yif Hok Hxi Hyi Hxif Hyif)
    as (g00 & g10 & g01 & g11 & I00 & I10 & I01 & I11 & Hv).
  eexists. split; [ exact Hv | ].
  apply corner_zero; assumption.
Qed.

(** X5: at a point whose two coordinates are whole numbers [_perlin2]
    returns a zero ([0.0] or [-0.0]), for every valid table: the noise
    vanishes at the corners of the cells. *)
Theorem perlin2_zero_at_lattice (e : Engine) (x y : float) :
  engine_okb e = true ->
  float_is_integer x = true -> float_is_integer y = true ->
  exists v, _perlin2 x y e = (Return v, e) /\ (v =? 0)%float = true.
Proof. apply perlin2_corner. Qed.

Lemma perlin2_zero_at_lattice_witness :
  exists v, _perlin2 (-3.0) 1e20 example_engine = (Return v, example_engine)
            /\ (v =? 0)%float = true.
Proof.
  apply (perlin2_zero_at_lattice example_engine (-3.0) 1e20); vm_compute; reflexivity.
Defined.

(** ** Rounding: exact results *)

Section RoundingExact.

Variables prec emax : Z.
Hypothesis prec_pos : 0 < prec.

Local Abbreviation emin := (SpecFloat.emin prec emax).
Local Abbreviation fexp := (SpecFloat.fexp prec emax).

Lemma canonical_fexp (M : positive) (E : Z) :
  canonical prec emax M E -> fexp (Zpos (digits2_pos M) + E) = E.
Proof.
  intros H. apply (canonical_canonical_mantissa prec emax prec_pos) in H.
  unfold canonical_mantissa in H. apply Z.eqb_eq in H. exact H.
Qed.

Lemma digits2_pos_scaled (m M : positive) (k : Z) :
  0 <= k -> Zpos m = Zpos M * 2 ^ k ->
  Zpos (digits2_pos m) = Zpos (digits2_pos M) + k.
Proof.
  intros Hk Hm. apply digits2_pos_unique. rewrite Hm.
  pose proof (digits2_pos_bounds M) as [Hl Hu].
  pose proof (pow2_pos k Hk) as Hp.
  assert (Hd : 1 <= Zpos (digits2_pos M)) by lia.
  replace (Zpos (digits2_pos M) + k - 1) with ((Zpos (digits2_pos M) - 1) + k) by lia.
  rewrite !pow2_split by lia. nia.
Qed.

(** [binary_round_aux] on a mantissa that is a canonical one shifted left
    returns the canonical pair. *)
Lemma binary_round_aux_exact (sx : bool) (m : positive) (e : Z) (M : positive) (E : Z) :
  canonical prec emax M E -> E <= emax - prec -> e <= E ->
  Zpos m = Zpos M * 2 ^ (E - e) ->
  binary_round_aux prec emax sx (Zpos m) e loc_Exact = S754_finite sx M E.
Proof.
  intros Hcan HE HeE Hm.
  pose proof (digits2_pos_scaled m M (E - e) ltac:(lia) Hm) as Hd.
  pose proof (canonical_fexp M E Hcan) as Hf.
  assert (Hp : 0 < 2 ^ (E - e)) by (apply pow2_pos; lia).
  remember (binary_round_aux prec emax sx (Zpos m) e loc_Exact) as R eqn:HR.
  unfold binary_round_aux in HR.
  unfold shr_fexp at 1 in HR. simpl Zdigits2 in HR. simpl shr_record_of_loc in HR.
  rewrite Hd in HR.
  replace (Zpos (digits2_pos M) + (E - e) + e) with (Zpos (digits2_pos M) + E) in HR by lia.
  rewrite Hf in HR.
  destruct (shr_exact_inv (Zpos m) e (E - e) ltac:(lia)) as [[Hm1 Hfl] He'].
  rewrite (Z.max_r 0 (E - e)) in Hm1, Hfl, He' by lia.
  destruct (shr (Build_shr_record (Zpos m) false false) e (E - e)) as [r1 e'] eqn:Hshr.
  simpl fst in Hm1, Hfl. simpl snd in He'. cbv iota beta in HR.
  subst e'. replace (e + (E - e)) with E in HR by lia.
  assert (Hmod : Zpos m mod 2 ^ (E - e) = 0) by (rewrite Hm; apply Z.mod_mul; lia).
  destruct (Hfl Hmod) as [Hr Hs].
  assert (HM : shr_m r1 = Zpos M) by (rewrite Hm1, Hm; apply Z.div_mul; lia).
  assert (Hrne : round_nearest_even (shr_m r1) (loc_of_shr_record r1) = Zpos M).
  { destruct (round_nearest_even_cases r1) as [H | [_ [H | H]]]; congruence. }
  rewrite Hrne in HR.
  unfold shr_fexp in HR. simpl Zdigits2 in HR. simpl shr_record_of_loc in HR.
  rewrite Hf, Z.sub_diag in HR.
  unfold shr in HR. cbv beta iota in HR. simpl shr_m in HR.
  apply Z.leb_le in HE. rewrite HE in HR. exact HR.
Qed.

(** [binary_round] on a pair of the same value as a canonical pair returns
    the canonical pair. *)
Lemma binary_round_exact (sx : bool) (m : positive) (e : Z) (M : positive) (E : Z) :
  canonical prec emax M E -> E <= emax - prec ->
  Zpos m * 2 ^ (e - Z.min e E) = Zpos M * 2 ^ (E - Z.min e E) ->
  binary_round prec emax sx m e = S754_finite sx M E.
Proof.
  intros Hcan HE Hv.
  assert (Hdig : Zpos (digits2_pos m) + e = Zpos (digits2_pos M) + E).
  { destruct (Z_le_gt_dec e E) as [Hle | Hgt].
    - rewrite Z.min_l, Z.sub_diag in Hv by lia. simpl (2 ^ 0) in Hv.
      rewrite Z.mul_1_r in Hv.
      pose proof (digits2_pos_scaled m M (E - e) ltac:(lia) Hv). lia.
    - rewrite Z.min_r, Z.sub_diag in Hv by lia. simpl (2 ^ 0) in Hv.
      rewrite Z.mul_1_r in Hv. symmetry in Hv.
      pose proof (digits2_pos_scaled M m (e - E) ltac:(lia) Hv). lia. }
  unfold binary_round.
  set (f0 := fexp (Zpos (digits2_pos m) + e)).
  assert (Hf0 : f0 = E) by (unfold f0; rewrite Hdig; apply canonical_fexp; exact Hcan).
  destruct (shl_align_spec m e f0) as (Hez & Hmz & _).
  destruct (shl_align m e f0) as [mz ez]. simpl fst in *. simpl snd in *.
  rewrite Hf0 in Hez, Hmz.
  apply binary_round_aux_exact; [ exact Hcan | exact HE | lia | ].
  rewrite Hmz, Hez. exact Hv.
Qed.

End RoundingExact.

Lemma canonical_valid (s : bool) (M : positive) (E : Z) :
  canonical prec emax M E -> E <= emax - prec ->
  valid_binary (S754_finite s M E) = true.
Proof.
  intros Hcan HE. simpl. unfold bounded. apply andb_true_iff. split.
  - apply (canonical_canonical_mantissa prec emax eq_refl). exact Hcan.
  - apply Z.leb_le. exact HE.
Qed.

(** [float(z)] is exact when [z] is the value of a canonical pair. *)
Lemma float_of_int_exact (z : Z) (s : bool) (a M : positive) (E : Z) :
  z = cond_Zopp s (Zpos a) -> canonical prec emax M E -> E <= emax - prec ->
  Zpos a * 2 ^ (0 - Z.min 0 E) = Zpos M * 2 ^ (E - Z.min 0 E) ->
  float_of_int z = Return (SF2Prim (S754_finite s M E))
  /\ Prim2SF (SF2Prim (S754_finite s M E)) = S754_finite s M E.
Proof.
  intros Hz Hcan HE Hv.
  assert (Hp : Prim2SF (SF2Prim (S754_finite s M E)) = S754_finite s M E)
    by (apply Prim2SF_SF2Prim, canonical_valid; assumption).
  split; [ | exact Hp ].
  unfold float_of_int, Z2float.
  assert (Hn : binary_normalize prec emax z 0 false = S754_finite s M E).
  { subst z. destruct s; simpl cond_Zopp; unfold binary_normalize;
      apply (binary_round_exact prec emax eq_refl); assumption. }
  rewrite Hn. rewrite is_infinity_false; [ reflexivity | ].
  intros s'. rewrite Hp. discriminate.
Qed.

(** The canonical pair of a positive integer below [2^53]. *)
Lemma canonical_of_pos (a : positive) :
  Zpos a < 2 ^ 53 ->
  exists (M : positive) (E : Z),
    canonical prec emax M E /\ -52 <= E <= 0 /\ Zpos M = Zpos a * 2 ^ (- E).
Proof.
  intros Ha. pose proof (digits2_pos_bounds a) as [Hl Hu].
  assert (Hd53 : Zpos (digits2_pos a) <= 53) by (apply digits2_pos_gt; lia).
  set (d := Zpos (digits2_pos a)) in *.
  assert (Hd1 : 1 <= d) by (unfold d; lia).
  set (k := 53 - d).
  assert (Hk : 0 <= k) by (unfold k; lia).
  pose proof (pow2_pos k Hk) as Hpk.
  destruct (Zpos a * 2 ^ k) as [| M | M] eqn:HM; try lia.
  exists M, (- k). rewrite Z.opp_involutive.
  split; [ | split; [ unfold k; lia | symmetry; exact HM ] ].
  unfold canonical, SpecFloat.emin, prec, emax.
  split; [ unfold k; lia | ].
  assert (H53 : 2 ^ 53 = 2 ^ d * 2 ^ k).
  { rewrite <- pow2_split by lia. f_equal. unfold k. lia. }
  assert (H52 : 2 ^ (53 - 1) = 2 ^ (d - 1) * 2 ^ k).
  { rewrite <- pow2_split by lia. f_equal. unfold k. lia. }
  rewrite <- HM. split.
  - rewrite H53. nia.
  - right. rewrite H52. nia.
Qed.

(** ** The offset from the floor *)

Lemma mag_zero (k : Z) (s : bool) : mag k (S754_zero s).
Proof. exists s. left. reflexivity. Qed.

(** A non-negative integer below [2^(-ez)], at the exponent [ez]: a number
    of magnitude at most one. *)
Lemma binary_normalize_unit (S ez : Z) :
  ez <= 0 -> 0 <= S < 2 ^ (- ez) ->
  mag 0 (binary_normalize prec emax S ez false).
Proof.
  intros Hez [HS0 HS]. unfold binary_normalize.
  destruct S as [| p | p]; try lia.
  - apply mag_zero.
  - exists false. apply binary_round_below; [ reflexivity | | unfold emax, prec; lia | ].
    + apply (canonical_pow2 0). lia.
    + unfold le_val. simpl (0 - 52).
      change (Zpos 4503599627370496) with (2 ^ 52).
      destruct (Z_le_gt_dec ez (-52)) as [Hle | Hgt].
      * rewrite Z.min_l by lia. rewrite Z.sub_diag. simpl (2 ^ 0).
        rewrite <- pow2_split by lia.
        replace (52 + (-52 - ez)) with (- ez) by lia. lia.
      * rewrite Z.min_r by lia. rewrite Z.sub_diag. simpl (2 ^ 0).
        replace (ez - -52) with (ez + 52) by lia.
        assert (H52 : 2 ^ 52 = 2 ^ (- ez) * 2 ^ (ez + 52)).
        { rewrite <- pow2_split by lia. f_equal. lia. }
        rewrite H52. pose proof (pow2_pos (ez + 52) ltac:(lia)). nia.
Qed.

Lemma cond_Zopp_mul (s : bool) (z w : Z) : cond_Zopp s z * w = cond_Zopp s (z * w).
Proof. destruct s; simpl; lia. Qed.

Lemma frac_offset_nonzero (s s' : bool) (m a : positive) (e : Z) :
  e < 0 -> Zpos a < 2 ^ 53 ->
  cond_Zopp s' (Zpos a) * 2 ^ (- e) <= cond_Zopp s (Zpos m)
    < (cond_Zopp s' (Zpos a) + 1) * 2 ^ (- e) ->
  exists xif, float_of_int (cond_Zopp s' (Zpos a)) = Return xif
              /\ mag 0 (SFsub prec emax (S754_finite s m e) (Prim2SF xif)).
Proof.
  intros He Ha Hfl.
  destruct (canonical_of_pos a Ha) as (M & E & Hcan & HE & HM).
  destruct (float_of_int_exact (cond_Zopp s' (Zpos a)) s' a M E eq_refl Hcan)
    as [Hf Hp].
  { unfold emax, prec. lia. }
  { rewrite Z.min_r by lia. rewrite Z.sub_diag. simpl (2 ^ 0).
    replace (0 - E) with (- E) by lia. lia. }
  eexists. split; [ exact Hf | ]. rewrite Hp.
  unfold SFsub. set (ez := Z.min e E).
  destruct (shl_align_spec m e ez) as (_ & HA & _).
  destruct (shl_align_spec M E ez) as (_ & HB & _).
  rewrite (Z.min_r e ez) in HA by (unfold ez; lia).
  rewrite (Z.min_r E ez) in HB by (unfold ez; lia).
  set (A := fst (shl_align m e ez)) in *. set (B := fst (shl_align M E ez)) in *.
  assert (Hez : ez <= 0) by (unfold ez; lia).
  assert (HW1 : 2 ^ (- ez) = 2 ^ (- e) * 2 ^ (e - ez)).
  { rewrite <- pow2_split by (unfold ez; lia). f_equal. lia. }
  assert (HW2 : 2 ^ (- ez) = 2 ^ (- E) * 2 ^ (E - ez)).
  { rewrite <- pow2_split by (unfold ez; lia). f_equal. lia. }
  pose proof (pow2_pos (e - ez) ltac:(unfold ez; lia)) as HQ.
  pose proof (pow2_pos (- e) ltac:(lia)) as HP.
  assert (HcA : cond_Zopp s (Zpos A) = cond_Zopp s (Zpos m) * 2 ^ (e - ez)).
  { rewrite cond_Zopp_mul, HA. reflexivity. }
  assert (HcB : cond_Zopp s' (Zpos B) = cond_Zopp s' (Zpos a) * 2 ^ (- ez)).
  { rewrite cond_Zopp_mul, HB, HM, HW2. f_equal. lia. }
  apply binary_normalize_unit; [ exact Hez | ].
  rewrite HcA, HcB, HW1.
  set (c := cond_Zopp s (Zpos m)) in *. set (xi := cond_Zopp s' (Zpos a)) in *.
  set (P := 2 ^ (- e)) in *. set (Q := 2 ^ (e - ez)) in *.
  destruct Hfl as [Hlo Hhi]. split; nia.
Qed.

Lemma frac_offset (s : bool) (m : positive) (e : Z) :
  canonical prec emax m e -> e < 0 ->
  exists xif, float_of_int (Z.shiftl (cond_Zopp s (Zpos m)) e) = Return xif
              /\ mag 0 (SFsub prec emax (S754_finite s m e) (Prim2SF xif)).
Proof.
  intros Hcan He.
  set (k := - e). set (c := cond_Zopp s (Zpos m)).
  assert (Hshift : Z.shiftl c e = c / 2 ^ k).
  { replace e with (- k) by (unfold k; lia).
    rewrite Z.shiftl_opp_r, Z.shiftr_div_pow2 by (unfold k; lia). reflexivity. }
  rewrite Hshift.
  assert (Hk : 0 < k) by (unfold k; lia).
  pose proof (pow2_pos k ltac:(lia)) as HP.
  assert (HP2 : 2 <= 2 ^ k).
  { change 2 with (2 ^ 1) at 1. apply pow2_le. lia. }
  pose proof (Z.div_mod c (2 ^ k) ltac:(lia)) as Hdm.
  pose proof (Z.mod_pos_bound c (2 ^ k) HP) as Hr.
  remember (c / 2 ^ k) as xi eqn:Hxival. remember (c mod 2 ^ k) as r eqn:Hrval.
  destruct Hcan as (Hemin & Hmup & Hnorm). unfold SpecFloat.emin, prec, emax in *.
  assert (Hc : Z.abs c = Zpos m) by (unfold c; apply cond_Zopp_abs).
  assert (Hxi : Z.abs xi < 2 ^ 53) by nia.
  destruct xi as [| a | a].
  - (* the floor is zero: the offset is the number itself *)
    exists 0.0%float. split; [ reflexivity | ].
    rewrite Prim2SF_zero. simpl SFsub.
    assert (Hs : s = false) by (destruct s; [ unfold c in *; simpl cond_Zopp in *; lia | reflexivity ]).
    subst s. simpl cond_Zopp in c.
    exists false. right. exists m, e. split; [ reflexivity | ].
    split; [ unfold canonical, SpecFloat.emin, prec, emax; auto | ].
    unfold sf_le. simpl (0 - 52). change (Zpos 4503599627370496) with (2 ^ 52).
    assert (Hmk : Zpos m < 2 ^ k) by (unfold c in *; lia).
    assert (He52 : e <= -52).
    { destruct Hnorm as [-> | Hn]; [ lia | ].
      destruct (Z_le_gt_dec e (-52)) as [? | Hgt]; [ assumption | ].
      assert (2 ^ k <= 2 ^ 52) by (apply pow2_le; unfold k; lia). lia. }
    split; [ exact He52 | ].
    rewrite <- pow2_split by lia. replace (52 + (-52 - e)) with k by (unfold k; lia). lia.
  - (* a positive floor *)
    destruct (frac_offset_nonzero s false m a e He) as (xif & Hf & Hm); [ lia | | ].
    + simpl cond_Zopp. fold k. fold c. lia.
    + exists xif. split; assumption.
  - (* a negative floor *)
    destruct (frac_offset_nonzero s true m a e He) as (xif & Hf & Hm); [ lia | | ].
    + simpl cond_Zopp. fold k. fold c. lia.
    + exists xif. split; assumption.
Qed.

(** The offset of a finite float from its floor, [x - math.floor(x)], is of
    magnitude at most one. *)
Lemma floor_offset (x : float) :
  is_finite x = true ->
  exists xi xif, math_floor x = Return xi /\ float_of_int xi = Return xif
                 /\ magb 0 (x - xif)%float = true.
Proof.
  intros Hx.
  assert (H : exists xi xif, math_floor x = Return xi /\ float_of_int xi = Return xif
                             /\ mag 0 (Prim2SF (x - xif)%float)).
  { unfold math_floor.
    destruct (is_finite_spec x Hx) as [[s Hs] | (s & m & e & Hs)]; rewrite Hs.
    - (* a zero *)
      exists 0, 0.0%float. split; [ reflexivity | ]. split; [ reflexivity | ].
      rewrite sub_spec, Hs, Prim2SF_zero. simpl. destruct s; apply mag_zero.
    - pose proof (Prim2SF_valid x) as Hv. rewrite Hs in Hv.
      apply (valid_finite prec emax) in Hv; [ | reflexivity ]. destruct Hv as [Hcan Hemax].
      destruct (Z_le_gt_dec 0 e) as [Hpos | Hneg].
      + (* a whole number *)
        pose proof (pow2_pos e Hpos) as Hp.
        destruct (2 ^ e) as [| q | q] eqn:Hq; try lia.
        destruct (float_of_int_exact (Z.shiftl (cond_Zopp s (Zpos m)) e) s (m * q) m e)
          as [Hf Hp2]; try assumption.
        * rewrite Z.shiftl_mul_pow2 by lia. rewrite Hq. destruct s; reflexivity.
        * rewrite Z.min_l by lia. rewrite !Z.sub_0_r. simpl (2 ^ 0).
          rewrite Hq, Pos2Z.inj_mul. lia.
        * eexists. eexists. split; [ reflexivity | ]. split; [ exact Hf | ].
          rewrite sub_spec, Hs, Hp2. unfold SF64sub. rewrite SFsub_same_finite.
          apply mag_zero.
      + (* a fraction *)
        destruct (frac_offset s m e Hcan ltac:(lia)) as (xif & Hf & Hm).
        eexists. exists xif. split; [ reflexivity | ]. split; [ exact Hf | ].
        rewrite sub_spec, Hs. exact Hm. }
  destruct H as (xi & xif & H1 & H2 & H3).
  exists xi, xif. split; [ exact H1 | ]. split; [ exact H2 | ].
  apply mag_magb; [ lia | exact H3 ].
Qed.

(** ** The single-octave noise is finite *)

Lemma magb_weaken (i k : Z) (f : float) :
  -1022 <= i -> i <= k -> k <= 1023 -> magb i f = true -> magb k f = true.
Proof.
  intros Hi Hik Hk H. apply mag_magb; [ lia | ].
  apply (mag_weaken i k); [ exact Hik | ]. apply magb_mag; [ lia | exact H ].
Qed.

Lemma magb_finite (k : Z) (f : float) :
  -1022 <= k <= 1023 -> magb k f = true -> is_finite f = true.
Proof.
  intros Hk H. apply magb_mag in H; [ | exact Hk ].
  destruct (is_finite f) eqn:Hf; [ reflexivity | exfalso ].
  apply is_finite_false_spec in Hf.
  destruct H as [sx [Hz | (m & e & Hfin & _)]];
    destruct Hf as [Hn | [s Hi]]; congruence.
Qed.

Lemma fade_bounded (t : float) : magb 0 t = true -> magb 6 (_fade t) = true.
Proof.
  intros Ht. unfold _fade.
  assert (H6 : magb 3 6%float = true) by (vm_compute; reflexivity).
  assert (H15 : magb 4 15%float = true) by (vm_compute; reflexivity).
  assert (H10 : magb 4 10%float = true) by (vm_compute; reflexivity).
  apply (magb_mul 0 6); try lia.
  - apply (magb_mul 0 0); try lia; [ | exact Ht ].
    apply (magb_mul 0 0); try lia; exact Ht.
  - apply (magb_add 5 4 5); try lia; [ | exact H10 ].
    apply (magb_mul 0 5); try lia; [ exact Ht | ].
    apply (magb_sub 3 4 4); try lia; [ | exact H15 ].
    apply (magb_mul 0 3); try lia; assumption.
Qed.

Lemma grad_dot_bounded (g : Z * Z) (a b : float) :
  In g GRAD2 -> magb 1 a = true -> magb 1 b = true ->
  magb 2 (grad_dot g a b) = true.
Proof.
  intros Hg Ha Hb.
  assert (H : magb 0 (Z2float (fst g)) = true /\ magb 0 (Z2float (snd g)) = true).
  { simpl in Hg.
    repeat (destruct Hg as [<- | Hg]; [ split; vm_compute; reflexivity | ]).
    contradiction. }
  destruct H as [H0 H1]. unfold grad_dot.
  apply (magb_add 1 1 1); try lia.
  - apply (magb_mul 0 1); try lia; assumption.
  - apply (magb_mul 0 1); try lia; assumption.
Qed.

Lemma lerp_bounded_by (i j : Z) (a b t : float) :
  0 <= i -> 0 <= j -> i + j + 2 <= 1023 ->
  magb i a = true -> magb i b = true -> magb j t = true ->
  magb (i + j + 2) (_lerp a b t) = true.
Proof.
  intros Hi0 Hj0 Hij Ha Hb Ht. unfold _lerp.
  replace (i + j + 2) with ((i + j + 1) + 1) by lia.
  apply (magb_add i (i + j + 1) (i + j + 1)); try lia; [ exact Ha | ].
  replace (i + j + 1) with (j + (i + 1)) by lia.
  apply (magb_mul j (i + 1)); try lia; [ exact Ht | ].
  apply (magb_sub i i i); try lia; assumption.
Qed.

Lemma corner_blend_bounded (g00 g10 g01 g11 : Z * Z) (xf yf : float) :
  In g00 GRAD2 -> In g10 GRAD2 -> In g01 GRAD2 -> In g11 GRAD2 ->
  magb 0 xf = true -> magb 0 yf = true ->
  magb 18 (corner_blend g00 g10 g01 g11 xf yf) = true.
Proof.
  intros I00 I10 I01 I11 Hx Hy. unfold corner_blend. cbv zeta.
  assert (H1 : magb 0 1.0%float = true) by (vm_compute; reflexivity).
  assert (Hx1 : magb 1 xf = true) by (apply (magb_weaken 0 1); try lia; exact Hx).
  assert (Hy1 : magb 1 yf = true) by (apply (magb_weaken 0 1); try lia; exact Hy).
  assert (Hxm : magb 1 (xf - 1.0)%float = true)
    by (apply (magb_sub 0 0 0); try lia; assumption).
  assert (Hym : magb 1 (yf - 1.0)%float = true)
    by (apply (magb_sub 0 0 0); try lia; assumption).
  pose proof (fade_bounded xf Hx) as Hu. pose proof (fade_bounded yf Hy) as Hv.
  apply (lerp_bounded_by 10 6); try lia; [ | | exact Hv ].
  - apply (lerp_bounded_by 2 6); try lia; [ | | exact Hu ];
      apply grad_dot_bounded; assumption.
  - apply (lerp_bounded_by 2 6); try lia; [ | | exact Hu ];
      apply grad_dot_bounded; assumption.
Qed.

(** On finite coordinates [_perlin2] returns a finite number. *)
Lemma perlin2_magnitude (e : Engine) (x y : float) :
  engine_okb e = true -> is_finite x = true -> is_finite y = true ->
  exists v, _perlin2 x y e = (Return v, e) /\ magb 18 v = true.
Proof.
  intros Hok Hx Hy.
  destruct (floor_offset x Hx) as (xi & xif & Hxi & Hxif & Mx).
  destruct (floor_offset y Hy) as (yi & yif & Hyi & Hyif & My).
  destruct (perlin2_value e x y xi yi xif yif Hok Hxi Hyi Hxif Hyif)
    as (g00 & g10 & g01 & g11 & I00 & I10 & I01 & I11 & Hv).
  eexists. split; [ exact Hv | ].
  apply corner_blend_bounded; assumption.
Qed.

Lemma pow2f_18 : pow2f 18 = 262144%float.
Proof. vm_compute. reflexivity. Qed.

(** X6: on finite coordinates and a valid table [_perlin2] returns a finite
    number, never a NaN or an infinity: the offsets in the cell are of
    magnitude at most one for every finite float, however large, and the
    result is of magnitude at most [2^18] (a coarse bound). *)
Theorem perlin2_finite (e : Engine) (x y : float) :
  engine_okb e = true -> is_finite x = true -> is_finite y = true ->
  exists v, _perlin2 x y e = (Return v, e)
            /\ is_finite v = true
            /\ (abs v <=? 262144)%float = true.
Proof.
  intros Hok Hx Hy.
  destruct (perlin2_magnitude e x y Hok Hx Hy) as (v & Hv & Mv).
  exists v. split; [ exact Hv | ]. split.
  - apply (magb_finite 18); [ lia | exact Mv ].
  - unfold magb in Mv. rewrite pow2f_18 in Mv. exact Mv.
Qed.

Lemma perlin2_finite_witness :
  exists v, _perlin2 1e300 (-0.3) example_engine = (Return v, example_engine)
            /\ is_finite v = true
            /\ (abs v <=? 262144)%float = true.
Proof.
  apply (perlin2_finite example_engine 1e300 (-0.3)); vm_compute; reflexivity.
Defined.

(** ** The range of get_noise *)

Lemma fpow_bounded (g : float) (i : nat) :
  magb 0 g = true -> magb 0 (fpow g i) = true.
Proof.
  intros Hg. induction i as [| i IH].
  - vm_compute. reflexivity.
  - simpl fpow. apply (magb_mul 0 0); try lia; assumption.
Qed.

Lemma amplitude_sum_bounded (g : float) (n : nat) :
  magb 0 g = true -> Z.of_nat n <= 1023 ->
  magb (Z.of_nat n) (amplitude_sum g n) = true.
Proof.
  intros Hg. induction n as [| n IH]; intros Hn.
  - apply magb_zero. lia.
  - simpl amplitude_sum.
    replace (Z.of_nat (S n)) with (Z.of_nat n + 1) by lia.
    apply (magb_add (Z.of_nat n) 0 (Z.of_nat n)); try lia.
    + apply IH. lia.
    + apply fpow_bounded. exact Hg.
Qed.

Lemma samples_finite_nth (l x y : float) (n i : nat) :
  samples_finite l x y n = true -> (i < n)%nat ->
  is_finite (x * fpow l i)%float = true /\ is_finite (y * fpow l i)%float = true.
Proof.
  induction n as [| n IH]; intros H Hi; [ lia | ].
  simpl in H. apply andb_true_iff in H as [H Hy]. apply andb_true_iff in H as [H Hx].
  destruct (Nat.eq_dec i n) as [-> | Hne].
  - split; assumption.
  - apply IH; [ exact H | lia ].
Qed.

Lemma magb_0_abs (f : float) : magb 0 f = (abs f <=? 1)%float.
Proof. reflexivity. Qed.

(** A float of bounded magnitude that is not equal to zero is a finite
    non-zero number. *)
Lemma magb_nonzero_finite (k : Z) (f : float) :
  -1022 <= k <= 1023 -> magb k f = true -> (f =? 0)%float = false ->
  exists s m e, Prim2SF f = S754_finite s m e.
Proof.
  intros Hk H Hnz. apply magb_mag in H; [ | exact Hk ].
  destruct H as [sx [Hz | (m & e & Hfin & _)]].
  - rewrite eqb_spec, Hz, Prim2SF_zero in Hnz. destruct sx; discriminate.
  - eauto.
Qed.

(** The range of [get_noise] when the gain is of magnitude at most one. *)
Lemma get_noise_bounded_gain (e : Engine) (x y : PyNum) (xf yf : float) :
  engine_okb e = true ->
  (abs (gain e) <=? 1)%float = true ->
  octaves e <= 1000 ->
  py_float x = Return xf -> py_float y = Return yf ->
  samples_finite (lacunarity e) (xf * frequency e) (yf * frequency e)
                 (Z.to_nat (octaves e)) = true ->
  exists v, get_noise x y e = (Return v, e) /\ in_unit_range v = true.
Proof.
  intros Hok Hgain Hoct Hx Hy Hfin.
  rewrite <- magb_0_abs in Hgain.
  set (n := Z.to_nat (octaves e)) in *.
  assert (Hn : Z.of_nat n <= 1000) by (unfold n; lia).
  destruct (weighted_sum_bounded e (xf * frequency e)%float (yf * frequency e)%float 18 n)
    as [t [Ht Mt]]; try lia.
  - intros i Hi.
    destruct (samples_finite_nth _ _ _ _ i Hfin Hi) as [Fx Fy].
    destruct (perlin2_magnitude e _ _ Hok Fx Fy) as (v & Hv & Mv).
    exists v. split; [ | exact Mv ]. unfold perlin2. rewrite Hv. reflexivity.
  - intros i _. apply fpow_bounded. exact Hgain.
  - pose proof (amplitude_sum_bounded (gain e) n Hgain ltac:(lia)) as MA.
    set (A := amplitude_sum (gain e) n) in *.
    assert (Hg : get_noise x y e
                 = (Return (clamp (if (A =? 0)%float then 0.0 else t / A)%float), e)).
    { rewrite get_noise_unfold. unfold bind, lift, ret.
      rewrite Hx, Hy, perlin_fractal_guarded. unfold fractal_guarded.
      fold n. rewrite Ht. fold A. destruct (A =? 0)%float; reflexivity. }
    eexists. split; [ exact Hg | ].
    apply clamp_in_unit_range.
    destruct (A =? 0)%float eqn:HA0; [ reflexivity | ].
    destruct (magb_nonzero_finite (Z.of_nat n) A ltac:(lia) MA HA0) as (s & m & e' & HA).
    apply (magb_div_not_nan (18 + Z.of_nat n) t A s m e'); [ lia | exact Mt | exact HA ].
Qed.

(** X7: on an instance with a valid table, a gain of magnitude at most one
    and at most 1000 octaves, [get_noise] returns a number of [[-1, 1]], never
    a NaN, whenever every octave scales the coordinates to finite numbers. *)
Theorem get_noise_in_range (e : Engine) (x y : PyNum) (xf yf : float) :
  engine_okb e = true ->
  (abs (gain e) <=? 1)%float = true ->
  octaves e <= 1000 ->
  py_float x = Return xf -> py_float y = Return yf ->
  samples_finite (lacunarity e) (xf * frequency e) (yf * frequency e)
                 (Z.to_nat (octaves e)) = true ->
  exists v, get_noise x y e = (Return v, e) /\ in_unit_range v = true.
Proof. apply get_noise_bounded_gain. Qed.

Lemma get_noise_in_range_witness :
  exists v, get_noise (PyFloat 12.5) (PyInt (-7)) example_engine = (Return v, example_engine)
            /\ in_unit_range v = true.
Proof.
  apply (get_noise_in_range example_engine (PyFloat 12.5) (PyInt (-7)) 12.5 (-7));
    vm_compute; first [ reflexivity | discriminate ].
Defined.

(** ** The bytes of the image *)

Section SingleBelow.

Import perlin_noise_generator.

(** A bound [M32 * 2^E32] that is a normal binary32 number, and the same
    number as a binary64 pair. *)
Variable M32 : positive.
Variable E32 : Z.
Hypothesis bound_canonical : canonical 24 128 M32 E32.
Hypothesis bound_normal : 2 ^ 23 <= Zpos M32.
Hypothesis bound_range : E32 <= 104.

Local Abbreviation M64 := (M32 * 536870912)%positive.
Local Abbreviation E64 := (E32 - 29).

Lemma bound64_canonical (k : Z) :
  -1074 <= E64 + k -> canonical prec emax M64 (E64 + k).
Proof.
  intros Hk. destruct bound_canonical as (_ & Hup & _).
  unfold canonical, SpecFloat.emin, prec, emax.
  rewrite Pos2Z.inj_mul. change (Zpos 536870912) with (2 ^ 29).
  change (2 ^ 53) with (2 ^ 24 * 2 ^ 29). change (2 ^ (53 - 1)) with (2 ^ 23 * 2 ^ 29).
  split; [ lia | ]. split; [ | right ]; nia.
Qed.

(** A binary32 number of magnitude at most the bound, read as a binary64
    float. *)
Lemma SF2Prim_single_bounded (m2 : positive) (e2 : Z) :
  canonical 24 128 m2 e2 -> sf_le m2 e2 M32 E32 ->
  rounded_below prec emax false M64 E64
                (Prim2SF (SF2Prim (S754_finite false m2 e2))).
Proof.
  intros (Hemin & Hup & _) [He2 Hm2]. unfold SpecFloat.emin in Hemin.
  change (SF2Prim (S754_finite false m2 e2))
    with (Z.ldexp (of_uint63 (Uint63.of_Z (Zpos m2))) e2).
  rewrite Z_ldexp_spec, of_uint63_spec, Uint63.of_Z_spec.
  rewrite Z.mod_small by (split; [ lia | ];
    apply Z.lt_trans with (1 := Hup); reflexivity).
  unfold binary_normalize.
  set (j := E32 - e2) in *.
  assert (HM64 : Zpos M64 = Zpos M32 * 2 ^ 29) by (rewrite Pos2Z.inj_mul; reflexivity).
  assert (HA : rounded_below prec emax false M64 (E64 + - e2)
                 (binary_round prec emax false m2 0)).
  { apply binary_round_below; [ reflexivity | | unfold emax, prec; lia | ].
    - apply bound64_canonical. lia.
    - unfold le_val. rewrite HM64.
      replace (E32 - 29 + - e2) with (j - 29) by (unfold j; lia).
      destruct (Z_le_gt_dec 29 j) as [Hj | Hj].
      + rewrite Z.min_l by lia. rewrite !Z.sub_0_r. simpl (2 ^ 0).
        replace j with (29 + (j - 29)) in Hm2 by lia.
        rewrite pow2_split in Hm2 by lia. lia.
      + rewrite Z.min_r by lia. rewrite Z.sub_diag. simpl (2 ^ 0).
        replace (0 - (j - 29)) with (29 - j) by lia.
        assert (H29 : 2 ^ 29 = 2 ^ j * 2 ^ (29 - j)).
        { rewrite <- pow2_split by (unfold j; lia). f_equal. lia. }
        rewrite H29. pose proof (pow2_pos (29 - j) ltac:(lia)).
        pose proof (pow2_pos j ltac:(unfold j; lia)). nia. }
  destruct HA as [-> | (m3 & e3 & -> & Hcan3 & He3 & Hm3)].
  - left. reflexivity.
  - unfold SFldexp.
    apply binary_round_below; [ reflexivity | | unfold emax, prec; lia | ].
    + replace (E32 - 29) with (E64 + 0) by lia. apply bound64_canonical.
      destruct bound_canonical as (Hmin & _). unfold SpecFloat.emin in Hmin. lia.
    + unfold le_val. rewrite Z.min_l by lia.
      rewrite Z.sub_diag. simpl (2 ^ 0).
      replace (E32 - 29 - (e3 + e2)) with (E64 + - e2 - e3) by lia. lia.
Qed.

(** Rounding to single precision keeps a number below the bound. *)
Lemma to_float32_bounded (h : float) :
  rounded_below prec emax false M64 E64 (Prim2SF h) ->
  rounded_below prec emax false M64 E64 (Prim2SF (to_float32 h)).
Proof.
  intros Hh. unfold to_float32.
  assert (HM64 : Zpos M64 = Zpos M32 * 2 ^ 29) by (rewrite Pos2Z.inj_mul; reflexivity).
  destruct Hh as [Hz | (m & e & Hf & Hcan & He & Hm)].
  - rewrite Hz. left. exact Hz.
  - rewrite Hf.
    assert (H32 : rounded_below 24 128 false M32 E32 (binary_round 24 128 false m e)).
    { apply binary_round_below; [ reflexivity | exact bound_canonical | exact bound_range | ].
      unfold le_val. rewrite Z.min_l by lia. rewrite Z.sub_diag. simpl (2 ^ 0).
      rewrite HM64 in Hm.
      replace (E32 - e) with (29 + (E32 - 29 - e)) by lia.
      rewrite pow2_split by lia. lia. }
    destruct H32 as [-> | (m2 & e2 & -> & Hcan2 & Hle2)].
    + left. vm_compute. reflexivity.
    + apply SF2Prim_single_bounded; assumption.
Qed.

End SingleBelow.

Section Bytes.

Import perlin_noise_generator.

Lemma Prim2SF_255 : Prim2SF 255%float = S754_finite false 8972014882652160 (-45).
Proof. vm_compute. reflexivity. Qed.

Lemma canonical_255 : canonical prec emax 8972014882652160 (-45).
Proof.
  unfold canonical, SpecFloat.emin, prec, emax.
  split; [ lia | ]. split; [ reflexivity | right; discriminate ].
Qed.

Lemma canonical32_255 : canonical 24 128 16711680 (-16).
Proof.
  unfold canonical, SpecFloat.emin.
  split; [ lia | ]. split; [ reflexivity | right; discriminate ].
Qed.

(** 255 times a number of [[0, 1]]: a number of [[0, 255]]. *)
Lemma mul_255_below (d : float) :
  rounded_below prec emax false 4503599627370496 (-52) (Prim2SF d) ->
  rounded_below prec emax false 8972014882652160 (-45) (Prim2SF (d * 255)%float).
Proof.
  intros Hd. rewrite mul_spec, Prim2SF_255. unfold SF64mul.
  destruct Hd as [-> | (m & e & -> & Hcan & He & Hm)].
  - left. reflexivity.
  - unfold SFmul. simpl xorb.
    destruct (canonical_digits m e Hcan) as [Hdx Hnx].
    destruct (canonical_digits _ _ canonical_255) as [Hdy Hny].
    pose proof (digits2_pos_mul m 8972014882652160) as HD.
    assert (Hd1 : 1 <= Zpos (digits2_pos m)) by lia.
    destruct Hcan as (Hemin & _ & _). unfold SpecFloat.emin, prec, emax in Hemin.
    apply binary_round_aux_below;
      [ reflexivity | | exact canonical_255 | unfold emax, prec; lia | ].
    + unfold SpecFloat.fexp, SpecFloat.emin, prec, emax.
      destruct Hnx as [-> | Hnx], Hny as [Hny | Hny]; lia.
    + rewrite Pos2Z.inj_mul.
      change (Zpos 4503599627370496) with (2 ^ 52) in Hm.
      rewrite <- pow2_split in Hm by lia.
      replace (52 + (-52 - e)) with (- e) in Hm by lia.
      replace (-45 - (e + -45)) with (- e) by lia.
      rewrite (Z.mul_comm (Zpos m)). apply Z.mul_le_mono_nonneg_l; lia.
Qed.

(** The conversion of a number of [[0, 255]] to an unsigned byte. *)
Lemma astype_uint8_below (f : float) :
  rounded_below prec emax false 8972014882652160 (-45) (Prim2SF f) ->
  exists b, astype_uint8 f = Some b /\ 0 <= b <= 255.
Proof.
  intros Hf. unfold astype_uint8, int_of_float.
  destruct Hf as [-> | (m & e & -> & Hcan & He & Hm)].
  - exists 0. split; [ reflexivity | lia ].
  - simpl cond_Zopp.
    replace e with (- (- e)) by lia.
    rewrite Z.shiftl_opp_r, Z.shiftr_div_pow2 by lia.
    pose proof (pow2_pos (- e) ltac:(lia)) as Hp.
    change (Zpos 8972014882652160) with (255 * 2 ^ 45) in Hm.
    rewrite <- Z.mul_assoc, <- pow2_split in Hm by lia.
    replace (45 + (-45 - e)) with (- e) in Hm by lia.
    assert (H0 : 0 <= Zpos m / 2 ^ (- e)) by (apply Z.div_pos; lia).
    assert (H255 : Zpos m / 2 ^ (- e) <= 255).
    { apply Z.div_le_upper_bound; lia. }
    exists (Zpos m / 2 ^ (- e)).
    destruct (Z.leb_spec 0 (Zpos m / 2 ^ (- e))); [ | lia ].
    destruct (Z.leb_spec (Zpos m / 2 ^ (- e)) 255); [ | lia ].
    split; [ reflexivity | lia ].
Qed.

(** Rounding a number of [[0, 1]] to single precision, as a bound. *)
Lemma to_float32_unit (h : float) :
  rounded_below prec emax false 4503599627370496 (-52) (Prim2SF h) ->
  rounded_below prec emax false 4503599627370496 (-52) (Prim2SF (to_float32 h)).
Proof.
  apply (to_float32_bounded 8388608 (-23) canonical32_one); [ discriminate | lia ].
Qed.

(** The byte of a stored sample. *)
Lemma sample_byte (v : float) :
  in_unit_range v = true ->
  exists b, astype_uint8 (mul_255 (to_float32 ((v + 1) * 0.5)%float)) = Some b
            /\ 0 <= b <= 255.
Proof.
  intros Hv. apply astype_uint8_below. unfold mul_255.
  apply (to_float32_bounded 16711680 (-16) canonical32_255); [ discriminate | lia | ].
  apply mul_255_below, to_float32_unit, mul_half_below, add_one_below. exact Hv.
Qed.

End Bytes.

Section Image.

Import perlin_noise_generator.

Variable shuffle : Z -> list Z -> list Z.
Hypothesis shuffle_perm : forall s l, Permutation l (shuffle s l).

(** X8: for every seed, the array that line 30 hands to [Image.fromarray],
    [(data * 255).astype('uint8')], has the height and the width of the
    image, and the conversion of every pixel is a specified one that yields a
    byte of 0..255: the product with 255 of a stored sample never leaves
    [[0, 255]], so that no pixel wraps around. *)
Theorem image_bytes_in_range (seed0 : Z) :
  exists data,
    fst (script shuffle seed0) = Return data
    /\ length (image_bytes data) = HEIGHT
    /\ forall y x, (y < HEIGHT)%nat -> (x < WIDTH)%nat ->
       exists row d b,
         nth_error (image_bytes data) y = Some row
         /\ length row = WIDTH
         /\ sample_at data y x = Some d
         /\ nth_error row x = Some (astype_uint8 (mul_255 d))
         /\ astype_uint8 (mul_255 d) = Some b
         /\ 0 <= b <= 255.
Proof.
  set (e0 := __init__ shuffle seed0).
  set (e := configured e0).
  assert (Hok : engine_okb e0 = true)
    by (apply (build_perm_table_okb shuffle shuffle_perm)).
  assert (Hpix : forall y x, (y < HEIGHT)%nat -> (x < WIDTH)%nat ->
            exists v, get_noise (PyInt (Z.of_nat x)) (PyInt (Z.of_nat y)) e = (Return v, e)).
  { intros y x Hy Hx.
    destruct (script_pixel_range e0 y x Hok Hy Hx) as [v [Hv _]]. exists v. exact Hv. }
  exists (map (fun y => map (stored e y) (seq 0 WIDTH)) (seq 0 HEIGHT)).
  split; [ | split ].
  - unfold script. fold e0. unfold bind. rewrite configure_spec. fold e.
    rewrite (sample_grid_spec e WIDTH HEIGHT Hpix). reflexivity.
  - unfold image_bytes. rewrite !length_map, length_seq. reflexivity.
  - intros y x Hy Hx.
    destruct (grid_lookup (stored e) WIDTH HEIGHT y x Hy Hx) as (row & Hrow & Hlen & Hnth).
    destruct (script_pixel_range e0 y x Hok Hy Hx) as (v & Hv & Hrange). fold e in Hv.
    destruct (sample_byte v Hrange) as (b & Hb & Hb255).
    assert (Hst : stored e y x = to_float32 ((v + 1) * 0.5)%float)
      by (unfold stored; rewrite Hv; reflexivity).
    exists (map (fun d => astype_uint8 (mul_255 d)) row), (stored e y x), b.
    split; [ | split; [ | split; [ | split; [ | split ] ] ] ].
    + unfold image_bytes.
      apply (map_nth_error (map (fun d => astype_uint8 (mul_255 d))) y _ Hrow).
    + rewrite length_map. exact Hlen.
    + unfold sample_at. rewrite Hrow. exact Hnth.
    + apply (map_nth_error (fun d => astype_uint8 (mul_255 d)) x _ Hnth).
    + rewrite Hst. exact Hb.
    + exact Hb255.
Qed.

End Image.

Lemma image_bytes_in_range_witness :
  exists data,
    fst (perlin_noise_generator.script lcg_shuffle 1337) = Return data
    /\ length (perlin_noise_generator.image_bytes data) = perlin_noise_generator.HEIGHT
    /\ forall y x, (y < perlin_noise_generator.HEIGHT)%nat ->
                   (x < perlin_noise_generator.WIDTH)%nat ->
       exists row d b,
         nth_error (perlin_noise_generator.image_bytes data) y = Some row
         /\ length row = perlin_noise_generator.WIDTH
         /\ sample_at data y x = Some d
         /\ nth_error row x
            = Some (perlin_noise_generator.astype_uint8 (perlin_noise_generator.mul_255 d))
         /\ perlin_noise_generator.astype_uint8 (perlin_noise_generator.mul_255 d) = Some b
         /\ 0 <= b <= 255.
Proof.
  apply (image_bytes_in_range lcg_shuffle lcg_shuffle_perm 1337).
Defined.

(** ** The setters of the float parameters *)

(** An integer below [2^53] in magnitude converts to a float and back without
    change. *)
Lemma float_of_int_round_trip (z : Z) :
  Z.abs z < 2 ^ 53 ->
  exists f, float_of_int z = Return f /\ int_of_float f = Return z
            /\ is_finite f = true.
Proof.
  intros Hz. destruct z as [| a | a].
  - exists 0.0%float. repeat split; reflexivity.
  - destruct (canonical_of_pos a Hz) as (M & E & Hcan & HE & HM).
    destruct (float_of_int_exact (Zpos a) false a M E eq_refl Hcan) as [Hf Hp].
    { unfold emax, prec. lia. }
    { rewrite Z.min_r by lia. rewrite Z.sub_diag. simpl (2 ^ 0).
      replace (0 - E) with (- E) by lia. lia. }
    eexists. split; [ exact Hf | ]. split.
    + unfold int_of_float. rewrite Hp. simpl cond_Zopp. f_equal.
      replace E with (- (- E)) at 1 by lia.
      rewrite Z.shiftl_opp_r, Z.shiftr_div_pow2 by lia.
      rewrite HM. apply Z.div_mul. pose proof (pow2_pos (- E) ltac:(lia)). lia.
    + unfold is_finite. apply negb_true_iff, orb_false_iff. split.
      * apply is_nan_false_spec. rewrite Hp. discriminate.
      * apply is_infinity_false. intros s. rewrite Hp. discriminate.
  - destruct (canonical_of_pos a Hz) as (M & E & Hcan & HE & HM).
    destruct (float_of_int_exact (Zneg a) true a M E eq_refl Hcan) as [Hf Hp].
    { unfold emax, prec. lia. }
    { rewrite Z.min_r by lia. rewrite Z.sub_diag. simpl (2 ^ 0).
      replace (0 - E) with (- E) by lia. lia. }
    eexists. split; [ exact Hf | ]. split.
    + unfold int_of_float. rewrite Hp.
      replace E with (- (- E)) at 1 by lia.
      rewrite Z.shiftl_opp_r, Z.shiftr_div_pow2 by lia.
      rewrite HM, Z.div_mul by (pose proof (pow2_pos (- E) ltac:(lia)); lia).
      reflexivity.
    + unfold is_finite. apply negb_true_iff, orb_false_iff. split.
      * apply is_nan_false_spec. rewrite Hp. discriminate.
      * apply is_infinity_false. intros s. rewrite Hp. discriminate.
Qed.

Lemma canonical_max : canonical prec emax 9007199254740991 971.
Proof.
  unfold canonical, SpecFloat.emin, prec, emax.
  split; [ lia | ]. split; [ reflexivity | right; discriminate ].
Qed.

Lemma float_of_int_raise (z : Z) (err : exn) :
  float_of_int z = Raise err ->
  err = OverflowError /\ 9007199254740991 * 2 ^ 971 < Z.abs z.
Proof.
  intros H. split.
  - unfold float_of_int in H. destruct (is_infinity (Z2float z)); congruence.
  - destruct (Z_lt_le_dec (9007199254740991 * 2 ^ 971) (Z.abs z)) as [? | Hle];
      [ assumption | exfalso ].
    destruct (float_of_int_bounded z 9007199254740991 971 canonical_max) as [f Hf];
      try lia. congruence.
Qed.

(** X9: [set_frequency], [set_fractal_lacunarity] and [set_fractal_gain]
    store [float(v)] and change no other attribute, the table and the seed
    included. A float is stored as it is (NaN and the infinities too, there
    is no validation); an [int] of magnitude below [2^53] is stored exactly
    (it converts back to the same [int]); the only error is the
    [OverflowError] of [float] on an [int] of magnitude above
    [(2^53 - 1) * 2^971], the largest float, and then the instance is
    unchanged. *)
Theorem float_setters_store (e : Engine) (v : PyNum) :
  (forall f, py_float v = Return f ->
     set_frequency v e = (Return tt, set_frequency_attr f e)
     /\ set_fractal_lacunarity v e = (Return tt, set_lacunarity_attr f e)
     /\ set_fractal_gain v e = (Return tt, set_gain_attr f e))
  /\ (forall err, py_float v = Raise err ->
     err = OverflowError
     /\ (exists z, v = PyInt z /\ 9007199254740991 * 2 ^ 971 < Z.abs z)
     /\ set_frequency v e = (Raise OverflowError, e)
     /\ set_fractal_lacunarity v e = (Raise OverflowError, e)
     /\ set_fractal_gain v e = (Raise OverflowError, e))
  /\ (forall f, v = PyFloat f -> py_float v = Return f)
  /\ (forall z, v = PyInt z -> Z.abs z < 2 ^ 53 ->
     exists f, py_float v = Return f /\ int_of_float f = Return z
               /\ is_finite f = true).
Proof.
  split; [ | split; [ | split ] ].
  - intros f Hf. unfold set_frequency, set_fractal_lacunarity, set_fractal_gain,
      bind, lift, put. rewrite Hf. repeat split; reflexivity.
  - intros err Herr.
    destruct v as [z | f]; [ | discriminate ].
    destruct (float_of_int_raise z err Herr) as [-> Hz].
    split; [ reflexivity | ]. split; [ exists z; split; [ reflexivity | exact Hz ] | ].
    unfold set_frequency, set_fractal_lacunarity, set_fractal_gain, bind, lift, put.
    rewrite Herr. repeat split; reflexivity.
  - intros f ->. reflexivity.
  - intros z -> Hz. apply float_of_int_round_trip. exact Hz.
Qed.

Lemma float_setters_store_witness :
  set_frequency (PyInt 3) example_engine
  = (Return tt, set_frequency_attr 3.0 example_engine)
  /\ set_fractal_lacunarity (PyInt 3) example_engine
     = (Return tt, set_lacunarity_attr 3.0 example_engine)
  /\ set_fractal_gain (PyInt 3) example_engine
     = (Return tt, set_gain_attr 3.0 example_engine).
Proof.
  destruct (float_setters_store example_engine (PyInt 3)) as (H & _).
  apply H. vm_compute. reflexivity.
Defined.

(** ** The corner hash is one-to-one *)

Lemma table_entry (p : list Z) (i : Z) :
  table_okb p = true -> 0 <= i < 256 ->
  exists a, nth_error p (Z.to_nat i) = Some a /\ 0 <= a < 256.
Proof.
  intros Hok Hi. destruct (table_okb_spec p Hok) as (Hlen & _ & Hperm & _).
  destruct (nth_error_in_range p i) as [a Ha]; [ lia | ].
  exists a. split; [ exact Ha | ].
  assert (Hin : In a (firstn 256 p)).
  { apply nth_error_In with (n := Z.to_nat i). rewrite nth_error_firstn.
    destruct (Nat.ltb_spec (Z.to_nat i) 256) as [_ | Hge]; [ exact Ha | lia ]. }
  apply (Permutation_in _ (Permutation_sym Hperm)) in Hin.
  apply py_range_In in Hin. exact Hin.
Qed.

(** Different positions of a period of the table hold different entries. *)
Lemma table_injective (p : list Z) (i j : Z) :
  table_okb p = true -> 0 <= i < 256 -> 0 <= j < 256 ->
  nth_error p (Z.to_nat i) = nth_error p (Z.to_nat j) -> i = j.
Proof.
  intros Hok Hi Hj Heq. destruct (table_okb_spec p Hok) as (Hlen & _ & Hperm & _).
  assert (Hnd : NoDup (firstn 256 p)).
  { apply (Permutation_NoDup Hperm). apply py_range_NoDup. }
  assert (Hl : length (firstn 256 p) = 256%nat) by (rewrite length_firstn; lia).
  assert (Hf : forall k, 0 <= k < 256 ->
                 nth_error (firstn 256 p) (Z.to_nat k) = nth_error p (Z.to_nat k)).
  { intros k Hk. rewrite nth_error_firstn.
    destruct (Nat.ltb_spec (Z.to_nat k) 256) as [_ | Hge]; [ reflexivity | lia ]. }
  assert (Hn : Z.to_nat i = Z.to_nat j).
  { apply (proj1 (NoDup_nth_error _) Hnd); [ lia | ].
    rewrite !Hf by assumption. exact Heq. }
  lia.
Qed.

Lemma mod_256_cancel (a b c : Z) :
  (a + c) mod 256 = (b + c) mod 256 -> a mod 256 = b mod 256.
Proof.
  intros H.
  pose proof (Z.div_mod (a + c) 256 ltac:(lia)) as Ha.
  pose proof (Z.div_mod (b + c) 256 ltac:(lia)) as Hb.
  rewrite H in Ha.
  replace a with (b + ((a + c) / 256 - (b + c) / 256) * 256) by lia.
  apply Z_mod_plus_full.
Qed.

(** X10: on a valid table the corner hash is one-to-one in each argument over
    a period: for a fixed [iy], equal hashes of [ix] and [ix'] mean that [ix]
    and [ix'] agree modulo 256, and the same for [iy] at a fixed [ix]. *)
Theorem perm_hash_injective (e : Engine) (ix ix' iy iy' : Z) :
  table_okb (perm e) = true ->
  (fst (_perm_hash ix iy e) = fst (_perm_hash ix' iy e) -> ix mod 256 = ix' mod 256)
  /\ (fst (_perm_hash ix iy e) = fst (_perm_hash ix iy' e) -> iy mod 256 = iy' mod 256).
Proof.
  intros Hok.
  assert (Hm : forall z, 0 <= z mod 256 < 256)
    by (intro z; apply Z.mod_pos_bound; lia).
  rewrite !perm_hash_eq. simpl fst. unfold hash_formula.
  destruct (table_entry (perm e) (ix mod 256) Hok (Hm ix)) as (a & Ha & Hra).
  destruct (table_entry (perm e) (ix' mod 256) Hok (Hm ix')) as (a' & Ha' & Hra').
  rewrite Ha, Ha'.
  destruct (table_entry (perm e) ((a + iy) mod 256) Hok (Hm _)) as (h & Hh & _).
  destruct (table_entry (perm e) ((a' + iy) mod 256) Hok (Hm _)) as (h' & Hh' & _).
  destruct (table_entry (perm e) ((a + iy') mod 256) Hok (Hm _)) as (h2 & Hh2 & _).
  split.
  - intros Heq. rewrite Hh, Hh' in Heq. simpl in Heq.
    assert (Hhh : h = h') by congruence. subst h'.
    assert (Hidx : (a + iy) mod 256 = (a' + iy) mod 256).
    { apply (table_injective (perm e)); try apply Hm; [ exact Hok | ]. congruence. }
    apply mod_256_cancel in Hidx.
    rewrite !Z.mod_small in Hidx by assumption. subst a'.
    apply (table_injective (perm e)); try apply Hm; [ exact Hok | ]. congruence.
  - intros Heq. rewrite Hh, Hh2 in Heq. simpl in Heq.
    assert (Hhh : h = h2) by congruence. subst h2.
    assert (Hidx : (a + iy) mod 256 = (a + iy') mod 256).
    { apply (table_injective (perm e)); try apply Hm; [ exact Hok | ]. congruence. }
    rewrite (Z.add_comm a iy), (Z.add_comm a iy') in Hidx.
    apply mod_256_cancel in Hidx. exact Hidx.
Qed.

Lemma perm_hash_injective_witness :
  (fst (_perm_hash 3 7 example_engine) = fst (_perm_hash 259 7 example_engine) ->
   3 mod 256 = 259 mod 256)
  /\ (fst (_perm_hash 3 7 example_engine) = fst (_perm_hash 3 (-249) example_engine) ->
      7 mod 256 = -249 mod 256).
Proof.
  apply (perm_hash_injective example_engine 3 259 7 (-249)). vm_compute. reflexivity.
Defined.

(** ** The frequency is a scale of the coordinates *)

Lemma ff_ret {A : Type} (a : A) : frequency_free (ret a).
Proof. intros e f. reflexivity. Qed.

Lemma ff_lift {A : Type} (o : outcome A) : frequency_free (lift o).
Proof. intros e f. reflexivity. Qed.

Lemma ff_bind {A B : Type} (c : Py A) (k : A -> Py B) :
  frequency_free c -> (forall a, frequency_free (k a)) -> frequency_free (bind c k).
Proof.
  intros Hc Hk e f. unfold bind. rewrite Hc.
  destruct (c e) as [[a | x] e1]; simpl.
  - apply Hk.
  - reflexivity.
Qed.

Lemma ff_get_perm : frequency_free (get perm).
Proof. intros e f. reflexivity. Qed.
Lemma ff_get_grad2 : frequency_free (get grad2).
Proof. intros e f. reflexivity. Qed.
Lemma ff_get_gain : frequency_free (get gain).
Proof. intros e f. reflexivity. Qed.
Lemma ff_get_lacunarity : frequency_free (get lacunarity).
Proof. intros e f. reflexivity. Qed.
Lemma ff_get_octaves : frequency_free (get octaves).
Proof. intros e f. reflexivity. Qed.

Create HintDb py_frequency.
#[export] Hint Resolve ff_ret ff_lift ff_get_perm ff_get_grad2 ff_get_gain
  ff_get_lacunarity ff_get_octaves : py_frequency.

Ltac ff_steps :=
  repeat (first [ solve [ auto with py_frequency ] | apply ff_bind; [ | intro ] ]).

Lemma ff_perm_hash (ix iy : Z) : frequency_free (_perm_hash ix iy).
Proof. unfold _perm_hash. ff_steps. Qed.

Lemma ff_grad (h : Z) (x y : float) : frequency_free (_grad h x y).
Proof. unfold _grad. ff_steps. Qed.

#[export] Hint Resolve ff_perm_hash ff_grad : py_frequency.

Lemma ff_perlin2 (x y : float) : frequency_free (_perlin2 x y).
Proof. unfold _perlin2. ff_steps. Qed.

#[export] Hint Resolve ff_perlin2 : py_frequency.

Lemma ff_octave_step (x y : float) (a : Acc) : frequency_free (octave_step x y a).
Proof. unfold octave_step. ff_steps. Qed.

#[export] Hint Resolve ff_octave_step : py_frequency.

Lemma ff_octave_loop (n : nat) (x y : float) (a : Acc) :
  frequency_free (octave_loop n x y a).
Proof.
  revert a. induction n as [| n IH]; intros a; simpl.
  - apply ff_ret.
  - apply ff_bind; [ apply ff_octave_step | intro a'; apply IH ].
Qed.

#[export] Hint Resolve ff_octave_loop : py_frequency.

Lemma ff_perlin_fractal (x y : float) : frequency_free (_perlin_fractal x y).
Proof.
  unfold _perlin_fractal. apply ff_bind; [ apply ff_get_octaves | intro n ].
  apply ff_bind; [ apply ff_octave_loop | intro a ].
  destruct (negb (max_ampl a =? 0)%float); auto with py_frequency.
Qed.

(** A product with [1.0] is exact. *)
Lemma mul_one (a : float) : (a * 1)%float = a.
Proof.
  apply Prim2SF_inj. rewrite mul_spec, Prim2SF_one. unfold SF64mul.
  pose proof (Prim2SF_valid a) as Hv.
  destruct (Prim2SF a) as [s | s | | s m e]; simpl SFmul.
  - rewrite xorb_false_r. reflexivity.
  - rewrite xorb_false_r. reflexivity.
  - reflexivity.
  - apply (valid_finite prec emax) in Hv; [ | reflexivity ]. destruct Hv as [Hcan He].
    rewrite xorb_false_r.
    apply (binary_round_aux_exact prec emax eq_refl); [ exact Hcan | exact He | lia | ].
    rewrite Pos2Z.inj_mul. replace (e - (e + -52)) with 52 by lia. reflexivity.
Qed.

(** X11: the frequency is nothing but a scale of the coordinates:
    [get_noise(x, y)] on an instance of frequency [f] has the outcome of
    [get_noise(x * f, y * f)] on the same instance after [set_frequency(1)]
    (the product with 1.0 is exact, and no other method of the evaluation
    reads the frequency). *)
Theorem get_noise_frequency_scale (e : Engine) (x y : PyNum) (xf yf : float) :
  py_float x = Return xf -> py_float y = Return yf ->
  fst (get_noise x y e)
  = fst (get_noise (PyFloat (xf * frequency e)) (PyFloat (yf * frequency e))
                   (snd (set_frequency (PyInt 1) e))).
Proof.
  intros Hx Hy.
  change (snd (set_frequency (PyInt 1) e)) with (set_frequency_attr 1 e).
  rewrite !get_noise_unfold. unfold bind, lift, ret.
  rewrite Hx, Hy. simpl py_float. cbv beta iota.
  change (frequency (set_frequency_attr 1 e)) with 1%float.
  rewrite !mul_one. rewrite (ff_perlin_fractal _ _ e 1%float).
  destruct (_perlin_fractal (xf * frequency e) (yf * frequency e) e) as [[v | err] e1];
    reflexivity.
Qed.

Lemma get_noise_frequency_scale_witness :
  fst (get_noise (PyInt 3) (PyFloat 0.5) example_engine)
  = fst (get_noise (PyFloat (3 * frequency example_engine))
                   (PyFloat (0.5 * frequency example_engine))
                   (snd (set_frequency (PyInt 1) example_engine))).
Proof.
  apply (get_noise_frequency_scale example_engine (PyInt 3) (PyFloat 0.5) 3 0.5);
    vm_compute; reflexivity.
Defined.

(** ** The period of the single-octave noise *)

Lemma bind_reader {A B : Type} (c : Py A) (k : A -> Py B) (e : Engine) :
  reader c ->
  bind c k e = match fst (c e) with
               | Return a => k a e
               | Raise err => (Raise err, e)
               end.
Proof.
  intros [Hs _]. unfold bind. specialize (Hs e).
  destruct (c e) as [[a | err] e']; simpl in *; subst; reflexivity.
Qed.

Lemma perm_hash_mod (e : Engine) (ix iy : Z) :
  _perm_hash ix iy e = _perm_hash (ix mod 256) (iy mod 256) e.
Proof.
  unfold _perm_hash. rewrite !land_255. rewrite !Z.mod_mod by lia. reflexivity.
Qed.

Lemma perm_hash_congr (e : Engine) (ix iy ix' iy' : Z) :
  ix mod 256 = ix' mod 256 -> iy mod 256 = iy' mod 256 ->
  _perm_hash ix iy e = _perm_hash ix' iy' e.
Proof.
  intros Hx Hy. rewrite (perm_hash_mod e ix iy), (perm_hash_mod e ix' iy'), Hx, Hy.
  reflexivity.
Qed.

Lemma succ_mod_256 (a b : Z) : a mod 256 = b mod 256 -> (a + 1) mod 256 = (b + 1) mod 256.
Proof.
  intros H. rewrite (Z.add_mod a 1), (Z.add_mod b 1), H by lia. reflexivity.
Qed.

Lemma math_floor_return_finite (x : float) (xi : Z) :
  math_floor x = Return xi -> is_finite x = true.
Proof.
  intros H. destruct (is_finite x) eqn:Hf; [ reflexivity | exfalso ].
  destruct (math_floor_not_finite x Hf) as (err & Herr & _). congruence.
Qed.

Lemma cell_offset_return (x : float) (xi : Z) :
  math_floor x = Return xi ->
  exists xif, float_of_int xi = Return xif
              /\ cell_offset x = Return (xi mod 256, (x - xif)%float).
Proof.
  intros H. pose proof (math_floor_return_finite x xi H) as Hf.
  destruct (math_floor_finite x Hf) as (z & f & Hz & Hzf).
  assert (z = xi) by congruence. subst z.
  exists f. split; [ exact Hzf | ]. unfold cell_offset. rewrite H, Hzf. reflexivity.
Qed.

(** X12: [_perlin2] uses of each coordinate only the cell modulo 256 and the
    offset in the cell: two points whose cells agree modulo 256 and whose
    offsets [x - floor(x)] are the same floats have the same outcome on every
    instance, errors included. The noise repeats every 256 cells, as far as
    the rounding of the offsets allows. *)
Theorem perlin2_cell (e : Engine) (x y x' y' : float) :
  cell_offset x = cell_offset x' -> cell_offset y = cell_offset y' ->
  _perlin2 x y e = _perlin2 x' y' e.
Proof.
  intros Hx Hy.
  destruct (math_floor x) as [xi | ex] eqn:Fx.
  - destruct (cell_offset_return x xi Fx) as (xif & Hxif & Cx).
    destruct (math_floor x') as [xi' | ex'] eqn:Fx'.
    + destruct (cell_offset_return x' xi' Fx') as (xif' & Hxif' & Cx').
      rewrite Cx, Cx' in Hx. injection Hx as Hxm Hxo.
      destruct (math_floor y) as [yi | ey] eqn:Fy.
      * destruct (cell_offset_return y yi Fy) as (yif & Hyif & Cy).
        destruct (math_floor y') as [yi' | ey'] eqn:Fy'.
        -- destruct (cell_offset_return y' yi' Fy') as (yif' & Hyif' & Cy').
           rewrite Cy, Cy' in Hy. injection Hy as Hym Hyo.
           set (R := _perlin2 x' y' e). unfold _perlin2.
           unfold bind at 1. unfold lift at 1. rewrite Fx.
           unfold bind at 1. unfold lift at 1. rewrite Fy.
           unfold bind at 1. unfold lift at 1. rewrite Hxif.
           unfold bind at 1. unfold lift at 1. rewrite Hyif.
           match goal with |- ?l = _ => set (L := l) end.
           subst R. unfold _perlin2.
           unfold bind at 1. unfold lift at 1. rewrite Fx'.
           unfold bind at 1. unfold lift at 1. rewrite Fy'.
           unfold bind at 1. unfold lift at 1. rewrite Hxif'.
           unfold bind at 1. unfold lift at 1. rewrite Hyif'.
           subst L.
           rewrite <- Hxo, <- Hyo.
           rewrite (bind_reader (_perm_hash xi yi)), (bind_reader (_perm_hash xi' yi'))
             by apply reader_perm_hash.
           rewrite (perm_hash_congr e xi yi xi' yi' Hxm Hym).
           destruct (fst (_perm_hash xi' yi' e)) as [h00 | err]; [ | reflexivity ].
           rewrite (bind_reader (_perm_hash (xi + 1) yi)),
             (bind_reader (_perm_hash (xi' + 1) yi')) by apply reader_perm_hash.
           rewrite (perm_hash_congr e (xi + 1) yi (xi' + 1) yi' (succ_mod_256 _ _ Hxm) Hym).
           destruct (fst (_perm_hash (xi' + 1) yi' e)) as [h10 | err]; [ | reflexivity ].
           rewrite (bind_reader (_perm_hash xi (yi + 1))),
             (bind_reader (_perm_hash xi' (yi' + 1))) by apply reader_perm_hash.
           rewrite (perm_hash_congr e xi (yi + 1) xi' (yi' + 1) Hxm (succ_mod_256 _ _ Hym)).
           destruct (fst (_perm_hash xi' (yi' + 1) e)) as [h01 | err]; [ | reflexivity ].
           rewrite (bind_reader (_perm_hash (xi + 1) (yi + 1))),
             (bind_reader (_perm_hash (xi' + 1) (yi' + 1))) by apply reader_perm_hash.
           rewrite (perm_hash_congr e (xi + 1) (yi + 1) (xi' + 1) (yi' + 1)
                      (succ_mod_256 _ _ Hxm) (succ_mod_256 _ _ Hym)).
           reflexivity.
        -- rewrite Cy in Hy. unfold cell_offset in Hy. rewrite Fy' in Hy. discriminate.
      * unfold cell_offset in Hy. rewrite Fy in Hy.
        destruct (math_floor y') as [yi' | ey'] eqn:Fy'.
        -- destruct (cell_offset_return y' yi' Fy') as (yif' & Hyif' & Cy').
           unfold cell_offset in Cy'. rewrite Fy' in Cy'. rewrite Cy' in Hy. discriminate.
        -- injection Hy as ->.
           rewrite (perlin2_raise_y e x y ey' (math_floor_return_finite x xi Fx) Fy).
           rewrite (perlin2_raise_y e x' y' ey' (math_floor_return_finite x' xi' Fx') Fy').
           reflexivity.
    + rewrite Cx in Hx. unfold cell_offset in Hx. rewrite Fx' in Hx. discriminate.
  - unfold cell_offset in Hx. rewrite Fx in Hx.
    destruct (math_floor x') as [xi' | ex'] eqn:Fx'.
    + destruct (cell_offset_return x' xi' Fx') as (xif' & Hxif' & Cx').
      unfold cell_offset in Cx'. rewrite Fx' in Cx'. rewrite Cx' in Hx. discriminate.
    + injection Hx as ->.
      rewrite (perlin2_raise_x e x y ex' Fx), (perlin2_raise_x e x' y' ex' Fx').
      reflexivity.
Qed.

Lemma perlin2_cell_witness :
  _perlin2 0.5 (-0.25) example_engine = _perlin2 256.5 255.75 example_engine.
Proof.
  apply (perlin2_cell example_engine 0.5 (-0.25) 256.5 255.75); vm_compute; reflexivity.
Defined.

(** ** Whole coordinates in every octave *)

Lemma eqb_zero_spec (v : float) :
  (v =? 0)%float = true <-> exists s, Prim2SF v = S754_zero s.
Proof.
  rewrite eqb_spec, Prim2SF_zero. split.
  - destruct (Prim2SF v) as [s | s | | s m e]; simpl; try discriminate; eauto.
    + destruct s; discriminate.
    + destruct s; discriminate.
  - intros [s ->]. reflexivity.
Qed.

Lemma mul_zero_r (a v : float) (k : Z) :
  -1022 <= k <= 1023 -> magb k a = true -> (v =? 0)%float = true ->
  (a * v =? 0)%float = true.
Proof.
  intros Hk Ha Hv. apply eqb_zero_spec in Hv as [s Hv]. apply eqb_zero_spec.
  apply magb_mag in Ha; [ | exact Hk ].
  rewrite mul_spec, Hv. unfold SF64mul.
  destruct Ha as [sa [-> | (m & e & -> & _)]]; simpl; eauto.
Qed.

Lemma add_zero_zero (a b : float) :
  (a =? 0)%float = true -> (b =? 0)%float = true -> (a + b =? 0)%float = true.
Proof.
  intros Ha Hb. apply eqb_zero_spec in Ha as [sa Ha]. apply eqb_zero_spec in Hb as [sb Hb].
  apply eqb_zero_spec. rewrite add_spec, Ha, Hb. unfold SF64add. simpl.
  destruct sa, sb; simpl; eauto.
Qed.

Lemma div_zero_l (t A : float) (s : bool) (m : positive) (e : Z) :
  (t =? 0)%float = true -> Prim2SF A = S754_finite s m e ->
  (t / A =? 0)%float = true.
Proof.
  intros Ht HA. apply eqb_zero_spec in Ht as [st Ht]. apply eqb_zero_spec.
  rewrite div_spec, Ht, HA. unfold SF64div. simpl. eauto.
Qed.

Lemma clamp_zero (v : float) : (v =? 0)%float = true -> clamp v = v.
Proof.
  intros Hv. apply eqb_zero_spec in Hv as [s Hv]. unfold clamp.
  assert (H1 : (1.0 <? v)%float = false).
  { rewrite ltb_spec, Hv. destruct s; reflexivity. }
  rewrite H1.
  assert (H2 : (v <? -1.0)%float = false).
  { rewrite ltb_spec, Hv. destruct s; reflexivity. }
  rewrite H2. reflexivity.
Qed.

Lemma samples_integer_nth (l x y : float) (n i : nat) :
  samples_integer l x y n = true -> (i < n)%nat ->
  float_is_integer (x * fpow l i)%float = true
  /\ float_is_integer (y * fpow l i)%float = true.
Proof.
  induction n as [| n IH]; intros H Hi; [ lia | ].
  simpl in H. apply andb_true_iff in H as [H Hy]. apply andb_true_iff in H as [H Hx].
  destruct (Nat.eq_dec i n) as [-> | Hne].
  - split; assumption.
  - apply IH; [ exact H | lia ].
Qed.

Lemma weighted_sum_zero (e : Engine) (x y : float) (n : nat) :
  engine_okb e = true -> magb 0 (gain e) = true ->
  samples_integer (lacunarity e) x y n = true ->
  exists t, weighted_sum e x y n = Return t /\ (t =? 0)%float = true.
Proof.
  intros Hok Hg. induction n as [| n IH]; intros Hs.
  - exists 0.0%float. split; reflexivity.
  - destruct (samples_integer_nth _ _ _ _ n Hs ltac:(lia)) as [Ix Iy].
    simpl in Hs. apply andb_true_iff in Hs as [Hs _]. apply andb_true_iff in Hs as [Hs _].
    destruct (IH Hs) as (acc & Hacc & Zacc).
    destruct (perlin2_corner e _ _ Hok Ix Iy) as (v & Hv & Zv).
    simpl weighted_sum. rewrite Hacc. unfold perlin2. rewrite Hv. simpl fst.
    eexists. split; [ reflexivity | ].
    apply add_zero_zero; [ exact Zacc | ].
    apply (mul_zero_r _ _ 0); [ lia | apply fpow_bounded; exact Hg | exact Zv ].
Qed.

(** X13: when every octave samples a point whose two coordinates are whole
    numbers (integer coordinates with an integer frequency and lacunarity,
    for example), [get_noise] returns a zero: on an instance with a valid
    table, a gain of magnitude at most one and at most 1000 octaves, the
    noise vanishes at all such points. *)
Theorem get_noise_zero_at_integers (e : Engine) (x y : PyNum) (xf yf : float) :
  engine_okb e = true ->
  (abs (gain e) <=? 1)%float = true ->
  octaves e <= 1000 ->
  py_float x = Return xf -> py_float y = Return yf ->
  samples_integer (lacunarity e) (xf * frequency e) (yf * frequency e)
                  (Z.to_nat (octaves e)) = true ->
  exists v, get_noise x y e = (Return v, e) /\ (v =? 0)%float = true.
Proof.
  intros Hok Hgain Hoct Hx Hy Hint.
  rewrite <- magb_0_abs in Hgain.
  set (n := Z.to_nat (octaves e)) in *.
  assert (Hn : Z.of_nat n <= 1000) by (unfold n; lia).
  destruct (weighted_sum_zero e _ _ n Hok Hgain Hint) as (t & Ht & Zt).
  pose proof (amplitude_sum_bounded (gain e) n Hgain ltac:(lia)) as MA.
  set (A := amplitude_sum (gain e) n) in *.
  assert (Hg : get_noise x y e
               = (Return (clamp (if (A =? 0)%float then 0.0 else t / A)%float), e)).
  { rewrite get_noise_unfold. unfold bind, lift, ret.
    rewrite Hx, Hy, perlin_fractal_guarded. unfold fractal_guarded.
    fold n. rewrite Ht. fold A. destruct (A =? 0)%float; reflexivity. }
  eexists. split; [ exact Hg | ].
  assert (Hz : ((if (A =? 0)%float then 0.0 else t / A) =? 0)%float = true).
  { destruct (A =? 0)%float eqn:HA0; [ reflexivity | ].
    destruct (magb_nonzero_finite (Z.of_nat n) A ltac:(lia) MA HA0) as (s & m & e' & HA).
    apply (div_zero_l t A s m e' Zt HA). }
  rewrite (clamp_zero _ Hz). exact Hz.
Qed.

Lemma get_noise_zero_at_integers_witness :
  let e := snd (set_frequency (PyInt 1) example_engine) in
  exists v, get_noise (PyInt 3) (PyInt (-4)) e = (Return v, e) /\ (v =? 0)%float = true.
Proof.
  apply (get_noise_zero_at_integers (snd (set_frequency (PyInt 1) example_engine))
           (PyInt 3) (PyInt (-4)) 3 (-4));
    vm_compute; first [ reflexivity | discriminate ].
Defined.

(** ** A single octave *)

Lemma div_eucl_pow2 (m : positive) (s : Z) :
  52 <= s -> Z.div_eucl (Zpos m * 2 ^ s) (2 ^ 52) = (Zpos m * 2 ^ (s - 52), 0).
Proof.
  intros Hs.
  assert (Hq : (Zpos m * 2 ^ s) / 2 ^ 52 = Zpos m * 2 ^ (s - 52)).
  { replace s with ((s - 52) + 52) at 1 by lia.
    rewrite pow2_split by lia. rewrite Z.mul_assoc. apply Z.div_mul. discriminate. }
  assert (Hr : (Zpos m * 2 ^ s) mod 2 ^ 52 = 0).
  { replace s with ((s - 52) + 52) at 1 by lia.
    rewrite pow2_split by lia. rewrite Z.mul_assoc. apply Z.mod_mul. discriminate. }
  unfold Z.div in Hq. unfold Z.modulo in Hr.
  destruct (Z.div_eucl (Zpos m * 2 ^ s) (2 ^ 52)) as [q r]. subst. reflexivity.
Qed.

(** A quotient by [1.0] is exact. *)
Lemma div_one (a : float) : (a / 1)%float = a.
Proof.
  apply Prim2SF_inj. rewrite div_spec, Prim2SF_one. unfold SF64div.
  pose proof (Prim2SF_valid a) as Hv.
  destruct (Prim2SF a) as [s | s | | s m e]; simpl SFdiv.
  - rewrite xorb_false_r. reflexivity.
  - rewrite xorb_false_r. reflexivity.
  - reflexivity.
  - apply (valid_finite prec emax) in Hv; [ | reflexivity ]. destruct Hv as [Hcan He].
    destruct (canonical_digits m e Hcan) as [Hd53 _].
    pose proof (digits2_pos_bounds m) as [Hdl _].
    assert (Hd1 : 1 <= Zpos (digits2_pos m)) by lia.
    pose proof Hcan as (Hemin & _ & _). unfold SpecFloat.emin, prec, emax in Hemin.
    unfold SFdiv_core_binary.
    change (Zdigits2 (Zpos m)) with (Zpos (digits2_pos m)).
    change (Zdigits2 (Zpos 4503599627370496)) with 53.
    set (e' := Z.min (SpecFloat.fexp prec emax (Zpos (digits2_pos m) + e - (53 + -52)))
                     (e - -52)).
    assert (He' : e' <= e /\ -1074 <= e').
    { unfold e', SpecFloat.fexp, SpecFloat.emin, prec, emax. lia. }
    assert (Hs : 52 <= e - -52 - e') by lia.
    destruct (e - -52 - e') as [| p | p] eqn:Hsv; try lia.
    rewrite Z.shiftl_mul_pow2 by lia.
    change (Zpos 4503599627370496) with (2 ^ 52).
    rewrite div_eucl_pow2 by lia.
    change (new_location (2 ^ 52) 0) with loc_Exact.
    rewrite xorb_false_r.
    pose proof (pow2_pos (Zpos p - 52) ltac:(lia)) as Hp.
    destruct (Zpos m * 2 ^ (Zpos p - 52)) as [| q | q] eqn:Hq; try lia.
    apply (binary_round_aux_exact prec emax eq_refl); [ exact Hcan | exact He | lia | ].
    rewrite <- Hq. f_equal. f_equal. lia.
Qed.

Lemma mul_one_l (a : float) : (1 * a)%float = a.
Proof. rewrite float_mul_comm. apply mul_one. Qed.

(** X14: with a single octave the fractal sum and its normalisation change
    nothing: [get_noise(x, y)] is the clamped single-octave noise at
    [(x * f, y * f)], added to the initial total [0.0] (which turns a
    [-0.0] into [0.0]), and it raises what [_perlin2] raises there. *)
Theorem get_noise_one_octave (e : Engine) (x y : PyNum) (xf yf : float) :
  octaves e = 1 ->
  py_float x = Return xf -> py_float y = Return yf ->
  fst (get_noise x y e)
  = match fst (_perlin2 (xf * frequency e) (yf * frequency e) e) with
    | Return v => Return (clamp (0 + v))
    | Raise err => Raise err
    end.
Proof.
  intros Ho Hx Hy.
  rewrite get_noise_unfold. unfold bind, lift, ret.
  rewrite Hx, Hy, perlin_fractal_guarded. unfold fractal_guarded.
  rewrite Ho. change (Z.to_nat 1) with 1%nat.
  simpl weighted_sum. simpl amplitude_sum. simpl fpow.
  rewrite !mul_one. unfold perlin2.
  destruct (fst (_perlin2 (xf * frequency e) (yf * frequency e) e)) as [v | err];
    [ | reflexivity ].
  rewrite mul_one_l.
  change ((0 + 1 =? 0)%float) with false. cbv iota.
  change (0 + 1)%float with 1%float. rewrite div_one. reflexivity.
Qed.

Lemma get_noise_one_octave_witness :
  let e := snd (set_fractal_octaves (PyInt 1) example_engine) in
  fst (get_noise (PyFloat 12.5) (PyInt 7) e)
  = match fst (_perlin2 (12.5 * frequency e) (7 * frequency e) e) with
    | Return v => Return (clamp (0 + v))
    | Raise err => Raise err
    end.
Proof.
  apply (get_noise_one_octave (snd (set_fractal_octaves (PyInt 1) example_engine))
           (PyFloat 12.5) (PyInt 7) 12.5 7); vm_compute; reflexivity.
Defined.

(** ** Ordinary configurations *)

Lemma fpow_magnitude (l : float) (i : nat) :
  magb 1 l = true -> Z.of_nat i <= 1023 -> magb (Z.of_nat i) (fpow l i) = true.
Proof.
  intros Hl. induction i as [| i IH]; intros Hi.
  - vm_compute. reflexivity.
  - simpl fpow. replace (Z.of_nat (S i)) with (Z.of_nat i + 1) by lia.
    apply (magb_mul (Z.of_nat i) 1); try lia; [ apply IH; lia | exact Hl ].
Qed.

Lemma samples_finite_bounded (l x y : float) (c : Z) (n : nat) :
  0 <= c -> c + Z.of_nat n <= 1023 ->
  magb 1 l = true -> magb c x = true -> magb c y = true ->
  samples_finite l x y n = true.
Proof.
  intros Hc Hn Hl Hx Hy. induction n as [| n IH]; [ reflexivity | ].
  simpl. rewrite IH by lia. simpl.
  pose proof (fpow_magnitude l n Hl ltac:(lia)) as Hp.
  apply andb_true_iff. split.
  - apply (magb_finite (c + Z.of_nat n)); [ lia | ].
    apply (magb_mul c (Z.of_nat n)); try lia; assumption.
  - apply (magb_finite (c + Z.of_nat n)); [ lia | ].
    apply (magb_mul c (Z.of_nat n)); try lia; assumption.
Qed.

Lemma pow2f_1000 : pow2f 1000 = 0x1p+1000%float.
Proof. vm_compute. reflexivity. Qed.

Lemma pow2f_1 : pow2f 1 = 2%float.
Proof. vm_compute. reflexivity. Qed.

(** X15: for the ordinary configurations (a valid table, a gain and a
    frequency of magnitude at most 1, a lacunarity of magnitude at most 2, at
    most 20 octaves: the defaults and the settings of the script among them)
    [get_noise] returns a number of [[-1, 1]] for all coordinates of magnitude
    at most [2^1000]; it raises nothing and never returns a NaN there. *)
Theorem get_noise_total_in_range (e : Engine) (x y : PyNum) (xf yf : float) :
  engine_okb e = true ->
  (abs (gain e) <=? 1)%float = true ->
  (abs (frequency e) <=? 1)%float = true ->
  (abs (lacunarity e) <=? 2)%float = true ->
  octaves e <= 20 ->
  py_float x = Return xf -> py_float y = Return yf ->
  (abs xf <=? 0x1p+1000)%float = true ->
  (abs yf <=? 0x1p+1000)%float = true ->
  exists v, get_noise x y e = (Return v, e) /\ in_unit_range v = true.
Proof.
  intros Hok Hgain Hfreq Hlac Hoct Hx Hy Mx My.
  assert (Hf : magb 0 (frequency e) = true) by exact Hfreq.
  assert (Hl : magb 1 (lacunarity e) = true) by (unfold magb; rewrite pow2f_1; exact Hlac).
  assert (Mx' : magb 1000 xf = true) by (unfold magb; rewrite pow2f_1000; exact Mx).
  assert (My' : magb 1000 yf = true) by (unfold magb; rewrite pow2f_1000; exact My).
  assert (Hfin : samples_finite (lacunarity e) (xf * frequency e) (yf * frequency e)
                   (Z.to_nat (octaves e)) = true).
  { apply (samples_finite_bounded _ _ _ 1000); try lia; try exact Hl.
    - replace 1000 with (1000 + 0) by lia. apply (magb_mul 1000 0); try lia; assumption.
    - replace 1000 with (1000 + 0) by lia. apply (magb_mul 1000 0); try lia; assumption. }
  apply (get_noise_bounded_gain e x y xf yf); try assumption. lia.
Qed.

Lemma get_noise_total_in_range_witness :
  exists v, get_noise (PyFloat 1e300) (PyInt (-123456789)) example_engine
            = (Return v, example_engine)
            /\ in_unit_range v = true.
Proof.
  apply (get_noise_total_in_range example_engine (PyFloat 1e300) (PyInt (-123456789))
           1e300 (-123456789));
    vm_compute; first [ reflexivity | discriminate ].
Defined.
